(** * becurrie/backup: chunked upload, retention, listing and orchestration

    A shallow embedding of the Python sources

    - [backup/interfaces/storage/azure.py], [backup/interfaces/storage/local.py]
      (chunked upload, listing),
    - [backup/interfaces/interface.py] (default retention),
    - [backup/interfaces/directories/local.py], [.../ssh.py] (directory backup),
    - [backup/utils.py] ([get_class], [get_backup_name]),
    - [backup/run.py], [backup/app.py] (orchestration),

    followed by the properties of the specification that were checked
    against it.

    Conventions.  Python integers are [Z].  Python [str] values are lists of
    8-bit characters ([pystr]); comparison is by code point, as in Python.
    Code that may raise returns a [result]; code that has effects on the
    outside world runs in the state-and-exception monad [M], whose state
    carries the outside world and a log of the calls made on it (the log
    plays the part of the mocks' call lists in the test-suite). *)

From Stdlib Require Import String.
From Stdlib Require Import ZArith List Bool Ascii Lia.
From Stdlib Require Import Permutation Sorted.
Import ListNotations.

Local Open Scope Z_scope.

(* ===================================================================== *)
(** * Part I. The embedding                                               *)
(* ===================================================================== *)

(** ** Python values and exceptions *)

Module Py.

(** A Python [str] of code points below 256, a character being its code
    point; literals are written [s "text"]. *)
Definition pystr := list ascii.

Definition s (lit : String.string) : pystr :=
  String.list_ascii_of_string lit.
Arguments s lit%_string.

(** The exception classes that the modelled code raises itself and
    [OtherError] for whatever else the outside services (file system,
    blob client, ssh) raise, all of them subclasses of [Exception]; and,
    of the exceptions that are no instances of [Exception],
    [KeyboardInterrupt] and [SystemExit]. *)
Inductive exn : Type :=
| ImportError (msg : pystr)
| AttributeError (msg : pystr)
| ValueError (msg : pystr)
| OtherError (name : pystr)
| KeyboardInterrupt
| SystemExit (code : pystr).

(** [isinstance(e, Exception)]. *)
Definition is_exception (e : exn) : bool :=
  match e with
  | KeyboardInterrupt | SystemExit _ => false
  | _ => true
  end.

Inductive result (A : Type) : Type :=
| Ok (a : A)
| Raise (e : exn).
Arguments Ok {A} a.
Arguments Raise {A} e.

Definition is_ok {A} (r : result A) : bool :=
  match r with Ok _ => true | Raise _ => false end.

(** *** Strings *)

Definition code (c : ascii) : N := N_of_ascii c.

(** [a < b], [a == b], [a > b] on [str]: lexicographic by code point,
    a proper prefix being smaller. *)
Fixpoint str_compare (a b : pystr) : comparison :=
  match a, b with
  | [], [] => Eq
  | [], _ :: _ => Lt
  | _ :: _, [] => Gt
  | x :: a', y :: b' =>
      match N.compare (code x) (code y) with
      | Eq => str_compare a' b'
      | c => c
      end
  end.

Definition str_ltb (a b : pystr) : bool :=
  match str_compare a b with Lt => true | _ => false end.

Definition str_leb (a b : pystr) : bool :=
  match str_compare a b with Gt => false | _ => true end.

Definition str_lt (a b : pystr) : Prop := str_compare a b = Lt.
Definition str_le (a b : pystr) : Prop := str_compare a b <> Gt.

(** [c.lower()]: the letters [A] to [Z] and, above the ASCII range,
    U+00C0 to U+00DE but for the multiplication sign U+00D7 have their
    lower-case letter 32 code points up; every other character below
    256 is its own. *)
Definition lower_char (c : ascii) : ascii :=
  let n := code c in
  if (65 <=? n)%N && (n <=? 90)%N
     || (192 <=? n)%N && (n <=? 222)%N && negb (n =? 215)%N
  then ascii_of_N (n + 32) else c.

Definition lower (a : pystr) : pystr := map lower_char a.

(** [a.rfind(c)] for a one-character [c]: the highest index holding [c],
    or [-1]. *)
Fixpoint rfind (a : pystr) (c : ascii) : Z :=
  match a with
  | [] => -1
  | x :: a' =>
      let r := rfind a' c in
      if 0 <=? r then r + 1
      else if Ascii.eqb x c then 0 else -1
  end.

(** Slices [a[:i]] and [a[i:]] for [0 <= i]. *)
Definition slice_to (a : pystr) (i : Z) : pystr := firstn (Z.to_nat i) a.
Definition slice_from (a : pystr) (i : Z) : pystr := skipn (Z.to_nat i) a.

(** [sep.join(parts)]. *)
Fixpoint join (sep : pystr) (parts : list pystr) : pystr :=
  match parts with
  | [] => []
  | [p] => p
  | p :: rest => p ++ sep ++ join sep rest
  end.

(** *** [str(n)] and [str.zfill] *)

Definition digit_char (d : Z) : ascii := ascii_of_N (48 + Z.to_N d).

(** The decimal digits of [n >= 0], most significant first, prepended to
    [acc]; [fuel] bounds the number of digits. *)
Fixpoint digits (fuel : nat) (n : Z) (acc : pystr) : pystr :=
  match fuel with
  | O => acc
  | S fuel' =>
      let acc' := digit_char (n mod 10) :: acc in
      if n / 10 =? 0 then acc' else digits fuel' (n / 10) acc'
  end.

(** [str(n)] for an [int]. *)
Definition str_of_int (n : Z) : pystr :=
  if n <? 0
  then "-"%char :: digits (S (Z.to_nat (Z.log2 (- n)))) (- n) []
  else digits (S (Z.to_nat (Z.log2 n))) n [].

(** [a.zfill(width)]: pad on the left with ['0'] up to [width], after a
    leading sign if there is one; a string already that long is returned
    as it is. *)
Definition zfill (width : nat) (a : pystr) : pystr :=
  let fill := repeat "0"%char (width - length a) in
  match a with
  | c :: rest =>
      if Ascii.eqb c "+" || Ascii.eqb c "-"
      then c :: fill ++ rest
      else fill ++ a
  | [] => fill
  end.

(** *** [range(start, stop, step)] *)

(** The loop of a [range] iterator with a positive step: yield [cur]
    while [cur < stop]. *)
Fixpoint range_up (fuel : nat) (cur stop step : Z) : list Z :=
  match fuel with
  | O => []
  | S fuel' =>
      if cur <? stop then cur :: range_up fuel' (cur + step) stop step
      else []
  end.

(** Likewise with a negative step: yield [cur] while [cur > stop]. *)
Fixpoint range_down (fuel : nat) (cur stop step : Z) : list Z :=
  match fuel with
  | O => []
  | S fuel' =>
      if stop <? cur then cur :: range_down fuel' (cur + step) stop step
      else []
  end.

(** [list(range(start, stop, step))]; a zero step raises [ValueError].
    The fuel is an upper bound on the number of iterations. *)
Definition range (start stop step : Z) : result (list Z) :=
  if step =? 0 then Raise (ValueError (s "range() arg 3 must not be zero"))
  else if 0 <? step
       then Ok (range_up (Z.to_nat ((stop - start) / step + 1)) start stop step)
       else Ok (range_down (Z.to_nat ((start - stop) / (- step) + 1)) start stop step).

(** *** [sorted(items, key=key, reverse=True)] *)

(** Python's sort is stable, also with [reverse=True]: items whose keys
    compare equal keep the order of the input.  A stable sort has one
    possible result, given here by insertion from the right. *)
Section Sorted.
Context {A : Type} (key : A -> pystr).

Fixpoint insert_desc (x : A) (l : list A) : list A :=
  match l with
  | [] => [x]
  | y :: l' =>
      if str_leb (key y) (key x) then x :: y :: l'
      else y :: insert_desc x l'
  end.

Fixpoint sorted_reverse (l : list A) : list A :=
  match l with
  | [] => []
  | x :: l' => insert_desc x (sorted_reverse l')
  end.
End Sorted.

(** [a == b] on [str]. *)
Definition str_eqb (a b : pystr) : bool :=
  match str_compare a b with Eq => true | _ => false end.

(** [a.startswith(p)]. *)
Fixpoint startswith (p a : pystr) : bool :=
  match p, a with
  | [], _ => true
  | _ :: _, [] => false
  | x :: p', y :: a' => Ascii.eqb x y && startswith p' a'
  end.

(** [a.replace(old, new)] for one-character [old] and [new]. *)
Definition replace_char (old new : ascii) (a : pystr) : pystr :=
  map (fun c => if Ascii.eqb c old then new else c) a.

(** [a.split(c)] (and [a.rsplit(c)], the same list when no maximum is
    given) for a one-character separator. *)
Fixpoint split_on (c : ascii) (a : pystr) : list pystr :=
  match a with
  | [] => [[]]
  | x :: a' =>
      if Ascii.eqb x c then [] :: split_on c a'
      else match split_on c a' with
           | part :: parts => (x :: part) :: parts
           | [] => [[x]]
           end
  end.

(** [a.rsplit(c, 1)]: cut at the last [c]; one element when there is
    none. *)
Definition rsplit1 (c : ascii) (a : pystr) : list pystr :=
  let i := rfind a c in
  if i <? 0 then [a] else [slice_to a i; slice_from a (i + 1)].

(** [enumerate(l)]. *)
Definition enumerate {A} (l : list A) : list (Z * A) :=
  combine (map Z.of_nat (seq 0 (length l))) l.

(** *** [os.path] (posixpath) *)

(** [os.path.join(a, b)] for two components: [b] alone when it is
    absolute; else [a + b] when [a] is empty or ends with the
    separator; else [a + "/" + b]. *)
Definition path_join (a b : pystr) : pystr :=
  if startswith (s "/") b then b
  else if (length a =? 0)%nat || Ascii.eqb (last a "/"%char) "/" then a ++ b
       else a ++ s "/" ++ b.

(** The scan of [genericpath._splitext] over [p[sepIndex+1:dotIndex]]:
    is there a character that is not a dot? *)
Definition has_non_dot (a : pystr) : bool :=
  existsb (fun c => negb (Ascii.eqb c ".")) a.

(** [os.path.splitext(p)]: the extension starts at the last dot of the
    last path component, leading dots of the component not counting. *)
Definition splitext (p : pystr) : pystr * pystr :=
  let sepIndex := rfind p "/" in
  let dotIndex := rfind p "." in
  if (sepIndex <? dotIndex)
     && has_non_dot (slice_from (slice_to p dotIndex) (sepIndex + 1))
  then (slice_to p dotIndex, slice_from p dotIndex)
  else (p, []).

End Py.

Import Py.

(** ** The state-and-exception monad *)

Module Eff.

(** A computation over a state [S]: it returns or raises, and leaves a
    state behind in both cases. *)
Definition M (S A : Type) : Type := S -> result A * S.

Definition ret {S A} (a : A) : M S A := fun st => (Ok a, st).

Definition raise {S A} (e : exn) : M S A := fun st => (Raise e, st).

Definition bind {S A B} (m : M S A) (k : A -> M S B) : M S B :=
  fun st =>
    match m st with
    | (Ok a, st') => k a st'
    | (Raise e, st') => (Raise e, st')
    end.

(** [try: body  except Exception as exc: handler(exc)]: an exception
    that is no instance of [Exception] passes the handler by. *)
Definition try_except {S A} (body : M S A) (handler : exn -> M S A) : M S A :=
  fun st =>
    match body st with
    | (Ok a, st') => (Ok a, st')
    | (Raise e, st') =>
        if is_exception e then handler e st' else (Raise e, st')
    end.

(** [try: body  finally: final]; an exception of [final] replaces the
    outcome of [body]. *)
Definition try_finally {S A} (body : M S A) (final : M S unit) : M S A :=
  fun st =>
    match body st with
    | (r, st') =>
        match final st' with
        | (Ok _, st'') => (r, st'')
        | (Raise e, st'') => (Raise e, st'')
        end
    end.

(** [for x in l: body(x)]. *)
Fixpoint for_each {S A} (l : list A) (body : A -> M S unit) : M S unit :=
  match l with
  | [] => ret tt
  | x :: l' => bind (body x) (fun _ => for_each l' body)
  end.

Definition lift {S A} (r : result A) : M S A := fun st => (r, st).

Definition when {S} (b : bool) (m : M S unit) : M S unit :=
  if b then m else ret tt.

(** *** The call log *)

(** How a call ended. *)
Inductive outcome : Type :=
| Returned
| Raised (e : exn).

Definition outcome_of {A} (r : result A) : outcome :=
  match r with Ok _ => Returned | Raise e => Raised e end.

(** The state of a run: the outside world [W] and the calls made on it
    so far, oldest first, each with its outcome. *)
Record St (W C : Type) : Type := {
  world : W;
  log : list (C * outcome)
}.
Arguments world {W C}.
Arguments log {W C}.
Arguments Build_St {W C}.

(** Perform the outside operation [op] and log it as the call [c]. *)
Definition invoke {W C A} (c : C) (op : W -> result A * W) : M (St W C) A :=
  fun st =>
    let '(r, w) := op (world st) in
    (r, Build_St w (log st ++ [(c, outcome_of r)])).

(** A call that has no outcome of interest (a log line, a progress
    update). *)
Definition note {W C} (c : C) : M (St W C) unit :=
  invoke c (fun w => (Ok tt, w)).

Definition start {W C} (w : W) : St W C := Build_St w [].

End Eff.

Import Eff.

Declare Scope eff_scope.
Delimit Scope eff_scope with eff.
Notation "x <- m ;; k" := (bind m (fun x => k))
  (at level 61, m at next level, right associativity) : eff_scope.
Notation "m ;;; k" := (bind m (fun _ => k))
  (at level 61, right associativity) : eff_scope.

Local Open Scope eff_scope.

(** ** Chunked upload ([storage/azure.py], [storage/local.py]) *)

Module Upload.

Definition bytes := list Byte.byte.

(** [backup.settings]: the two values the upload reads. *)
Record Settings : Type := {
  BACKUP_UPLOAD_CHUNK_SIZE : Z;
  BACKUP_UPLOAD_CONCURRENCY : Z
}.

(** [file.seek(offset); file.read(length)] on the source file. *)
Definition read_at (file : bytes) (offset length : Z) : bytes :=
  firstn (Z.to_nat length) (skipn (Z.to_nat offset) file).

(** One iteration of the loop shared by both [upload] methods, for the
    offset the [range] yields:
    [length = min(chunk_size, file_size - offset)]. *)
Definition chunk_length (file_size chunk_size offset : Z) : Z :=
  Z.min chunk_size (file_size - offset).

(** The (offset, length) pairs of the loop
    [for offset in range(0, file_size, chunk_size)], in loop order. *)
Definition chunk_plan (file_size chunk_size : Z) : result (list (Z * Z)) :=
  match range 0 file_size chunk_size with
  | Ok offsets =>
      Ok (map (fun off => (off, chunk_length file_size chunk_size off)) offsets)
  | Raise e => Raise e
  end.

(** [blob_chunk_id = str(blob_chunk_offset).zfill(16)]. *)
Definition chunk_id (offset : Z) : pystr := zfill 16 (str_of_int offset).

(** *** The thread pool *)

(** [ThreadPoolExecutor]: a submitted task runs on some worker; whatever
    it raises is stored in the [Future] that [submit] returns.  Leaving
    the [with] block waits for every submitted task.  The order in which
    tasks complete is not fixed: [choices] picks, at each step, which of
    the pending tasks completes next (taken modulo the number pending).
    The result is the list of the futures' outcomes, in completion
    order. *)
Section Pool.
Context {S : Type}.

Fixpoint remove_nth {A} (k : nat) (l : list A) : list A :=
  match l, k with
  | [], _ => []
  | _ :: l', O => l'
  | x :: l', Datatypes.S k' => x :: remove_nth k' l'
  end.

Fixpoint run_pool (fuel : nat) (choices : list nat)
         (pending : list (M S unit)) (st : S) : list (result unit) * S :=
  match fuel with
  | O => ([], st)
  | Datatypes.S fuel' =>
      let k := Nat.modulo (hd O choices) (length pending) in
      match nth_error pending k with
      | None => ([], st)
      | Some task =>
          let '(r, st1) := task st in
          let '(rs, st2) :=
            run_pool fuel' (tl choices) (remove_nth k pending) st1 in
          (r :: rs, st2)
      end
  end.

(** [with ThreadPoolExecutor(...) as executor: executor.submit(t) ...]
    for the tasks submitted in the block: every task is run to its
    end, and no exception of a task reaches the caller. *)
Definition executor_run (choices : list nat) (tasks : list (M S unit))
  : M S (list (result unit)) :=
  fun st =>
    let '(rs, st') := run_pool (length tasks) choices tasks st in
    (Ok rs, st').
End Pool.

(** [ThreadPoolExecutor(max_workers=n)] raises for [n <= 0]. *)
Definition check_workers {S} (n : Z) : M S unit :=
  if n <=? 0
  then raise (ValueError (s "max_workers must be greater than 0"))
  else ret tt.

(** *** Azure blob storage *)

(** The calls made on the blob client and on the progress bar. *)
Inductive call : Type :=
| get_blob_client (dst : pystr)
| stage_block (block_id : pystr) (data : bytes)
| commit_block_list (block_ids : list pystr)
| progress_update (n : Z).

(** The blob service behind the client, with a state [B] of its own:
    what [stage_block] and [commit_block_list] do and whether they
    raise. *)
Record BlobService (B : Type) : Type := {
  service_stage_block : pystr -> bytes -> B -> result unit * B;
  service_commit_block_list : list pystr -> B -> result unit * B
}.
Arguments service_stage_block {B}.
Arguments service_commit_block_list {B}.

Section Azure.
Context {B : Type} (service : BlobService B) (settings : Settings).

(** [AzureBlobStorageInterface.upload_chunk]. *)
Definition upload_chunk (file : bytes) (offset length : Z)
           (chunk_id : pystr) (progress : bool) : M (St B call) unit :=
  let file_data := read_at file offset length in
  invoke (stage_block chunk_id file_data)
         (service_stage_block service chunk_id file_data) ;;;
  when progress (note (progress_update (Z.of_nat (List.length file_data)))).

(** [AzureBlobStorageInterface.upload]. *)
Definition upload (choices : list nat) (file : bytes) (file_size : Z)
           (dst : pystr) (progress : bool) : M (St B call) unit :=
  note (get_blob_client dst) ;;;
  let blob_chunk_size := BACKUP_UPLOAD_CHUNK_SIZE settings in
  let blob_chunk_workers := BACKUP_UPLOAD_CONCURRENCY settings in
  check_workers blob_chunk_workers ;;;
  plan <- lift (chunk_plan file_size blob_chunk_size) ;;
  let blob_chunk_ids := map (fun c => chunk_id (fst c)) plan in
  let tasks :=
    map (fun c => upload_chunk file (fst c) (snd c) (chunk_id (fst c)) progress)
        plan in
  _ <- executor_run choices tasks ;;
  invoke (commit_block_list blob_chunk_ids)
       (service_commit_block_list service blob_chunk_ids).
End Azure.

(** The arguments of the [commit_block_list] calls in a call log. *)
Definition committed (l : list (call * outcome)) : list (list pystr) :=
  flat_map (fun c => match fst c with
                     | commit_block_list ids => [ids]
                     | _ => []
                     end) l.

(** The [stage_block] calls in a call log: identifier and outcome. *)
Definition staged (l : list (call * outcome)) : list (pystr * outcome) :=
  flat_map (fun c => match fst c with
                     | stage_block id _ => [(id, snd c)]
                     | _ => []
                     end) l.

(** *** Local file system *)

(** [file_dst.seek(offset); file_dst.write(data)] on a file opened with
    ["wb"]: a write past the end fills the gap with zero bytes. *)
Definition write_at (dst : bytes) (offset : Z) (data : bytes) : bytes :=
  let off := Z.to_nat offset in
  firstn off (dst ++ repeat Byte.x00 (off - length dst))
    ++ data ++ skipn (off + length data) dst.

(** [LocalStorageInterface.upload_chunk]; the state is the content of
    the destination file. *)
Definition local_upload_chunk (file : bytes) (offset length : Z)
  : M bytes unit :=
  fun file_dst => (Ok tt, write_at file_dst offset (read_at file offset length)).

(** [LocalStorageInterface.upload]: [open(dst, "wb")] truncates. *)
Definition local_upload (settings : Settings) (choices : list nat)
           (file : bytes) (file_size : Z) : M bytes unit :=
  fun _ =>
    (check_workers (BACKUP_UPLOAD_CONCURRENCY settings) ;;;
     plan <- lift (chunk_plan file_size (BACKUP_UPLOAD_CHUNK_SIZE settings)) ;;
     _ <- executor_run choices
            (map (fun c => local_upload_chunk file (fst c) (snd c)) plan) ;;
     ret tt) [].

End Upload.


(** ** Storage interfaces: listing and retention
       ([interfaces/interface.py], [storage/local.py], [storage/azure.py]) *)

Module Storage.

(** [RetentionConfig]. *)
Record RetentionConfig : Type := { count : Z }.

(** The methods of a [StorageInterface] that reach the outside world
    [W]. *)
Record StorageInterface (W : Type) : Type := {
  exists_ : pystr -> W -> result bool * W;
  create : pystr -> W -> result unit * W;
  upload : Upload.bytes -> Z -> pystr -> W -> result unit * W;
  delete : pystr -> W -> result unit * W;
  list_ : pystr -> W -> result (list pystr) * W
}.
Arguments exists_ {W}.
Arguments create {W}.
Arguments upload {W}.
Arguments delete {W}.
Arguments list_ {W}.

(** The calls on a storage interface. *)
Inductive call : Type :=
| storage_exists (path : pystr)
| storage_create (path : pystr)
| storage_upload (dst : pystr) (file_size : Z)
| storage_delete (path : pystr)
| storage_list (path : pystr).

Section Retention.
Context {W C : Type} (storage : StorageInterface W) (inj : call -> C).

(** [StorageInterface.retention], the default retention handler. *)
Definition retention (path : pystr) (config : RetentionConfig)
  : M (St W C) unit :=
  items <- invoke (inj (storage_list path)) (list_ storage path) ;;
  for_each (enumerate items)
    (fun '(i, item) =>
       when (count config <=? i)
            (invoke (inj (storage_delete item)) (delete storage item))).
End Retention.

(** The paths of the [delete] calls in a call log. *)
Definition deletes (l : list (call * outcome)) : list pystr :=
  flat_map (fun c => match fst c with
                     | storage_delete p => [p]
                     | _ => []
                     end) l.

(** The sort key of both [list] methods:
    [lambda f: os.path.splitext(f)[0].lower()]. *)
Definition sort_key (f : pystr) : pystr := lower (fst (splitext f)).

(** [LocalStorageInterface.list], on what [os.listdir(path)] returned. *)
Definition local_list (listdir : list pystr) (path : pystr) : list pystr :=
  sorted_reverse sort_key (map (path_join path) listdir).

(** [AzureBlobStorageInterface.list], on the names of the blobs of the
    container in the order the service enumerates them. *)
Definition azure_list (blobs : list pystr) (path : pystr) : list pystr :=
  let path := replace_char "\" "/" path in
  sorted_reverse sort_key
    (filter (fun name => negb (str_eqb name path))
            (filter (startswith path) blobs)).

End Storage.

(** ** Backup names ([utils.get_backup_name]) *)

Module Naming.

(** A [datetime.datetime], to the second. *)
Record datetime : Type := {
  year : Z; month : Z; day : Z; hour : Z; minute : Z; second : Z
}.

(** The ranges of the fields; the year starts at 1000, below which the
    width of [%Y] depends on the platform. *)
Definition valid (t : datetime) : Prop :=
  1000 <= year t <= 9999 /\ 1 <= month t <= 12 /\ 1 <= day t <= 31 /\
  0 <= hour t <= 23 /\ 0 <= minute t <= 59 /\ 0 <= second t <= 59.

Definition fields (t : datetime) : list Z :=
  [year t; month t; day t; hour t; minute t; second t].

(** [t1 < t2] on datetimes. *)
Fixpoint lex_lt (a b : list Z) : Prop :=
  match a, b with
  | x :: a', y :: b' => x < y \/ (x = y /\ lex_lt a' b')
  | _, _ => False
  end.

Definition earlier (t1 t2 : datetime) : Prop := lex_lt (fields t1) (fields t2).

(** A zero-padded decimal field of [strftime]. *)
Definition pad (width : nat) (n : Z) : pystr := zfill width (str_of_int n).

(** [t.strftime("%Y-%m-%dT%H-%M-%S")]. *)
Definition strftime (t : datetime) : pystr :=
  pad 4 (year t) ++ s "-" ++ pad 2 (month t) ++ s "-" ++ pad 2 (day t)
    ++ s "T" ++ pad 2 (hour t) ++ s "-" ++ pad 2 (minute t) ++ s "-"
    ++ pad 2 (second t).

(** [get_backup_name(base)], [now] being [datetime.datetime.now()]. *)
Definition get_backup_name (now : datetime) (base : pystr) : pystr :=
  let timestamp := strftime now in
  join (s "_") [base; timestamp].

(** The file name both directory interfaces upload to:
    [dst_name + ".%s" % extension]. *)
Definition backup_file_name (now : datetime) (base extension : pystr) : pystr :=
  get_backup_name now base ++ s "." ++ extension.

End Naming.

(** ** Directory backup interfaces
       ([directories/local.py], [directories/ssh.py]) *)

Module Directories.
Import Storage Naming.

(** [DirectoryConfig]. *)
Record DirectoryConfig : Type := {
  src : pystr;
  dest : pystr;
  name : pystr;
  exclude : list pystr;
  retention_config : option RetentionConfig
}.

(** The calls a directory backup makes on the outside world. *)
Inductive call : Type :=
| on_storage (c : Storage.call)
| datetime_now
| make_archive (base_name : pystr)
| open_rb (path : pystr)
| getsize (path : pystr)
| file_close (path : pystr)
| os_remove (path : pystr)
| exec_command (command : pystr)
| open_sftp
| sftp_file (path : pystr)
| sftp_stat (path : pystr)
| sftp_close.

(** The local machine: [shutil], [open], [os] and the clock. *)
Record LocalMachine (W : Type) : Type := {
  shutil_make_archive : pystr -> W -> result pystr * W;
  builtin_open : pystr -> W -> result Upload.bytes * W;
  os_path_getsize : pystr -> W -> result Z * W;
  os_remove_file : pystr -> W -> result unit * W;
  clock : W -> datetime * W
}.
Arguments shutil_make_archive {W}.
Arguments builtin_open {W}.
Arguments os_path_getsize {W}.
Arguments os_remove_file {W}.
Arguments clock {W}.

(** The [paramiko] client of the ssh interface; [client_exec_command]
    stands for [exec_command] followed by [recv_exit_status] and gives
    the exit status. *)
Record SSHClient (W : Type) : Type := {
  client_exec_command : pystr -> W -> result Z * W;
  client_open_sftp : W -> result unit * W;
  sftp_open_file : pystr -> W -> result Upload.bytes * W;
  sftp_file_stat_size : pystr -> W -> result Z * W;
  sftp_close_channel : W -> result unit * W;
  remote_clock : W -> datetime * W
}.
Arguments client_exec_command {W}.
Arguments client_open_sftp {W}.
Arguments sftp_open_file {W}.
Arguments sftp_file_stat_size {W}.
Arguments sftp_close_channel {W}.
Arguments remote_clock {W}.

(** [".".join(file.rsplit(".")[1:])]. *)
Definition extension_of (file : pystr) : pystr :=
  join (s ".") (tl (split_on "." file)).

Section Local.
Context {W : Type} (storage : StorageInterface W) (machine : LocalMachine W).

Definition now : M (St W call) datetime :=
  invoke datetime_now (fun w => let '(t, w') := clock machine w in (Ok t, w')).

(** [LocalDirectoryBackupInterface.archive]. *)
Definition archive (directory : DirectoryConfig) (src : pystr)
  : M (St W call) (pystr * pystr) :=
  file <- invoke (make_archive src) (shutil_make_archive machine src) ;;
  ret (file, extension_of file).

(** The body of the loop of [LocalDirectoryBackupInterface.backup]. *)
Definition backup_directory (directory : DirectoryConfig) : M (St W call) unit :=
  let '(src, dst, name) := (src directory, dest directory, name directory) in
  ae <- archive directory src ;;
  let '(archive, extension) := ae in
  t <- now ;;
  let dst_name := get_backup_name t name in
  let dst := path_join dst name in
  let dst_backup := path_join dst (dst_name ++ s "." ++ extension) in
  present <- invoke (on_storage (storage_exists dst)) (exists_ storage dst) ;;
  when (negb present)
       (invoke (on_storage (storage_create dst)) (create storage dst)) ;;;
  file_obj <- invoke (open_rb archive) (builtin_open machine archive) ;;
  try_finally
    (file_obj_size <- invoke (getsize archive) (os_path_getsize machine archive) ;;
     invoke (on_storage (storage_upload dst_backup file_obj_size))
            (upload storage file_obj file_obj_size dst_backup))
    (note (file_close archive)) ;;;
  invoke (os_remove archive) (os_remove_file machine archive) ;;;
  match retention_config directory with
  | Some config => retention storage on_storage dst config
  | None => ret tt
  end.

(** [LocalDirectoryBackupInterface.backup]. *)
Definition backup (directories : list DirectoryConfig) : M (St W call) unit :=
  for_each directories backup_directory.
End Local.

Section SSH.
Context {W : Type} (storage : StorageInterface W) (client : SSHClient W).

Definition ssh_now : M (St W call) datetime :=
  invoke datetime_now
         (fun w => let '(t, w') := remote_clock client w in (Ok t, w')).

(** [SSHDirectoryBackupInterface.archive]; the exit status of [tar] is
    not looked at. *)
Definition ssh_archive (directory : DirectoryConfig) (src : pystr)
  : M (St W call) (pystr * pystr) :=
  let src_tmp := s "/tmp/" ++ name directory ++ s ".tar.gz" in
  let src_tar_command_args :=
    join (s " ") (map (fun e => s "--exclude=" ++ e) (exclude directory)) in
  let src_tar_command :=
    s "tar -czf " ++ src_tmp ++ s " " ++ src_tar_command_args ++ s " " ++ src in
  _ <- invoke (exec_command src_tar_command)
              (client_exec_command client src_tar_command) ;;
  ret (src_tmp, extension_of src_tmp).

(** The body of the loop of [SSHDirectoryBackupInterface.backup]. *)
Definition ssh_backup_directory (directory : DirectoryConfig)
  : M (St W call) unit :=
  let '(src, dst, name) := (src directory, dest directory, name directory) in
  ae <- ssh_archive directory src ;;
  let '(archive, extension) := ae in
  t <- ssh_now ;;
  let dst_name := get_backup_name t name in
  let dst := path_join dst name in
  let dst_backup := path_join dst (dst_name ++ s "." ++ extension) in
  invoke open_sftp (client_open_sftp client) ;;;
  present <- invoke (on_storage (storage_exists dst)) (exists_ storage dst) ;;
  when (negb present)
       (invoke (on_storage (storage_create dst)) (create storage dst)) ;;;
  try_finally
    (remote_file <- invoke (sftp_file archive) (sftp_open_file client archive) ;;
     try_finally
       (remote_file_size <- invoke (sftp_stat archive)
                                   (sftp_file_stat_size client archive) ;;
        invoke (on_storage (storage_upload dst_backup remote_file_size))
               (upload storage remote_file remote_file_size dst_backup))
       (note (file_close archive)))
    (invoke sftp_close (sftp_close_channel client)) ;;;
  let src_tmp_rm_command := s "rm " ++ archive in
  _ <- invoke (exec_command src_tmp_rm_command)
              (client_exec_command client src_tmp_rm_command) ;;
  match retention_config directory with
  | Some config => retention storage on_storage dst config
  | None => ret tt
  end.

(** [SSHDirectoryBackupInterface.backup]. *)
Definition ssh_backup (directories : list DirectoryConfig)
  : M (St W call) unit :=
  for_each directories ssh_backup_directory.
End SSH.

(** Was [archive] removed according to the call log: by [os.remove] on
    the local machine, by an [rm] command over ssh? *)
Definition removal_attempted (archive : pystr) (l : list (call * outcome)) : bool :=
  existsb (fun c => match fst c with
                    | os_remove p => str_eqb p archive
                    | exec_command cmd => str_eqb cmd (s "rm " ++ archive)
                    | _ => false
                    end) l.

(** The outcome of the [upload] calls of a call log. *)
Definition uploads (l : list (call * outcome)) : list outcome :=
  flat_map (fun c => match fst c with
                     | on_storage (storage_upload _ _) => [snd c]
                     | _ => []
                     end) l.

End Directories.

(** ** Orchestration ([utils.get_class], [run.py], [app.py]) *)

Module Orchestrator.

(** [BackupInterfaceConfig]; [extra] stands for the fields of the
    subclasses. *)
Record BackupInterfaceConfig : Type := {
  interface : pystr;
  enabled : bool;
  extra : pystr
}.

(** [StorageInterfaceConfig]. *)
Record StorageInterfaceConfig : Type := {
  storage_interface : pystr;
  storage_extra : pystr
}.

(** [Config]. *)
Record Config : Type := {
  name : pystr;
  config_enabled : bool;
  storage : StorageInterfaceConfig;
  interfaces : list BackupInterfaceConfig
}.

(** The calls of a run that matter: construction of interfaces, their
    [validate] and [backup], and the log lines about skipped
    interfaces. *)
Inductive call : Type :=
| new_storage (config : StorageInterfaceConfig)
| new_interface (config : BackupInterfaceConfig)
| validate (config : BackupInterfaceConfig)
| backup (config : BackupInterfaceConfig)
| log_disabled_interface (config : BackupInterfaceConfig)
| log_error (config : BackupInterfaceConfig) (exc : exn)
| log_backup_disabled (name : pystr).

Section Run.
(** [W] is the outside world, [SI] the storage instance. *)
Context {W SI : Type}.

(** An instance of a backup interface: its two methods. *)
Record Instance : Type := {
  instance_validate : W -> result unit * W;
  instance_backup : W -> result unit * W
}.

(** What a module attribute does when called as [cls(config=...)] and
    as [cls(config=..., storage=...)]. *)
Record PyClass : Type := {
  construct_storage : StorageInterfaceConfig -> W -> result SI * W;
  construct_interface : BackupInterfaceConfig -> SI -> W -> result Instance * W
}.

(** A module: its attributes. *)
Definition PyModule : Type := pystr -> option PyClass.

(** [importlib.import_module] and [settings.BACKUP_GRACEFUL_ERRORS]. *)
Context (import_module : pystr -> result PyModule)
        (BACKUP_GRACEFUL_ERRORS : bool).

(** [get_class(cls)], with the default separator. *)
Definition get_class (cls : pystr) : result PyClass :=
  match rsplit1 "." cls with
  | [module_path; class_name] =>
      match import_module module_path with
      | Raise (ImportError _) | Raise (AttributeError _) =>
          Raise (ImportError (s "unable to import module '" ++ module_path ++ s "'"))
      | Raise e => Raise e
      | Ok module =>
          match module class_name with
          | None =>
              Raise (ImportError (s "class '" ++ class_name
                                    ++ s "' not found in module '"
                                    ++ module_path ++ s "'"))
          | Some c => Ok c
          end
      end
  | _ => Raise (ValueError (s "not enough values to unpack (expected 2, got 1)"))
  end.

Definition RunState : Type := St W call.

(** The first loop of [run_backup]: keep the enabled configurations. *)
Fixpoint select_enabled (interfaces : list BackupInterfaceConfig)
  : M RunState (list BackupInterfaceConfig) :=
  match interfaces with
  | [] => ret []
  | interface :: rest =>
      (if enabled interface then ret tt
       else note (log_disabled_interface interface)) ;;;
      configs <- select_enabled rest ;;
      ret (if enabled interface then interface :: configs else configs)
  end.

(** The second loop: resolve and construct. *)
Fixpoint make_instances (storage_instance : SI)
         (configs : list BackupInterfaceConfig)
  : M RunState (list (BackupInterfaceConfig * Instance)) :=
  match configs with
  | [] => ret []
  | config :: rest =>
      cls <- lift (get_class (interface config)) ;;
      instance <- invoke (new_interface config)
                         (construct_interface cls config storage_instance) ;;
      instances <- make_instances storage_instance rest ;;
      ret ((config, instance) :: instances)
  end.

(** The body of the third loop, for one instance. *)
Definition run_instance (ci : BackupInterfaceConfig * Instance)
  : M RunState unit :=
  let '(config, instance) := ci in
  try_except
    (invoke (validate config) (instance_validate instance) ;;;
     invoke (backup config) (instance_backup instance))
    (fun exc =>
       if BACKUP_GRACEFUL_ERRORS
       then note (log_error config exc)
       else raise exc).

(** The third loop. *)
Definition run_instances (instances : list (BackupInterfaceConfig * Instance))
  : M RunState unit :=
  for_each instances run_instance.

(** [run_backup(config)]. *)
Definition run_backup (config : Config) : M RunState unit :=
  storage_cls <- lift (get_class (storage_interface (storage config))) ;;
  storage_instance <- invoke (new_storage (storage config))
                             (construct_storage storage_cls (storage config)) ;;
  configs <- select_enabled (interfaces config) ;;
  instances <- make_instances storage_instance configs ;;
  run_instances instances.

(** [run_backups()], on the configuration [load_config] returned. *)
Definition run_backups (config : Config) : M RunState unit :=
  if negb (config_enabled config)
  then note (log_backup_disabled (name config))
  else run_backup config.
End Run.

Arguments Instance : clear implicits.
Arguments PyClass : clear implicits.
Arguments PyModule : clear implicits.

(** The configuration a call of a run is about, for the calls that
    construct, validate or run a backup interface. *)
Definition subject (c : call) : option BackupInterfaceConfig :=
  match c with
  | new_interface config | validate config | backup config => Some config
  | _ => None
  end.

Definition is_validate_or_backup (c : call) : bool :=
  match c with
  | validate _ | backup _ => true
  | _ => false
  end.

Definition is_skip_note (c : call) : bool :=
  match c with
  | log_disabled_interface _ => true
  | _ => false
  end.

(** Readings of a call log: the configurations validated, those whose
    validation returned, those backed up, the exceptions raised by
    [validate] or [backup], and the errors logged. *)
Definition validated (l : list (call * outcome)) : list BackupInterfaceConfig :=
  flat_map (fun e => match fst e with validate c => [c] | _ => [] end) l.

Definition validated_ok (l : list (call * outcome)) : list BackupInterfaceConfig :=
  flat_map (fun e => match e with
                     | (validate c, Returned) => [c]
                     | _ => []
                     end) l.

Definition backed_up (l : list (call * outcome)) : list BackupInterfaceConfig :=
  flat_map (fun e => match fst e with backup c => [c] | _ => [] end) l.

Definition raised (l : list (call * outcome))
  : list (BackupInterfaceConfig * exn) :=
  flat_map (fun e => match e with
                     | (validate c, Raised x) | (backup c, Raised x) => [(c, x)]
                     | _ => []
                     end) l.

Definition errors_logged (l : list (call * outcome))
  : list (BackupInterfaceConfig * exn) :=
  flat_map (fun e => match fst e with log_error c x => [(c, x)] | _ => [] end) l.

(** [config] with other backup interfaces. *)
Definition with_interfaces (config : Config)
           (interfaces : list BackupInterfaceConfig) : Config :=
  {| name := name config;
     config_enabled := config_enabled config;
     storage := storage config;
     interfaces := interfaces |}.

End Orchestrator.

(* ===================================================================== *)
(** * Part II. Properties                                                 *)
(* ===================================================================== *)

(** ** The chunk plan *)

Module ChunkPlan.
Import Upload.

(** [ceil(a / b)] for [b > 0]. *)
Definition ceil_div (a b : Z) : Z := (a + b - 1) / b.

Definition sum (l : list Z) : Z := fold_right Z.add 0 l.

(** The partition the specification describes, chunk count included:
    [ceil(S / C)] chunks but never fewer than one. *)
Definition partition_with_minimum_one (S C : Z) : Prop :=
  exists plan,
    chunk_plan S C = Ok plan /\
    Z.of_nat (length plan) = Z.max 1 (ceil_div S C) /\
    sum (map snd plan) = S /\
    snd (last plan (0, 0)) = S - C * (Z.of_nat (length plan) - 1).

Lemma ceil_div_bounds a b :
  0 < b -> b * (ceil_div a b - 1) < a <= b * ceil_div a b.
Proof.
  intros Hb. unfold ceil_div.
  pose proof (Z.div_mod (a + b - 1) b ltac:(lia)) as E.
  pose proof (Z.mod_pos_bound (a + b - 1) b Hb) as M.
  lia.
Qed.

Lemma ceil_div_nonpos a b : 0 < b -> a <= 0 -> ceil_div a b <= 0.
Proof.
  intros Hb Ha. pose proof (ceil_div_bounds a b Hb). nia.
Qed.

Lemma ceil_div_step a b : 0 < b -> ceil_div a b = 1 + ceil_div (a - b) b.
Proof.
  intros Hb. unfold ceil_div.
  replace (a + b - 1) with ((a - b + b - 1) + 1 * b) by lia.
  rewrite Z.div_add by lia. lia.
Qed.

(** The loop of [range] yields [cur], [cur + step], ... while below
    [stop], provided the fuel does not run out first. *)
Lemma range_up_closed fuel : forall cur stop step,
  0 < step ->
  ceil_div (stop - cur) step <= Z.of_nat fuel ->
  range_up fuel cur stop step
  = map (fun k => cur + Z.of_nat k * step)
        (seq 0 (Z.to_nat (ceil_div (stop - cur) step))).
Proof.
  induction fuel as [|fuel IH]; intros cur stop step Hs Hf.
  - simpl. replace (Z.to_nat _) with 0%nat by lia. reflexivity.
  - simpl. destruct (cur <? stop) eqn:E.
    + apply Z.ltb_lt in E.
      rewrite (ceil_div_step (stop - cur) step Hs) in *.
      pose proof (ceil_div_bounds (stop - cur - step) step Hs) as Bd.
      assert (0 <= ceil_div (stop - cur - step) step) by nia.
      replace (Z.to_nat (1 + ceil_div (stop - cur - step) step))
        with (S (Z.to_nat (ceil_div (stop - cur - step) step))) by lia.
      simpl. f_equal; [lia|].
      rewrite <- seq_shift, map_map.
      replace (stop - cur - step) with (stop - (cur + step)) in * by lia.
      rewrite IH by lia.
      apply map_ext. intros k. lia.
    + apply Z.ltb_ge in E.
      pose proof (ceil_div_nonpos (stop - cur) step Hs ltac:(lia)).
      replace (Z.to_nat _) with 0%nat by lia. reflexivity.
Qed.

Lemma range_closed stop step :
  0 <= stop -> 0 < step ->
  range 0 stop step
  = Ok (map (fun k => Z.of_nat k * step)
            (seq 0 (Z.to_nat (ceil_div stop step)))).
Proof.
  intros H0 Hs. unfold range.
  destruct (step =? 0) eqn:E0; [lia|].
  destruct (0 <? step) eqn:E1; [|lia].
  rewrite range_up_closed; trivial.
  - rewrite Z.sub_0_r. reflexivity.
  - rewrite Z.sub_0_r.
    pose proof (ceil_div_bounds stop step Hs).
    pose proof (Z.div_mod stop step ltac:(lia)).
    pose proof (Z.mod_pos_bound stop step Hs).
    assert (0 <= stop / step) by (apply Z.div_pos; lia).
    rewrite Z2Nat.id by lia. nia.
Qed.

(** The closed form of the plan: chunk [k] starts at [k * C]. *)
Lemma chunk_plan_closed S C :
  0 <= S -> 0 < C ->
  chunk_plan S C
  = Ok (map (fun k => (Z.of_nat k * C, Z.min C (S - Z.of_nat k * C)))
            (seq 0 (Z.to_nat (ceil_div S C)))).
Proof.
  intros HS HC. unfold chunk_plan. rewrite range_closed by assumption.
  rewrite map_map. reflexivity.
Qed.

Lemma sum_lengths C S n : forall m,
  0 < C ->
  Z.of_nat (m + n) * C < S + C ->
  sum (map (fun k => Z.min C (S - Z.of_nat k * C)) (seq m n))
  = Z.max 0 (Z.min (Z.of_nat n * C) (S - Z.of_nat m * C)).
Proof.
  induction n as [|n IH]; intros m HC Hn.
  - simpl. lia.
  - cbn [seq map sum fold_right].
    change (fold_right Z.add 0 ?l) with (sum l).
    rewrite IH by (trivial; lia).
    assert (Z.of_nat n = 0 \/ C <= Z.of_nat n * C) as [E|E] by nia.
    + rewrite E. nia.
    + nia.
Qed.

Lemma ceil_div_nonneg a b : 0 <= a -> 0 < b -> 0 <= ceil_div a b.
Proof.
  intros Ha Hb. pose proof (ceil_div_bounds a b Hb). nia.
Qed.

(** C2, as the code has it.  For a file size [S >= 0] and a chunk size
    [C > 0] the loop of [upload] yields [ceil(S / C)] chunks (none at all
    for an empty file), chunk [k] being [(k * C, min(C, S - k * C))]; the
    lengths add up to [S]; and for [S > 0] the last chunk has length
    [S - C * (count - 1)]. *)
Theorem chunk_plan_partition S C :
  0 <= S -> 0 < C ->
  exists plan,
    chunk_plan S C = Ok plan /\
    Z.of_nat (length plan) = ceil_div S C /\
    (forall k, (k < length plan)%nat ->
       nth_error plan k
       = Some (Z.of_nat k * C, Z.min C (S - Z.of_nat k * C))) /\
    sum (map snd plan) = S /\
    (0 < S ->
       snd (last plan (0, 0)) = S - C * (Z.of_nat (length plan) - 1)) /\
    (S = 0 -> plan = []).
Proof.
  intros HS HC.
  pose proof (ceil_div_bounds S C HC) as Bd.
  pose proof (ceil_div_nonneg S C HS HC) as Nn.
  rewrite chunk_plan_closed by assumption.
  eexists. split; [reflexivity|].
  rewrite length_map, length_seq, Z2Nat.id by assumption.
  repeat split.
  - intros k Hk.
    rewrite nth_error_map, nth_error_seq.
    destruct (Nat.ltb_spec k (Z.to_nat (ceil_div S C))); [reflexivity|lia].
  - rewrite map_map. cbn [snd].
    rewrite sum_lengths by (trivial; lia).
    rewrite Z2Nat.id by assumption. lia.
  - intros Hpos.
    assert (1 <= ceil_div S C) as H1 by nia.
    replace (Z.to_nat (ceil_div S C))
      with (Datatypes.S (Z.to_nat (ceil_div S C - 1))) by lia.
    rewrite seq_S, map_app. cbn [map]. rewrite last_last. cbn [snd].
    rewrite Nat.add_0_l, Z2Nat.id by lia. nia.
  - intros ->. replace (ceil_div 0 C) with 0 by nia. reflexivity.
Qed.

Lemma chunk_plan_partition_witness :
  0 <= 100 /\ 0 < 25 /\
  exists plan,
    chunk_plan 100 25 = Ok plan /\
    Z.of_nat (length plan) = ceil_div 100 25 /\
    (forall k, (k < length plan)%nat ->
       nth_error plan k
       = Some (Z.of_nat k * 25, Z.min 25 (100 - Z.of_nat k * 25))) /\
    sum (map snd plan) = 100 /\
    (0 < 100 ->
       snd (last plan (0, 0)) = 100 - 25 * (Z.of_nat (length plan) - 1)) /\
    (100 = 0 -> plan = []).
Proof.
  split; [lia|]. split; [lia|].
  apply (chunk_plan_partition 100 25); lia.
Defined.

(** An empty file gets no chunk at all, where the specification asks
    for one. *)
Lemma empty_file_has_no_chunk : ~ partition_with_minimum_one 0 25.
Proof.
  intros (plan & Hplan & Hcount & _).
  vm_compute in Hplan. injection Hplan as <-.
  vm_compute in Hcount. discriminate.
Qed.

End ChunkPlan.

(** ** Strings: order and decimal numerals *)

Module StrFacts.

Lemma code_inj x y : code x = code y -> x = y.
Proof.
  unfold code. intros E.
  rewrite <- (ascii_N_embedding x), <- (ascii_N_embedding y), E. reflexivity.
Qed.

Lemma str_compare_refl a : str_compare a a = Eq.
Proof.
  induction a as [|x a IH]; simpl; [reflexivity|].
  rewrite N.compare_refl. exact IH.
Qed.

Lemma str_compare_eq a : forall b, str_compare a b = Eq -> a = b.
Proof.
  induction a as [|x a IH]; intros [|y b]; simpl; try discriminate; trivial.
  destruct (N.compare_spec (code x) (code y)) as [E| |]; try discriminate.
  intros H. apply code_inj in E. f_equal; auto.
Qed.

Lemma str_compare_antisym a : forall b,
  str_compare b a = CompOpp (str_compare a b).
Proof.
  induction a as [|x a IH]; intros [|y b]; simpl; trivial.
  rewrite (N.compare_antisym (code x) (code y)).
  destruct (code x ?= code y)%N; simpl; auto.
Qed.

Lemma str_compare_lt_trans a : forall b c,
  str_compare a b = Lt -> str_compare b c = Lt -> str_compare a c = Lt.
Proof.
  induction a as [|x a IH]; intros [|y b] [|z c]; simpl; try discriminate; trivial.
  destruct (N.compare_spec (code x) (code y)) as [E|L|G]; try discriminate;
    destruct (N.compare_spec (code y) (code z)) as [E'|L'|G']; try discriminate;
    intros H1 H2.
  - rewrite E, E', N.compare_refl. eauto.
  - rewrite E. apply N.compare_lt_iff in L'. rewrite L'. reflexivity.
  - rewrite <- E'. apply N.compare_lt_iff in L. rewrite L. reflexivity.
  - assert (code x < code z)%N as L2 by lia.
    apply N.compare_lt_iff in L2. rewrite L2. reflexivity.
Qed.

(** Strings that start with parts of the same length are ordered by
    those parts, and by what follows when the parts are equal. *)
Lemma str_compare_app a : forall b c d,
  length a = length b ->
  str_compare (a ++ c) (b ++ d)
  = match str_compare a b with Eq => str_compare c d | r => r end.
Proof.
  induction a as [|x a IH]; intros [|y b] c d; simpl; try discriminate; trivial.
  intros [= E]. destruct (code x ?= code y)%N; auto.
Qed.

Lemma str_compare_common_prefix p a b :
  str_compare (p ++ a) (p ++ b) = str_compare a b.
Proof.
  rewrite str_compare_app by reflexivity. now rewrite str_compare_refl.
Qed.

Lemma str_leb_refl a : str_leb a a = true.
Proof. unfold str_leb. now rewrite str_compare_refl. Qed.

Lemma str_leb_total a b : str_leb a b = false -> str_leb b a = true.
Proof.
  unfold str_leb. rewrite (str_compare_antisym a b).
  destruct (str_compare a b); simpl; congruence.
Qed.

Lemma str_leb_trans a b c :
  str_leb a b = true -> str_leb b c = true -> str_leb a c = true.
Proof.
  unfold str_leb.
  destruct (str_compare a b) eqn:E1; try discriminate;
    destruct (str_compare b c) eqn:E2; try discriminate; intros _ _.
  - apply str_compare_eq in E1, E2. subst. now rewrite str_compare_refl.
  - apply str_compare_eq in E1. subst. now rewrite E2.
  - apply str_compare_eq in E2. subst. now rewrite E1.
  - now rewrite (str_compare_lt_trans a b c E1 E2).
Qed.

Lemma str_leb_antisym a b :
  str_leb a b = true -> str_leb b a = true -> a = b.
Proof.
  unfold str_leb. rewrite (str_compare_antisym a b).
  destruct (str_compare a b) eqn:E; simpl; try discriminate.
  intros _ _. now apply str_compare_eq.
Qed.

Lemma str_lt_not_leb a b : str_lt a b -> str_leb b a = false.
Proof.
  unfold str_lt, str_leb. intros H.
  rewrite (str_compare_antisym a b), H. reflexivity.
Qed.

(** *** Fixed-width decimal numerals *)

(** The [w] lowest decimal digits of [n], most significant first. *)
Fixpoint fixed (w : nat) (n : Z) : pystr :=
  match w with
  | O => []
  | S w' => fixed w' (n / 10) ++ [digit_char (n mod 10)]
  end.

Lemma length_fixed w : forall n, length (fixed w n) = w.
Proof.
  induction w as [|w IH]; intros n; simpl; [reflexivity|].
  rewrite length_app, IH. simpl. lia.
Qed.

Lemma digit_cases n : 
  let d := n mod 10 in
  d = 0 \/ d = 1 \/ d = 2 \/ d = 3 \/ d = 4 \/ d = 5 \/ d = 6 \/ d = 7
  \/ d = 8 \/ d = 9.
Proof.
  intros d. pose proof (Z.mod_pos_bound n 10 ltac:(lia)). subst d. lia.
Qed.

Lemma code_digit n : code (digit_char (n mod 10)) = (48 + Z.to_N (n mod 10))%N.
Proof.
  destruct (digit_cases n) as [E|[E|[E|[E|[E|[E|[E|[E|[E|E]]]]]]]]];
    rewrite E; reflexivity.
Qed.

Lemma digit_not_sign n :
  Ascii.eqb (digit_char (n mod 10)) "+" || Ascii.eqb (digit_char (n mod 10)) "-"
  = false.
Proof.
  destruct (digit_cases n) as [E|[E|[E|[E|[E|[E|[E|[E|[E|E]]]]]]]]];
    rewrite E; reflexivity.
Qed.

Lemma lower_digit n : lower_char (digit_char (n mod 10)) = digit_char (n mod 10).
Proof.
  destruct (digit_cases n) as [E|[E|[E|[E|[E|[E|[E|[E|[E|E]]]]]]]]];
    rewrite E; reflexivity.
Qed.

Lemma lower_fixed w : forall n, lower (fixed w n) = fixed w n.
Proof.
  induction w as [|w IH]; intros n; simpl; [reflexivity|].
  unfold lower in *. rewrite map_app, IH. simpl. now rewrite lower_digit.
Qed.

Lemma pow10_pos (k : nat) : 0 < 10 ^ Z.of_nat k.
Proof. apply Z.pow_pos_nonneg; lia. Qed.

Lemma pow10_succ (k : nat) : 10 ^ Z.of_nat (S k) = 10 * 10 ^ Z.of_nat k.
Proof. rewrite Nat2Z.inj_succ, Z.pow_succ_r; lia. Qed.

Lemma div10_bound n (k : nat) :
  0 <= n < 10 ^ Z.of_nat (S k) -> 0 <= n / 10 < 10 ^ Z.of_nat k.
Proof.
  rewrite pow10_succ. intros H. split.
  - apply Z.div_pos; lia.
  - apply Z.div_lt_upper_bound; lia.
Qed.

(** The loop of [str(n)] writes the digits of [n] without leading
    zeros: a numeral [fixed k n] with [k >= 1] as small as can be. *)
Lemma digits_fixed fuel : forall n acc,
  (1 <= fuel)%nat ->
  0 <= n < 10 ^ Z.of_nat fuel ->
  exists k, (1 <= k <= fuel)%nat /\
            (k = 1%nat \/ 10 ^ Z.of_nat k <= 10 * n) /\
            n < 10 ^ Z.of_nat k /\
            digits fuel n acc = fixed k n ++ acc.
Proof.
  induction fuel as [|fuel IH]; intros n acc Hf Hn; [lia|].
  pose proof (Z.div_mod n 10 ltac:(lia)) as Hdm.
  pose proof (Z.mod_pos_bound n 10 ltac:(lia)) as Hm.
  cbn [digits]. destruct (n / 10 =? 0) eqn:E.
  - apply Z.eqb_eq in E. exists 1%nat.
    repeat split; try lia; reflexivity.
  - apply Z.eqb_neq in E.
    pose proof (div10_bound n fuel Hn) as Hd.
    assert (1 <= fuel)%nat as Hf'.
    { destruct fuel; [simpl in Hd; lia|lia]. }
    destruct (IH (n / 10) (digit_char (n mod 10) :: acc) Hf' Hd)
      as (k & Hk & Hmin & Hlt & ->).
    exists (S k). rewrite pow10_succ. repeat split; try lia.
    + right. destruct Hmin as [->|Hmin]; [change (10 ^ Z.of_nat 1) with 10|]; lia.
    + simpl. now rewrite <- app_assoc.
Qed.

Lemma log2_fuel n : 0 <= n -> n < 10 ^ Z.of_nat (S (Z.to_nat (Z.log2 n))).
Proof.
  intros Hn.
  destruct (Z.eq_dec n 0) as [->|Hz]; [reflexivity|].
  pose proof (Z.log2_nonneg n).
  rewrite Nat2Z.inj_succ, Z2Nat.id by lia.
  pose proof (Z.log2_spec n ltac:(lia)) as [_ Hup].
  eapply Z.lt_le_trans; [exact Hup|].
  apply Z.pow_le_mono_l. lia.
Qed.

Lemma fixed_lead_zero k : forall n,
  0 <= n < 10 ^ Z.of_nat k -> fixed (S k) n = "0"%char :: fixed k n.
Proof.
  induction k as [|k IH]; intros n Hn.
  - simpl in Hn. assert (n = 0) as -> by lia. reflexivity.
  - change (fixed (S (S k)) n)
      with (fixed (S k) (n / 10) ++ [digit_char (n mod 10)]).
    rewrite IH by (apply div10_bound; exact Hn). reflexivity.
Qed.

Lemma fixed_pad j : forall k n,
  0 <= n < 10 ^ Z.of_nat k ->
  repeat "0"%char j ++ fixed k n = fixed (j + k) n.
Proof.
  induction j as [|j IH]; intros k n Hn; [reflexivity|].
  simpl repeat. rewrite <- app_comm_cons, IH by assumption.
  symmetry. apply (fixed_lead_zero (j + k)).
  split; [lia|]. eapply Z.lt_le_trans; [apply Hn|].
  apply Z.pow_le_mono_r; lia.
Qed.

Lemma fixed_head_not_sign k n c rest :
  fixed k n = c :: rest -> Ascii.eqb c "+" || Ascii.eqb c "-" = false.
Proof.
  revert n c rest. induction k as [|k IH]; intros n c rest; simpl; [discriminate|].
  destruct (fixed k (n / 10)) as [|c' rest'] eqn:E; simpl.
  - intros [= <- _]. apply digit_not_sign.
  - intros [= <- _]. eapply IH. exact E.
Qed.

(** [str(n).zfill(w)] is the [w]-digit numeral of [n] when [n] has at
    most [w] digits. *)
Lemma zfill_str w n :
  (1 <= w)%nat -> 0 <= n < 10 ^ Z.of_nat w ->
  zfill w (str_of_int n) = fixed w n.
Proof.
  intros Hw Hn. unfold str_of_int.
  destruct (n <? 0) eqn:E; [lia|].
  destruct (digits_fixed (S (Z.to_nat (Z.log2 n))) n [] ltac:(lia)
                         (conj (proj1 Hn) (log2_fuel n (proj1 Hn))))
    as (k & Hk & Hmin & Hlt & ->).
  rewrite app_nil_r.
  assert (k <= w)%nat as Hkw.
  { destruct Hmin as [->|Hmin]; [exact Hw|].
    assert (10 ^ Z.of_nat k < 10 ^ Z.of_nat (S w)) as Hp
        by (rewrite pow10_succ; lia).
    apply Z.pow_lt_mono_r_iff in Hp; lia. }
  unfold zfill. rewrite length_fixed.
  destruct (fixed k n) as [|c rest] eqn:Ef.
  - apply (f_equal (@length _)) in Ef. rewrite length_fixed in Ef.
    simpl in Ef. lia.
  - rewrite (fixed_head_not_sign k n c rest Ef), <- Ef.
    rewrite fixed_pad by lia. f_equal. lia.
Qed.

(** Numerals of one width are ordered as the numbers they denote. *)
Lemma str_compare_fixed w : forall a b,
  0 <= a < 10 ^ Z.of_nat w -> 0 <= b < 10 ^ Z.of_nat w ->
  str_compare (fixed w a) (fixed w b) = (a ?= b).
Proof.
  induction w as [|w IH]; intros a b Ha Hb.
  - simpl in *. assert (a = 0) as -> by lia. assert (b = 0) as -> by lia.
    reflexivity.
  - simpl fixed. rewrite str_compare_app by now rewrite !length_fixed.
    rewrite IH by (apply div10_bound; assumption).
    pose proof (Z.div_mod a 10 ltac:(lia)) as Hda.
    pose proof (Z.div_mod b 10 ltac:(lia)) as Hdb.
    pose proof (Z.mod_pos_bound a 10 ltac:(lia)) as Hma.
    pose proof (Z.mod_pos_bound b 10 ltac:(lia)) as Hmb.
    destruct (Z.compare_spec (a / 10) (b / 10)) as [Eq|Lt|Gt].
    + simpl. rewrite !code_digit.
      destruct (N.compare_spec (48 + Z.to_N (a mod 10)) (48 + Z.to_N (b mod 10)));
        symmetry.
      * apply Z.compare_eq_iff. lia.
      * apply Z.compare_lt_iff. lia.
      * apply Z.compare_gt_iff. lia.
    + symmetry. apply Z.compare_lt_iff. lia.
    + symmetry. apply Z.compare_gt_iff. lia.
Qed.

End StrFacts.

(** ** The upload: what is staged and what is committed *)

Module UploadFacts.
Import Upload ChunkPlan StrFacts.

Lemma committed_app l1 l2 : committed (l1 ++ l2) = committed l1 ++ committed l2.
Proof. apply flat_map_app. Qed.

Lemma staged_app l1 l2 : staged (l1 ++ l2) = staged l1 ++ staged l2.
Proof. apply flat_map_app. Qed.

Lemma length_remove_nth {A} (l : list A) : forall k,
  (k < length l)%nat -> length (remove_nth k l) = pred (length l).
Proof.
  induction l as [|x l IH]; intros [|k] Hk; simpl in *; try lia.
  rewrite IH by lia. lia.
Qed.

Lemma remove_nth_map {A B} (f : A -> B) (l : list A) : forall k,
  remove_nth k (map f l) = map f (remove_nth k l).
Proof.
  induction l as [|x l IH]; intros [|k]; simpl; trivial. now rewrite IH.
Qed.

Lemma remove_nth_perm {A} (l : list A) : forall k x,
  nth_error l k = Some x -> Permutation l (x :: remove_nth k l).
Proof.
  induction l as [|y l IH]; intros [|k] x; simpl; try discriminate.
  - intros [= ->]. reflexivity.
  - intros H. rewrite perm_swap. constructor. now apply IH.
Qed.

Section Run.
Context {B : Type} (service : BlobService B) (settings : Settings).
Context (file : bytes) (progress : bool).

(** The task submitted for a chunk of the plan. *)
Definition task (c : Z * Z) : M (St B call) unit :=
  upload_chunk service file (fst c) (snd c) (chunk_id (fst c)) progress.

(** A worker logs one [stage_block] call, for its own chunk, and no
    commit. *)
Lemma task_log c st :
  exists l, log (snd (task c st)) = log st ++ l /\
            committed l = [] /\
            map fst (staged l) = [chunk_id (fst c)].
Proof.
  unfold task, upload_chunk, bind, invoke, when, note, invoke, ret.
  destruct (service_stage_block service _ _ (world st)) as [[[]|e] b];
    [destruct progress|]; simpl; eexists;
    (split; [try rewrite <- app_assoc; reflexivity|split; reflexivity]).
Qed.

(** Whatever the order of completion, the pool runs every pending task,
    once. *)
Lemma run_pool_log n : forall cs choices st,
  length cs = n ->
  exists l,
    log (snd (run_pool n choices (map task cs) st)) = log st ++ l /\
    committed l = [] /\
    Permutation (map fst (staged l)) (map (fun c => chunk_id (fst c)) cs).
Proof.
  induction n as [|n IH]; intros cs choices st Hn.
  - destruct cs; [|discriminate]. exists []. simpl.
    rewrite app_nil_r. auto.
  - cbn [run_pool]. rewrite length_map.
    set (k := Nat.modulo (hd 0%nat choices) (length cs)).
    assert (k < length cs)%nat as Hk
        by (apply Nat.mod_upper_bound; lia).
    destruct (nth_error cs k) as [c|] eqn:Ec;
      [|apply nth_error_None in Ec; lia].
    rewrite nth_error_map, Ec. cbn [option_map].
    destruct (task_log c st) as (l1 & Hl1 & Hc1 & Hs1).
    destruct (task c st) as [r st1]. cbn [snd] in Hl1.
    rewrite remove_nth_map.
    destruct (IH (remove_nth k cs) (tl choices) st1) as (l2 & Hl2 & Hc2 & Hs2).
    { rewrite length_remove_nth by exact Hk. lia. }
    destruct (run_pool n (tl choices) (map task (remove_nth k cs)) st1)
      as [rs st2]. cbn [snd] in *.
    exists (l1 ++ l2). repeat split.
    + rewrite Hl2, Hl1. now rewrite app_assoc.
    + rewrite committed_app, Hc1, Hc2. reflexivity.
    + rewrite staged_app, map_app, Hs1. cbn [app].
      rewrite (remove_nth_perm cs k c Ec). cbn [map]. now constructor.
Qed.

(** A run of [upload] with a positive chunk size and worker count: after
    [get_blob_client], every chunk of the plan is staged once, in some
    order; then [commit_block_list] is called, once, with the identifiers
    of all chunks in plan order; and [upload] ends as that call ends. *)
Lemma upload_run choices S dst st :
  0 <= S ->
  0 < BACKUP_UPLOAD_CHUNK_SIZE settings ->
  0 < BACKUP_UPLOAD_CONCURRENCY settings ->
  exists plan l,
    chunk_plan S (BACKUP_UPLOAD_CHUNK_SIZE settings) = Ok plan /\
    let ids := map (fun c => chunk_id (fst c)) plan in
    let '(r, st') := upload service settings choices file S dst progress st in
    log st' = log st ++ (get_blob_client dst, Returned) :: l
                     ++ [(commit_block_list ids, outcome_of r)] /\
    committed l = [] /\
    Permutation (map fst (staged l)) ids.
Proof.
  intros HS HC HW.
  destruct (chunk_plan_partition S _ HS HC) as (plan & Hplan & _).
  unfold upload, bind at 1 2 3. unfold note at 1, invoke at 1. cbn [world log].
  unfold check_workers. destruct (_ <=? 0) eqn:E; [lia|]. unfold ret at 1.
  rewrite Hplan. unfold lift at 1. unfold bind at 1, executor_run.
  rewrite length_map.
  match goal with
  | |- context [run_pool _ _ _ ?s] =>
      destruct (run_pool_log (length plan) plan choices s eq_refl)
        as (l & Hl & Hc & Hs)
  end.
  fold task in *.
  destruct (run_pool _ _ _ _) as [rs st2]. cbn [snd log] in Hl.
  exists plan, l. split; [reflexivity|]. cbn zeta.
  unfold invoke.
  destruct (service_commit_block_list service _ (world st2)) as [r b].
  cbn [log]. rewrite Hl, <- !app_assoc. cbn [app]. auto.
Qed.

End Run.

(** *** Identifiers *)

Lemma chunk_id_fixed n : 0 <= n < 10 ^ 16 -> chunk_id n = fixed 16 n.
Proof. intros H. apply (zfill_str 16 n); [lia|exact H]. Qed.

Lemma chunk_id_compare a b :
  0 <= a < 10 ^ 16 -> 0 <= b < 10 ^ 16 ->
  str_compare (chunk_id a) (chunk_id b) = (a ?= b).
Proof.
  intros Ha Hb. rewrite !chunk_id_fixed by assumption.
  now apply (str_compare_fixed 16).
Qed.

Lemma sorted_map_seq {A} (R : A -> A -> Prop) (f : nat -> A) n : forall m,
  (forall i j, (m <= i < j)%nat -> (j < m + n)%nat -> R (f i) (f j)) ->
  StronglySorted R (map f (seq m n)).
Proof.
  induction n as [|n IH]; intros m H; simpl; constructor.
  - apply IH. intros i j Hij Hj. apply H; lia.
  - apply Forall_forall. intros x Hx.
    apply in_map_iff in Hx as (j & <- & Hj). apply in_seq in Hj.
    apply H; lia.
Qed.

(** The offsets of a plan: multiples of the chunk size below the file
    size, in ascending order. *)
Lemma plan_offsets S C plan :
  0 <= S -> 0 < C -> chunk_plan S C = Ok plan ->
  StronglySorted Z.lt (map fst plan) /\
  (forall a, In a (map fst plan) -> 0 <= a < S) /\
  (forall R : pystr -> pystr -> Prop,
     (forall a b, 0 <= a < b -> b < S -> R (chunk_id a) (chunk_id b)) ->
     StronglySorted R (map (fun c => chunk_id (fst c)) plan)).
Proof.
  intros HS HC. rewrite chunk_plan_closed by assumption. intros [= <-].
  pose proof (ceil_div_bounds S C HC) as Bd.
  pose proof (ceil_div_nonneg S C HS HC) as Nn.
  rewrite !map_map. cbn [fst]. repeat split.
  - apply sorted_map_seq. intros i j Hij _. nia.
  - apply in_map_iff in H as (k & <- & Hk). nia.
  - apply in_map_iff in H as (k & <- & Hk). apply in_seq in Hk. nia.
  - intros R HR. apply sorted_map_seq. intros i j Hij Hj. apply HR; nia.
Qed.

(** *** The commit and the failures of staging *)

(** What the specification asks of a run in which staging fails: no
    commit, and the exception comes out of [upload]. *)
Definition commit_skipped_when_staging_fails {B} (service : BlobService B)
  (settings : Settings) (choices : list nat) (file : bytes) (S : Z)
  (dst : pystr) (progress : bool) (b : B) : Prop :=
  let '(r, st') :=
    upload service settings choices file S dst progress (start b) in
  (exists id e, In (id, Raised e) (staged (log st'))) ->
  committed (log st') = [] /\ is_ok r = false.

(** A blob service on which every [stage_block] fails. *)
Definition unreachable_service : BlobService unit :=
  {| service_stage_block :=
       fun _ _ b => (Raise (OtherError (s "ServiceRequestError")), b);
     service_commit_block_list := fun _ b => (Ok tt, b) |}.

(** The settings of the test-suite: chunks of 25 bytes, 2 workers. *)
Definition test_settings : Settings :=
  {| BACKUP_UPLOAD_CHUNK_SIZE := 25; BACKUP_UPLOAD_CONCURRENCY := 2 |}.

(** All four chunks of a 100-byte file fail to stage, and the commit is
    made all the same. *)
Lemma commit_attempted_after_failed_staging :
  ~ commit_skipped_when_staging_fails unreachable_service test_settings []
      (repeat Byte.x00 100) 100 (s "backup.tar.gz") false tt.
Proof.
  unfold commit_skipped_when_staging_fails. vm_compute.
  intros H. destruct H as [H _]; [|discriminate H].
  eexists _, _. left. reflexivity.
Qed.

(** C1, as the code has it.  The futures that [submit] returns are
    dropped, so an exception of a worker stays in its future: whatever
    [stage_block] does, and in whatever order the workers complete,
    [upload] stages every chunk of the plan once and then calls
    [commit_block_list] exactly once, as its last call and with the
    identifiers of all chunks of the plan (never with a part of them);
    [upload] returns or raises as that call does. *)
Theorem commit_follows_staging {B} (service : BlobService B)
  (settings : Settings) (choices : list nat) (file : bytes) (S : Z)
  (dst : pystr) (progress : bool) (b : B) :
  0 <= S ->
  0 < BACKUP_UPLOAD_CHUNK_SIZE settings ->
  0 < BACKUP_UPLOAD_CONCURRENCY settings ->
  exists plan,
    chunk_plan S (BACKUP_UPLOAD_CHUNK_SIZE settings) = Ok plan /\
    let ids := map (fun c => chunk_id (fst c)) plan in
    let '(r, st') :=
      upload service settings choices file S dst progress (start b) in
    committed (log st') = [ids] /\
    Permutation (map fst (staged (log st'))) ids /\
    exists l, log st' = l ++ [(commit_block_list ids, outcome_of r)].
Proof.
  intros HS HC HW.
  destruct (upload_run service settings file progress choices S dst (start b)
                       HS HC HW) as (plan & l & Hplan & H).
  exists plan. split; [exact Hplan|]. cbn zeta in *.
  destruct (upload _ _ _ _ _ _ _ _) as [r st'].
  destruct H as (Hlog & Hc & Hs). rewrite Hlog. cbn [start log app].
  repeat split.
  - change (?x :: ?l ++ ?y) with ([x] ++ l ++ y).
    rewrite !committed_app, Hc. reflexivity.
  - change (?x :: ?l ++ ?y) with ([x] ++ l ++ y).
    rewrite !staged_app, !map_app. cbn. rewrite app_nil_r. exact Hs.
  - eexists (_ :: l). reflexivity.
Qed.

Lemma commit_follows_staging_witness :
  0 <= 100 /\ 0 < 25 /\ 0 < 2 /\
  exists plan,
    chunk_plan 100 (BACKUP_UPLOAD_CHUNK_SIZE test_settings) = Ok plan /\
    let ids := map (fun c => chunk_id (fst c)) plan in
    let '(r, st') :=
      upload unreachable_service test_settings [2; 0]%nat
             (repeat Byte.x00 100) 100 (s "backup.tar.gz") false (start tt) in
    committed (log st') = [ids] /\
    Permutation (map fst (staged (log st'))) ids /\
    exists l, log st' = l ++ [(commit_block_list ids, outcome_of r)].
Proof.
  split; [lia|]. split; [lia|]. split; [lia|].
  apply (commit_follows_staging unreachable_service test_settings);
    simpl; lia.
Defined.

(** *** The order of the committed identifiers *)

(** What the specification asks of the committed identifiers: a fixed
    width of 16 characters and, in the order committed, strictly
    ascending as strings. *)
Definition committed_in_string_order {B} (service : BlobService B)
  (settings : Settings) (choices : list nat) (file : bytes) (S : Z)
  (dst : pystr) (progress : bool) (b : B) : Prop :=
  forall ids,
    In ids (committed (log (snd (upload service settings choices file S dst
                                        progress (start b))))) ->
    Forall (fun id => length id = 16%nat) ids /\ StronglySorted str_lt ids.

(** A blob service that accepts everything. *)
Definition accepting_service : BlobService unit :=
  {| service_stage_block := fun _ _ b => (Ok tt, b);
     service_commit_block_list := fun _ b => (Ok tt, b) |}.

(** With chunks of 9999999999999999 bytes, the third chunk of a file of
    20000000000000000 bytes starts at offset 19999999999999998, whose
    identifier has 17 characters. *)
Lemma long_identifier_past_16_digits :
  ~ committed_in_string_order accepting_service
      {| BACKUP_UPLOAD_CHUNK_SIZE := 9999999999999999;
         BACKUP_UPLOAD_CONCURRENCY := 20 |}
      [] [] 20000000000000000 (s "backup.tar.gz") false tt.
Proof.
  unfold committed_in_string_order. intros H.
  lazy in H. destruct (H _ (or_introl eq_refl)) as [HF _].
  inversion HF as [|? ? _ HF1]. inversion HF1 as [|? ? _ HF2].
  inversion HF2 as [|? ? H17 _]. discriminate H17.
Qed.

(** C3, as the code has it.  In whatever order the workers complete, the
    list given to [commit_block_list] holds the identifiers of the chunks
    in strictly ascending offset order.  For a file of at most [10 ^ 16]
    bytes every identifier is the offset padded to 16 digits, and
    identifiers compare as strings the way their offsets compare as
    numbers; the committed list is then strictly ascending as a list of
    strings too. *)
Theorem committed_in_offset_order {B} (service : BlobService B)
  (settings : Settings) (choices : list nat) (file : bytes) (S : Z)
  (dst : pystr) (progress : bool) (b : B) :
  0 <= S ->
  0 < BACKUP_UPLOAD_CHUNK_SIZE settings ->
  0 < BACKUP_UPLOAD_CONCURRENCY settings ->
  exists offsets,
    committed (log (snd (upload service settings choices file S dst
                                progress (start b))))
    = [map chunk_id offsets] /\
    StronglySorted Z.lt offsets /\
    (S <= 10 ^ 16 ->
     Forall (fun id => length id = 16%nat) (map chunk_id offsets) /\
     StronglySorted str_lt (map chunk_id offsets) /\
     forall a a', In a offsets -> In a' offsets ->
       (a < a' <-> str_lt (chunk_id a) (chunk_id a'))).
Proof.
  intros HS HC HW.
  destruct (upload_run service settings file progress choices S dst (start b)
                       HS HC HW) as (plan & l & Hplan & H).
  cbn zeta in H. destruct (upload _ _ _ _ _ _ _ _) as [r st'].
  destruct H as (Hlog & Hc & _). cbn [snd start log app] in *.
  destruct (plan_offsets S _ plan HS HC Hplan) as (Hsorted & Hbound & Hids).
  assert (forall a a', 0 <= a < S -> 0 <= a' < S -> S <= 10 ^ 16 ->
            (a < a' <-> str_lt (chunk_id a) (chunk_id a'))) as Hcmp.
  { intros a a' Ha Ha' HS16. unfold str_lt.
    rewrite chunk_id_compare by lia. symmetry. apply Z.compare_lt_iff. }
  exists (map fst plan). rewrite map_map. split; [|split; [exact Hsorted|]].
  - rewrite Hlog.
    change (?x :: ?l ++ ?y) with ([x] ++ l ++ y).
    rewrite !committed_app, Hc. reflexivity.
  - intros HS16. split; [|split].
    + apply Forall_forall. intros id Hid.
      apply in_map_iff in Hid as (c & <- & Hin).
      apply (in_map fst) in Hin. apply Hbound in Hin.
      rewrite chunk_id_fixed by lia. apply length_fixed.
    + apply Hids. intros a a' Ha Ha'. apply Hcmp; lia.
    + intros a a' Ha Ha'. apply Hbound in Ha, Ha'. now apply Hcmp.
Qed.

Lemma committed_in_offset_order_witness :
  0 <= 100 /\ 0 < 25 /\ 0 < 2 /\
  exists offsets,
    committed (log (snd (upload accepting_service test_settings [3; 1; 0]%nat
                                (repeat Byte.x00 100) 100 (s "backup.tar.gz")
                                false (start tt))))
    = [map chunk_id offsets] /\
    StronglySorted Z.lt offsets /\
    (100 <= 10 ^ 16 ->
     Forall (fun id => length id = 16%nat) (map chunk_id offsets) /\
     StronglySorted str_lt (map chunk_id offsets) /\
     forall a a', In a offsets -> In a' offsets ->
       (a < a' <-> str_lt (chunk_id a) (chunk_id a'))).
Proof.
  split; [lia|]. split; [lia|]. split; [lia|].
  apply (committed_in_offset_order accepting_service test_settings);
    simpl; lia.
Defined.

End UploadFacts.

(** ** The default retention handler *)

Module RetentionFacts.
Import Storage.

Lemma deletes_app l1 l2 : deletes (l1 ++ l2) = deletes l1 ++ deletes l2.
Proof. apply flat_map_app. Qed.

(** The log entry of a [delete] call that returned. *)
Definition delete_returned (item : pystr) : call * outcome :=
  (storage_delete item, Returned).

Lemma deletes_returned items : deletes (map delete_returned items) = items.
Proof.
  induction items as [|item items IH]; [reflexivity|].
  cbn [map]. change (delete_returned item :: map delete_returned items)
    with ([delete_returned item] ++ map delete_returned items).
  rewrite deletes_app, IH. reflexivity.
Qed.

Section Handler.
Context {W : Type} (storage : StorageInterface W) (config : RetentionConfig).

(** Deleting the entries of a list from the storage, one after the
    other, up to the first [delete] that raises: what the specification
    calls deleting these entries. *)
Fixpoint delete_each (items : list pystr) (w : W) : result unit * W :=
  match items with
  | [] => (Ok tt, w)
  | item :: rest =>
      match delete storage item w with
      | (Ok _, w1) => delete_each rest w1
      | (Raise e, w1) => (Raise e, w1)
      end
  end.

(** The body of the loop of [retention]. *)
Definition step (p : Z * pystr) : M (St W call) unit :=
  let '(i, item) := p in
  when (count config <=? i)
       (invoke (storage_delete item) (delete storage item)).

(** The loop from position [m] on does to the storage what deleting the
    items at positions [>= count] does, and logs these deletes and no
    other call. *)
Lemma loop_deletes items : forall m st w2,
  delete_each (skipn (Z.to_nat (count config) - m) items) (world st)
  = (Ok tt, w2) ->
  for_each (combine (map Z.of_nat (seq m (length items))) items) step st
  = (Ok tt,
     Build_St w2 (log st
                    ++ map delete_returned
                           (skipn (Z.to_nat (count config) - m) items))).
Proof.
  induction items as [|item items IH]; intros m st w2.
  - rewrite skipn_nil. cbn. intros [= <-]. rewrite app_nil_r.
    now destruct st.
  - cbn [length seq map combine for_each]. unfold bind, step at 1, when.
    destruct (count config <=? Z.of_nat m) eqn:E.
    + apply Z.leb_le in E. unfold invoke.
      replace (Z.to_nat (count config) - m)%nat with 0%nat by lia.
      cbn [skipn delete_each map].
      destruct (delete storage item (world st)) as [[[]|e] w1];
        [|discriminate].
      intros Hrest.
      rewrite (IH (S m) _ w2).
      * replace (Z.to_nat (count config) - S m)%nat with 0%nat by lia.
        cbn [skipn log outcome_of]. rewrite <- app_assoc. reflexivity.
      * replace (Z.to_nat (count config) - S m)%nat with 0%nat by lia.
        exact Hrest.
    + apply Z.leb_gt in E. unfold ret.
      replace (Z.to_nat (count config) - m)%nat
        with (S (Z.to_nat (count config) - S m)) by lia.
      cbn [skipn]. apply IH.
Qed.

End Handler.

(** The storage mock of the test-suite: [list] returns a fixed listing
    and [delete] returns. *)
Definition mock_storage (listing : list pystr) : StorageInterface unit :=
  {| exists_ := fun _ w => (Ok true, w);
     create := fun _ w => (Ok tt, w);
     upload := fun _ _ _ w => (Ok tt, w);
     delete := fun _ w => (Ok tt, w);
     list_ := fun _ w => (Ok listing, w) |}.

(** A storage that holds a list of entries, most recent first:
    [delete] takes the entry out of it, and raises for an entry that is
    not there. *)
Definition shelf : StorageInterface (list pystr) :=
  {| exists_ := fun p w => (Ok (existsb (str_eqb p) w), w);
     create := fun _ w => (Ok tt, w);
     upload := fun _ _ dst w => (Ok tt, dst :: w);
     delete := fun p w =>
       if existsb (str_eqb p) w
       then (Ok tt, filter (fun q => negb (str_eqb p q)) w)
       else (Raise (OtherError (s "FileNotFoundError")), w);
     list_ := fun _ w => (Ok w, w) |}.

(** C4.  When [list] returns [N] entries and deleting the entries at
    list positions [>= K] from the storage goes through, the default
    retention handler with [count = K] returns and has done just that
    to the storage: it has called [delete] on these entries, each once
    and in listing order, and made no other call but the [list]; these
    are the [N - K] last entries of the listing for [K < N], and none
    for [K >= N]. *)
Theorem retention_deletes_beyond_count {W} (storage : StorageInterface W)
  (path : pystr) (config : RetentionConfig) (w w1 w2 : W)
  (items : list pystr) :
  list_ storage path w = (Ok items, w1) ->
  delete_each storage (skipn (Z.to_nat (count config)) items) w1
  = (Ok tt, w2) ->
  let K := Z.to_nat (count config) in
  let '(r, st') := retention storage (fun c => c) path config (start w) in
  r = Ok tt /\
  world st' = w2 /\
  log st' = (storage_list path, Returned) :: map delete_returned (skipn K items) /\
  deletes (log st') = skipn K items /\
  ((K < length items)%nat ->
     length (deletes (log st')) = (length items - K)%nat) /\
  ((length items <= K)%nat -> deletes (log st') = []).
Proof.
  intros Hlist Hdel K. unfold retention, bind, invoke at 1.
  cbn [start world log app]. rewrite Hlist. cbn [outcome_of].
  unfold enumerate.
  pose proof (loop_deletes storage config items 0
                (Build_St w1 [(storage_list path, Returned)]) w2) as H.
  rewrite Nat.sub_0_r in H. specialize (H Hdel). unfold step in H.
  rewrite H. cbn [world log app]. fold K.
  assert (deletes ((storage_list path, Returned) :: map delete_returned (skipn K items))
          = skipn K items) as Hd.
  { change ((storage_list path, Returned) :: map delete_returned (skipn K items))
      with ([(storage_list path, Returned)] ++ map delete_returned (skipn K items)).
    rewrite deletes_app, deletes_returned. reflexivity. }
  rewrite Hd. repeat split.
  - intros _. apply length_skipn.
  - intros HK. now apply skipn_all2.
Qed.

Lemma retention_deletes_beyond_count_witness :
  let listing := [s "backup5"; s "backup4"; s "backup3"; s "backup2"; s "backup1"] in
  let config := {| count := 3 |} in
  let K := Z.to_nat (count config) in
  let '(r, st') :=
    retention shelf (fun c => c) (s "/test/backup") config (start listing) in
  r = Ok tt /\
  world st' = [s "backup5"; s "backup4"; s "backup3"] /\
  log st' = (storage_list (s "/test/backup"), Returned)
              :: map delete_returned (skipn K listing) /\
  deletes (log st') = skipn K listing /\
  ((K < length listing)%nat ->
     length (deletes (log st')) = (length listing - K)%nat) /\
  ((length listing <= K)%nat -> deletes (log st') = []).
Proof.
  intros listing config.
  apply (retention_deletes_beyond_count shelf (s "/test/backup") config
           listing listing [s "backup5"; s "backup4"; s "backup3"] listing);
    reflexivity.
Defined.

End RetentionFacts.

(** ** Listings *)

Module ListingFacts.
Import Storage StrFacts.

Section Sorting.
Context {A : Type} (key : A -> pystr).

(** [a] may stand before [b] in a listing: its key is not smaller. *)
Definition desc (a b : A) : Prop := str_leb (key b) (key a) = true.

Lemma insert_desc_perm x l : Permutation (insert_desc key x l) (x :: l).
Proof.
  induction l as [|y l IH]; simpl; [reflexivity|].
  destruct (str_leb (key y) (key x)); [reflexivity|].
  rewrite IH. apply perm_swap.
Qed.

Lemma sorted_reverse_perm l : Permutation (sorted_reverse key l) l.
Proof.
  induction l as [|x l IH]; simpl; [reflexivity|].
  rewrite insert_desc_perm. now constructor.
Qed.

Lemma insert_desc_sorted x l :
  StronglySorted desc l -> StronglySorted desc (insert_desc key x l).
Proof.
  induction l as [|y l IH]; intros Hs; simpl.
  - repeat constructor.
  - inversion Hs as [|? ? Hs' Hy]; subst.
    destruct (str_leb (key y) (key x)) eqn:E.
    + constructor; [exact Hs|]. constructor; [exact E|].
      eapply Forall_impl; [|exact Hy]. intros z Hz. unfold desc in *.
      eapply str_leb_trans; eassumption.
    + constructor; [now apply IH|].
      eapply Permutation_Forall; [symmetry; apply insert_desc_perm|].
      constructor; [|exact Hy]. now apply str_leb_total.
Qed.

Lemma sorted_reverse_sorted l : StronglySorted desc (sorted_reverse key l).
Proof.
  induction l as [|x l IH]; simpl; [constructor|].
  now apply insert_desc_sorted.
Qed.

(** Sorting a sorted list changes nothing. *)
Lemma sorted_reverse_fixpoint l :
  StronglySorted desc l -> sorted_reverse key l = l.
Proof.
  induction l as [|x l IH]; intros Hs; simpl; [reflexivity|].
  inversion Hs as [|? ? Hs' Hx]; subst. rewrite IH by exact Hs'.
  destruct l as [|y l]; simpl; [reflexivity|].
  inversion Hx as [|? ? Hxy _]; subst. unfold desc in Hxy. now rewrite Hxy.
Qed.

(** Two sorted arrangements of the same items agree when no two items
    share a key. *)
Lemma sorted_unique l1 : forall l2,
  StronglySorted desc l1 -> StronglySorted desc l2 ->
  Permutation l1 l2 -> NoDup (map key l1) -> l1 = l2.
Proof.
  induction l1 as [|x l1 IH]; intros l2 H1 H2 HP Hnd.
  - apply Permutation_nil in HP. now subst.
  - destruct l2 as [|y l2];
      [apply Permutation_sym, Permutation_nil in HP; discriminate|].
    inversion H1 as [|? ? H1' Hx]; subst.
    inversion H2 as [|? ? H2' Hy]; subst.
    inversion Hnd as [|? ? Hnin Hnd']; subst.
    assert (x = y) as ->.
    { assert (In y (x :: l1)) as [E|Iy]
          by (eapply Permutation_in; [symmetry; exact HP|now left]);
        [exact E|].
      assert (In x (y :: l2)) as [E|Ix]
          by (eapply Permutation_in; [exact HP|now left]);
        [now symmetry|].
      rewrite Forall_forall in Hx, Hy.
      exfalso. apply Hnin.
      rewrite (str_leb_antisym (key x) (key y) (Hy x Ix) (Hx y Iy)).
      now apply in_map. }
    f_equal. apply IH; trivial.
    eapply Permutation_cons_inv. exact HP.
Qed.

(** In a sorted list an item with a greater key stands before an item
    with a smaller one. *)
Lemma greater_key_first l : forall a b,
  StronglySorted desc l -> In a l -> In b l ->
  str_lt (key a) (key b) ->
  exists l1 l2 l3, l = l1 ++ b :: l2 ++ a :: l3.
Proof.
  induction l as [|x l IH]; intros a b Hs Ia Ib Hlt; [destruct Ia|].
  inversion Hs as [|? ? Hs' Hx]; subst. rewrite Forall_forall in Hx.
  pose proof (str_lt_not_leb _ _ Hlt) as Hn.
  destruct Ib as [->|Ib].
  - destruct Ia as [->|Ia].
    + unfold str_lt in Hlt. rewrite str_compare_refl in Hlt. discriminate.
    + apply in_split in Ia as (l2 & l3 & ->). now exists [], l2, l3.
  - destruct Ia as [->|Ia].
    + specialize (Hx b Ib). unfold desc in Hx. congruence.
    + destruct (IH a b Hs' Ia Ib Hlt) as (l1 & l2 & l3 & ->).
      now exists (x :: l1), l2, l3.
Qed.

(** The entries with the key [k], in the order in which they stand. *)
Definition with_key (k : pystr) (l : list A) : list A :=
  filter (fun x => str_eqb (key x) k) l.

Lemma insert_desc_stable k x l :
  with_key k (insert_desc key x l) = with_key k (x :: l).
Proof.
  unfold with_key. induction l as [|y l IH]; [reflexivity|].
  cbn [insert_desc]. destruct (str_leb (key y) (key x)) eqn:E; [reflexivity|].
  cbn [filter] in *. rewrite IH.
  destruct (str_eqb (key x) k) eqn:Ex; [|reflexivity].
  destruct (str_eqb (key y) k) eqn:Ey; [|reflexivity].
  exfalso. unfold str_eqb in Ex, Ey.
  destruct (str_compare (key x) k) eqn:Cx; try discriminate.
  destruct (str_compare (key y) k) eqn:Cy; try discriminate.
  apply str_compare_eq in Cx, Cy. unfold str_leb in E.
  rewrite Cx, Cy, str_compare_refl in E. discriminate.
Qed.

(** The sort is stable: the entries that have one key come out in the
    order in which they went in. *)
Lemma sorted_reverse_stable k l :
  with_key k (sorted_reverse key l) = with_key k l.
Proof.
  induction l as [|x l IH]; [reflexivity|].
  cbn [sorted_reverse]. rewrite insert_desc_stable.
  unfold with_key in *. cbn [filter]. now rewrite IH.
Qed.

End Sorting.

End ListingFacts.

(** ** Paths and backup names *)

Module NamingFacts.
Import Storage Naming StrFacts ListingFacts.

Lemma rfind_app_found c b : forall a,
  0 <= rfind b c -> rfind (a ++ b) c = Z.of_nat (length a) + rfind b c.
Proof.
  induction a as [|x a IH]; intros Hb; [simpl; lia|].
  cbn [app rfind length]. rewrite IH by exact Hb.
  destruct (0 <=? _) eqn:E; lia.
Qed.

Lemma rfind_head c b : 0 <= rfind (c :: b) c.
Proof.
  cbn [rfind]. destruct (0 <=? rfind b c) eqn:E; [lia|].
  now rewrite Ascii.eqb_refl.
Qed.

(** [splitext] leaves alone whatever stands before a dot. *)
Lemma splitext_keeps_prefix P e :
  exists r, fst (splitext (P ++ "."%char :: e)) = P ++ r.
Proof.
  unfold splitext.
  pose proof (rfind_head "." e) as Hd.
  rewrite (rfind_app_found "." ("."%char :: e) P Hd).
  destruct (_ && _); cbn [fst]; [|eauto].
  unfold slice_to.
  replace (Z.to_nat (Z.of_nat (length P) + rfind ("."%char :: e) "."))
    with (length P + Z.to_nat (rfind ("."%char :: e) "."))%nat by lia.
  rewrite firstn_app_2. eauto.
Qed.

(** [os.path.join] puts the same thing before two names that begin
    alike. *)
Lemma path_join_prefix a x y1 y2 :
  x <> [] ->
  exists Q, path_join a (x ++ y1) = Q ++ x ++ y1 /\
            path_join a (x ++ y2) = Q ++ x ++ y2.
Proof.
  intros Hx. destruct x as [|c x]; [contradiction|].
  unfold path_join. cbn [app startswith s String.list_ascii_of_string].
  destruct (Ascii.eqb "/" c).
  - exists []. auto.
  - cbn [andb]. destruct (_ || _).
    + exists a. auto.
    + exists (a ++ s "/"). rewrite <- !app_assoc. auto.
Qed.

Lemma lower_app a b : lower (a ++ b) = lower a ++ lower b.
Proof. apply map_app. Qed.

(** *** Time stamps *)

(** The shape of a time stamp, with [T] between date and time. *)
Definition stamp (T : pystr) (t : datetime) : pystr :=
  fixed 4 (year t) ++ s "-" ++ fixed 2 (month t) ++ s "-" ++ fixed 2 (day t)
    ++ T ++ fixed 2 (hour t) ++ s "-" ++ fixed 2 (minute t) ++ s "-"
    ++ fixed 2 (second t).

Lemma pad_fixed w n :
  (1 <= w)%nat -> 0 <= n < 10 ^ Z.of_nat w -> pad w n = fixed w n.
Proof. apply zfill_str. Qed.

Lemma strftime_stamp t : valid t -> strftime t = stamp (s "T") t.
Proof.
  intros (Hy & Hmo & Hd & Hh & Hmi & Hs). unfold strftime, stamp.
  rewrite !pad_fixed; trivial; try lia;
    first [change (10 ^ Z.of_nat 2) with 100
          |change (10 ^ Z.of_nat 4) with 10000]; lia.
Qed.

Lemma lower_stamp T t : lower (stamp T t) = stamp (lower T) t.
Proof.
  unfold stamp. rewrite !lower_app, !lower_fixed. reflexivity.
Qed.

Lemma length_stamp T t : length (stamp T t) = (18 + length T)%nat.
Proof.
  unfold stamp. rewrite !length_app, !length_fixed. simpl. lia.
Qed.

Lemma field_compare w a b rest1 rest2 :
  0 <= a < 10 ^ Z.of_nat w -> 0 <= b < 10 ^ Z.of_nat w ->
  str_compare (fixed w a ++ rest1) (fixed w b ++ rest2)
  = match a ?= b with Eq => str_compare rest1 rest2 | r => r end.
Proof.
  intros Ha Hb. rewrite str_compare_app by now rewrite !length_fixed.
  now rewrite str_compare_fixed.
Qed.

(** Time stamps are ordered as the times they show. *)
Lemma stamp_compare T t1 t2 :
  valid t1 -> valid t2 -> earlier t1 t2 ->
  str_compare (stamp T t1) (stamp T t2) = Lt.
Proof.
  intros (Hy1 & Hmo1 & Hd1 & Hh1 & Hmi1 & Hs1)
         (Hy2 & Hmo2 & Hd2 & Hh2 & Hmi2 & Hs2) He.
  unfold earlier, fields in He. cbn [lex_lt] in He.
  unfold stamp.
  assert (10 ^ Z.of_nat 4 = 10000) as E4 by reflexivity.
  assert (10 ^ Z.of_nat 2 = 100) as E2 by reflexivity.
  rewrite <- (app_nil_r (fixed 2 (second t1))),
          <- (app_nil_r (fixed 2 (second t2))).
  repeat
    (rewrite field_compare by lia;
     match goal with
     | |- match ?a ?= ?b with _ => _ end = Lt =>
         destruct (Z.compare_spec a b) as [?|?|?];
         [rewrite ?str_compare_common_prefix|reflexivity|exfalso; lia]
     end).
  exfalso. lia.
Qed.

(** *** Names of backups and their place in a listing *)

Lemma backup_file_name_shape t base ext :
  valid t ->
  backup_file_name t base ext
  = (base ++ s "_") ++ stamp (s "T") t ++ "."%char :: ext.
Proof.
  intros Hv. unfold backup_file_name, get_backup_name. cbn [join].
  rewrite strftime_stamp by exact Hv. now rewrite <- !app_assoc.
Qed.

Lemma base_nonempty (base : pystr) : base ++ s "_" <> [].
Proof. destruct base; discriminate. Qed.

(** C10.  A backup name is the base, an underscore and a time stamp of
    19 characters.  Of two backups of one base made at different times
    (to the second) and listed from the same directory, the later one
    has the strictly greater sort key, whatever the extensions; so the
    listing, which is descending by that key, shows the later backup
    before the earlier one. *)
Theorem later_backup_listed_first path base ext1 ext2 t1 t2 :
  valid t1 -> valid t2 -> earlier t1 t2 ->
  let f1 := path_join path (backup_file_name t1 base ext1) in
  let f2 := path_join path (backup_file_name t2 base ext2) in
  get_backup_name t1 base = base ++ s "_" ++ strftime t1 /\
  length (strftime t1) = 19%nat /\
  length (strftime t2) = 19%nat /\
  str_lt (sort_key f1) (sort_key f2) /\
  forall listdir,
    In (backup_file_name t1 base ext1) listdir ->
    In (backup_file_name t2 base ext2) listdir ->
    exists l1 l2 l3, local_list listdir path = l1 ++ f2 :: l2 ++ f1 :: l3.
Proof.
  intros Hv1 Hv2 He f1 f2.
  assert (str_lt (sort_key f1) (sort_key f2)) as Hkey.
  { subst f1 f2. rewrite !backup_file_name_shape by assumption.
    destruct (path_join_prefix path (base ++ s "_")
                (stamp (s "T") t1 ++ "."%char :: ext1)
                (stamp (s "T") t2 ++ "."%char :: ext2)
                (base_nonempty base)) as (Q & -> & ->).
    unfold sort_key, str_lt.
    replace (Q ++ (base ++ s "_") ++ stamp (s "T") t1 ++ "."%char :: ext1)
      with ((Q ++ (base ++ s "_") ++ stamp (s "T") t1) ++ "."%char :: ext1)
      by now rewrite <- !app_assoc.
    replace (Q ++ (base ++ s "_") ++ stamp (s "T") t2 ++ "."%char :: ext2)
      with ((Q ++ (base ++ s "_") ++ stamp (s "T") t2) ++ "."%char :: ext2)
      by now rewrite <- !app_assoc.
    destruct (splitext_keeps_prefix
                (Q ++ (base ++ s "_") ++ stamp (s "T") t1) ext1) as (r1 & ->).
    destruct (splitext_keeps_prefix
                (Q ++ (base ++ s "_") ++ stamp (s "T") t2) ext2) as (r2 & ->).
    rewrite <- !app_assoc, !lower_app, !lower_stamp.
    rewrite !str_compare_common_prefix.
    rewrite str_compare_app by now rewrite !length_stamp.
    now rewrite stamp_compare. }
  split; [reflexivity|].
  split; [rewrite strftime_stamp by assumption; apply length_stamp|].
  split; [rewrite strftime_stamp by assumption; apply length_stamp|].
  split; [exact Hkey|].
  intros listdir H1 H2. unfold local_list.
  apply (greater_key_first sort_key); trivial.
  - apply sorted_reverse_sorted.
  - eapply Permutation_in; [symmetry; apply sorted_reverse_perm|].
    now apply in_map.
  - eapply Permutation_in; [symmetry; apply sorted_reverse_perm|].
    now apply in_map.
Qed.

(** Two backups of [www], a second apart across a change of year, and
    of different archive formats. *)
Definition new_year_eve : datetime :=
  {| year := 2024; month := 12; day := 31;
     hour := 23; minute := 59; second := 59 |}.

Definition new_year : datetime :=
  {| year := 2025; month := 1; day := 1;
     hour := 0; minute := 0; second := 0 |}.

Lemma later_backup_listed_first_witness :
  let path := s "/backups/www" in
  let f1 := path_join path (backup_file_name new_year_eve (s "www") (s "zip")) in
  let f2 := path_join path (backup_file_name new_year (s "www") (s "tar.gz")) in
  get_backup_name new_year_eve (s "www")
  = s "www" ++ s "_" ++ strftime new_year_eve /\
  length (strftime new_year_eve) = 19%nat /\
  length (strftime new_year) = 19%nat /\
  str_lt (sort_key f1) (sort_key f2) /\
  forall listdir,
    In (backup_file_name new_year_eve (s "www") (s "zip")) listdir ->
    In (backup_file_name new_year (s "www") (s "tar.gz")) listdir ->
    exists l1 l2 l3, local_list listdir path = l1 ++ f2 :: l2 ++ f1 :: l3.
Proof.
  intros path.
  apply (later_backup_listed_first path (s "www") (s "zip") (s "tar.gz")
           new_year_eve new_year).
  - unfold valid; simpl; lia.
  - unfold valid; simpl; lia.
  - unfold earlier; simpl; lia.
Defined.

End NamingFacts.

(** ** The order of a listing *)

Module ListingOrder.
Import Storage StrFacts ListingFacts NamingFacts.

Lemma rfind_range c a : -1 <= rfind a c < Z.of_nat (length a).
Proof.
  induction a as [|x a IH]; cbn [rfind length]; [lia|].
  destruct (0 <=? rfind a c) eqn:E; [lia|].
  destruct (Ascii.eqb x c); lia.
Qed.

Lemma rfind_absent c a : ~ In c a -> rfind a c = -1.
Proof.
  induction a as [|x a IH]; intros Hn; cbn [rfind]; [reflexivity|].
  rewrite IH by (intros H; apply Hn; now right). cbn.
  destruct (Ascii.eqb_spec x c) as [->|]; [|reflexivity].
  exfalso. apply Hn. now left.
Qed.

Lemma rfind_app_absent c b : forall a,
  rfind b c = -1 -> rfind (a ++ b) c = rfind a c.
Proof.
  induction a as [|x a IH]; intros Hb; cbn [app rfind]; [exact Hb|].
  now rewrite IH.
Qed.

Lemma rfind_snoc c a : rfind (a ++ [c]) c = Z.of_nat (length a).
Proof.
  rewrite rfind_app_found; cbn [rfind]; rewrite Ascii.eqb_refl; cbn; lia.
Qed.

Lemma rfind_snoc_other c x a : x <> c -> rfind (a ++ [x]) c = rfind a c.
Proof.
  intros Hx. apply rfind_app_absent. cbn.
  destruct (Ascii.eqb_spec x c); [contradiction|reflexivity].
Qed.

(** Under a directory prefix (empty, or ending with the separator),
    [splitext] works on the name alone. *)
Lemma splitext_under_dir Q name :
  Q = [] \/ (exists Q', Q = Q' ++ ["/"%char]) ->
  ~ In "/"%char name ->
  fst (splitext (Q ++ name)) = Q ++ fst (splitext name).
Proof.
  intros [->|(Q' & ->)] Hname; [reflexivity|].
  unfold splitext.
  rewrite (rfind_absent "/" name Hname).
  rewrite (rfind_app_absent "/" name _ (rfind_absent "/" name Hname)).
  rewrite rfind_snoc.
  pose proof (rfind_range "." name) as Hd.
  destruct (Z.eq_dec (rfind name ".") (-1)) as [E|E].
  - rewrite (rfind_app_absent "." name _ E), E.
    rewrite rfind_snoc_other by discriminate.
    pose proof (rfind_range "." Q').
    destruct (_ <? rfind Q' ".") eqn:E1; [lia|]. reflexivity.
  - rewrite (rfind_app_found "." name) by lia.
    rewrite length_app. cbn [length].
    assert ((-1 <? rfind name ".") = true) as -> by (apply Z.ltb_lt; lia).
    assert ((Z.of_nat (length Q')
             <? Z.of_nat (length Q' + 1) + rfind name ".") = true) as ->
        by (apply Z.ltb_lt; lia).
    cbn [andb]. unfold slice_to, slice_from.
    replace (Z.to_nat (Z.of_nat (length Q' + 1) + rfind name "."))
      with (length (Q' ++ ["/"%char]) + Z.to_nat (rfind name "."))%nat
      by (rewrite length_app; cbn [length]; lia).
    rewrite firstn_app_2.
    replace (Z.to_nat (Z.of_nat (length Q') + 1))
      with (length (Q' ++ ["/"%char]))
      by (rewrite length_app; cbn [length]; lia).
    rewrite skipn_app, skipn_all, Nat.sub_diag. cbn [app skipn].
    change (Z.to_nat (-1 + 1)) with 0%nat. cbn [skipn].
    destruct (has_non_dot _); reflexivity.
Qed.

(** What [os.path.join] puts before a plain file name. *)
Lemma path_join_dir path :
  exists Q, (Q = [] \/ exists Q', Q = Q' ++ ["/"%char]) /\
            forall name, ~ In "/"%char name -> path_join path name = Q ++ name.
Proof.
  assert (forall name, ~ In "/"%char name -> startswith (s "/") name = false)
    as Hs.
  { intros [|c name] Hn; [reflexivity|].
    cbn [startswith s String.list_ascii_of_string].
    destruct (Ascii.eqb_spec "/"%char c) as [<-|]; [|reflexivity].
    exfalso. apply Hn. now left. }
  unfold path_join.
  destruct path as [|c path].
  - exists []. split; [now left|]. intros name Hn. now rewrite Hs.
  - destruct (Ascii.eqb (last (c :: path) "/"%char) "/") eqn:E.
    + exists (c :: path). split.
      * right. exists (removelast (c :: path)).
        apply Ascii.eqb_eq in E.
        pose proof (@app_removelast_last _ (c :: path) "/"%char
                      ltac:(discriminate)) as H.
        now rewrite E in H.
      * intros name Hn. now rewrite Hs.
    + exists ((c :: path) ++ ["/"%char]). split; [right; eauto|].
      intros name Hn. rewrite Hs by exact Hn. cbn [length Nat.eqb orb].
      now rewrite <- app_assoc.
Qed.

(** The sort key of a listed path is a fixed prefix followed by the
    sort key of the file name. *)
Lemma sort_key_under_dir path :
  exists P, forall name,
    ~ In "/"%char name ->
    sort_key (path_join path name) = P ++ sort_key name.
Proof.
  destruct (path_join_dir path) as (Q & HQ & Hjoin).
  exists (lower Q). intros name Hn. unfold sort_key.
  rewrite Hjoin, splitext_under_dir by assumption. apply lower_app.
Qed.

Section MapSorted.
Context {A B : Type} (f : A -> B) (keyA : A -> pystr) (keyB : B -> pystr).

Lemma insert_desc_map x l :
  (forall y, In y l ->
     str_leb (keyB (f y)) (keyB (f x)) = str_leb (keyA y) (keyA x)) ->
  insert_desc keyB (f x) (map f l) = map f (insert_desc keyA x l).
Proof.
  induction l as [|y l IH]; intros H; simpl; [reflexivity|].
  rewrite (H y (or_introl eq_refl)).
  destruct (str_leb (keyA y) (keyA x)); [reflexivity|].
  simpl. rewrite IH; [reflexivity|]. intros z Hz. apply H. now right.
Qed.

Lemma sorted_reverse_map l :
  (forall x y, In x l -> In y l ->
     str_leb (keyB (f y)) (keyB (f x)) = str_leb (keyA y) (keyA x)) ->
  sorted_reverse keyB (map f l) = map f (sorted_reverse keyA l).
Proof.
  induction l as [|x l IH]; intros H; simpl; [reflexivity|].
  rewrite IH by (intros; apply H; now right).
  apply insert_desc_map. intros y Hy. apply H; [now left|right].
  eapply Permutation_in; [apply sorted_reverse_perm|exact Hy].
Qed.

End MapSorted.

Lemma filter_perm {A} (f : A -> bool) l l' :
  Permutation l l' -> Permutation (filter f l) (filter f l').
Proof.
  induction 1 as [|x l l' _ IH|x y l|l l' l'' _ IH1 _ IH2]; simpl.
  - constructor.
  - destruct (f x); [now constructor|exact IH].
  - destruct (f x), (f y); try reflexivity. apply perm_swap.
  - now transitivity (filter f l').
Qed.

(** What the specification asks of a listing: a sequence that the set of
    entries determines, in whatever order the directory is read. *)
Definition listing_fixed_by_entries (path : pystr) : Prop :=
  forall listdir listdir',
    NoDup listdir -> Permutation listdir listdir' ->
    local_list listdir path = local_list listdir' path.

(** Two archives of one name and different formats have the same sort
    key; they are listed in the order in which the directory was read. *)
Lemma equal_keys_follow_enumeration :
  ~ listing_fixed_by_entries (s "/backups/www").
Proof.
  intros H.
  specialize (H [s "www.tar"; s "www.zip"] [s "www.zip"; s "www.tar"]).
  assert (NoDup [s "www.tar"; s "www.zip"]) as Hnd.
  { repeat constructor; simpl; intuition discriminate. }
  specialize (H Hnd (perm_swap _ _ _)). vm_compute in H. discriminate H.
Qed.

(** C8, as the code has it.  A listing is what the directory (or the
    container) holds under the path, arranged by sort key, the lower-cased
    path without its extension, greatest first; sorting it again changes
    nothing.  For the local file system this is the order of the file
    names by their own key.  Entries with equal keys stay in the order of
    the enumeration they come from: for every key, the entries that have
    it are listed in the order in which they were enumerated.  When no
    two listed entries share a key, the listing is the same for every
    order of enumeration. *)
Theorem listing_descending_by_key path listdir blobs :
  let out := local_list listdir path in
  let blob_path := replace_char "\" "/" path in
  let out' := azure_list blobs path in
  (Permutation out (map (path_join path) listdir) /\
   StronglySorted (desc sort_key) out /\
   sorted_reverse sort_key out = out /\
   ((forall name, In name listdir -> ~ In "/"%char name) ->
    out = map (path_join path) (sorted_reverse sort_key listdir)) /\
   (forall k,
      with_key sort_key k out
      = with_key sort_key k (map (path_join path) listdir)) /\
   (forall listdir',
      Permutation listdir listdir' -> NoDup (map sort_key out) ->
      local_list listdir' path = out)) /\
  (Permutation out'
     (filter (fun name => negb (str_eqb name blob_path))
             (filter (startswith blob_path) blobs)) /\
   StronglySorted (desc sort_key) out' /\
   sorted_reverse sort_key out' = out' /\
   (forall k,
      with_key sort_key k out'
      = with_key sort_key k
          (filter (fun name => negb (str_eqb name blob_path))
                  (filter (startswith blob_path) blobs))) /\
   (forall blobs',
      Permutation blobs blobs' -> NoDup (map sort_key out') ->
      azure_list blobs' path = out')).
Proof.
  intros out blob_path out'. split.
  - pose proof (sorted_reverse_sorted sort_key (map (path_join path) listdir))
      as Hs.
    pose proof (sorted_reverse_perm sort_key (map (path_join path) listdir))
      as Hp.
    fold (local_list listdir path) in Hs, Hp. fold out in Hs, Hp.
    repeat split; trivial.
    + now apply sorted_reverse_fixpoint.
    + intros Hplain. subst out. unfold local_list.
      destruct (sort_key_under_dir path) as (P & HP).
      apply sorted_reverse_map. intros x y Hx Hy.
      rewrite !HP by auto. unfold str_leb.
      now rewrite str_compare_common_prefix.
    + intros k. subst out. apply sorted_reverse_stable.
    + intros listdir' Hperm Hnd. symmetry.
      apply (sorted_unique sort_key); trivial.
      * apply sorted_reverse_sorted.
      * rewrite Hp. unfold local_list. rewrite sorted_reverse_perm.
        now apply Permutation_map.
  - subst out'. unfold azure_list. cbn zeta. fold blob_path.
    set (under := filter (fun name => negb (str_eqb name blob_path))
                         (filter (startswith blob_path) blobs)).
    pose proof (sorted_reverse_sorted sort_key under) as Hs.
    pose proof (sorted_reverse_perm sort_key under) as Hp.
    repeat split; trivial.
    + now apply sorted_reverse_fixpoint.
    + intros k. apply sorted_reverse_stable.
    + intros blobs' Hperm Hnd. symmetry.
      apply (sorted_unique sort_key); trivial.
      * apply sorted_reverse_sorted.
      * rewrite Hp, sorted_reverse_perm. subst under.
        now do 2 apply filter_perm.
Qed.

Lemma listing_descending_by_key_witness :
  let path := s "/backups/www" in
  let listdir := [s "www_2024-01-01T00-00-00.tar.gz";
                  s "WWW_2024-03-01T00-00-00.tar.gz";
                  s "www_2024-02-01T00-00-00.zip"] in
  let blobs := [s "/backups/www"; s "/backups/www/a.tar.gz";
                s "/backups/www/b.tar.gz"; s "/backups/db/c.tar.gz"] in
  let out := local_list listdir path in
  let blob_path := replace_char "\" "/" path in
  let out' := azure_list blobs path in
  (Permutation out (map (path_join path) listdir) /\
   StronglySorted (desc sort_key) out /\
   sorted_reverse sort_key out = out /\
   ((forall name, In name listdir -> ~ In "/"%char name) ->
    out = map (path_join path) (sorted_reverse sort_key listdir)) /\
   (forall k,
      with_key sort_key k out
      = with_key sort_key k (map (path_join path) listdir)) /\
   (forall listdir',
      Permutation listdir listdir' -> NoDup (map sort_key out) ->
      local_list listdir' path = out)) /\
  (Permutation out'
     (filter (fun name => negb (str_eqb name blob_path))
             (filter (startswith blob_path) blobs)) /\
   StronglySorted (desc sort_key) out' /\
   sorted_reverse sort_key out' = out' /\
   (forall k,
      with_key sort_key k out'
      = with_key sort_key k
          (filter (fun name => negb (str_eqb name blob_path))
                  (filter (startswith blob_path) blobs))) /\
   (forall blobs',
      Permutation blobs blobs' -> NoDup (map sort_key out') ->
      azure_list blobs' path = out')).
Proof.
  intros path listdir blobs.
  exact (listing_descending_by_key path listdir blobs).
Defined.

End ListingOrder.

(** ** Computations and their call logs *)

Module EffFacts.

(** A computation is framed when what it does depends on the world only:
    it appends calls, all of the kind [P], to whatever log it is given. *)
Definition framed {W C A} (P : C * outcome -> Prop) (m : M (St W C) A) : Prop :=
  forall w, exists r w' d,
    Forall P d /\
    forall L, m (Build_St w L) = (r, Build_St w' (L ++ d)).

Section Framed.
Context {W C : Type} (P : C * outcome -> Prop).

Lemma framed_ret {A} (a : A) : framed P (ret (S := St W C) a).
Proof.
  intros w. exists (Ok a), w, []. split; [constructor|].
  intros L. now rewrite app_nil_r.
Qed.

Lemma framed_raise {A} (e : exn) : framed P (raise (S := St W C) (A := A) e).
Proof.
  intros w. exists (Raise e), w, []. split; [constructor|].
  intros L. now rewrite app_nil_r.
Qed.

Lemma framed_lift {A} (r : result A) : framed P (lift (S := St W C) r).
Proof.
  intros w. exists r, w, []. split; [constructor|].
  intros L. now rewrite app_nil_r.
Qed.

Lemma framed_invoke {A} (c : C) (op : W -> result A * W) :
  (forall o, P (c, o)) -> framed P (invoke c op).
Proof.
  intros Hc w. unfold invoke. cbn [world log].
  destruct (op w) as [r w']. exists r, w', [(c, outcome_of r)].
  split; [repeat constructor; apply Hc|reflexivity].
Qed.

Lemma framed_note (c : C) : (forall o, P (c, o)) -> framed (W := W) P (note c).
Proof. apply framed_invoke. Qed.

Lemma framed_bind {A B} (m : M (St W C) A) (k : A -> M (St W C) B) :
  framed P m -> (forall a, framed P (k a)) -> framed P (bind m k).
Proof.
  intros Hm Hk w. destruct (Hm w) as (r & w1 & d1 & Hd1 & H1).
  destruct r as [a|e].
  - destruct (Hk a w1) as (r2 & w2 & d2 & Hd2 & H2).
    exists r2, w2, (d1 ++ d2). split; [now apply Forall_app|].
    intros L. unfold bind. now rewrite H1, H2, app_assoc.
  - exists (Raise e), w1, d1. split; [exact Hd1|].
    intros L. unfold bind. now rewrite H1.
Qed.

Lemma framed_try_except {A} (m : M (St W C) A) (h : exn -> M (St W C) A) :
  framed P m -> (forall e, framed P (h e)) -> framed P (try_except m h).
Proof.
  intros Hm Hh w. destruct (Hm w) as (r & w1 & d1 & Hd1 & H1).
  destruct r as [a|e].
  - exists (Ok a), w1, d1. split; [exact Hd1|].
    intros L. unfold try_except. now rewrite H1.
  - destruct (is_exception e) eqn:Ee.
    + destruct (Hh e w1) as (r2 & w2 & d2 & Hd2 & H2).
      exists r2, w2, (d1 ++ d2). split; [now apply Forall_app|].
      intros L. unfold try_except. now rewrite H1, Ee, H2, app_assoc.
    + exists (Raise e), w1, d1. split; [exact Hd1|].
      intros L. unfold try_except. now rewrite H1, Ee.
Qed.

Lemma framed_for_each {A} (l : list A) (body : A -> M (St W C) unit) :
  (forall a, In a l -> framed P (body a)) -> framed P (for_each l body).
Proof.
  induction l as [|a l IH]; intros H; cbn [for_each].
  - apply framed_ret.
  - apply framed_bind; [apply H; now left|].
    intros _. apply IH. intros b Hb. apply H. now right.
Qed.

End Framed.

Lemma framed_weaken {W C A} (P Q : C * outcome -> Prop) (m : M (St W C) A) :
  (forall e, P e -> Q e) -> framed P m -> framed Q m.
Proof.
  intros HPQ Hm w. destruct (Hm w) as (r & w' & d & Hd & H).
  exists r, w', d. split; [|exact H].
  eapply Forall_impl; [exact HPQ|exact Hd].
Qed.

End EffFacts.

(** ** Orchestration *)

Module OrchestratorFacts.
Import Orchestrator EffFacts.

(** *** Failure isolation *)

Lemma validated_app l1 l2 : validated (l1 ++ l2) = validated l1 ++ validated l2.
Proof. apply flat_map_app. Qed.

Lemma validated_ok_app l1 l2 :
  validated_ok (l1 ++ l2) = validated_ok l1 ++ validated_ok l2.
Proof. apply flat_map_app. Qed.

Lemma backed_up_app l1 l2 : backed_up (l1 ++ l2) = backed_up l1 ++ backed_up l2.
Proof. apply flat_map_app. Qed.

Lemma raised_app l1 l2 : raised (l1 ++ l2) = raised l1 ++ raised l2.
Proof. apply flat_map_app. Qed.

Lemma errors_logged_app l1 l2 :
  errors_logged (l1 ++ l2) = errors_logged l1 ++ errors_logged l2.
Proof. apply flat_map_app. Qed.

(** An exception after which the loop goes on to the next instance:
    graceful errors are on and the exception is an instance of
    [Exception]. *)
Definition tolerated (graceful : bool) (e : exn) : bool :=
  graceful && is_exception e.

(** Validate an instance and, when that returned, back it up. *)
Definition attempt {W} (i : Instance W) (w : W) : result unit * W :=
  match instance_validate i w with
  | (Ok _, w1) => instance_backup i w1
  | (Raise e, w1) => (Raise e, w1)
  end.

(** Failure isolation in the words of the specification: the instances
    are attempted in turn; an exception that is tolerated is passed
    over and the next instance attempted, any other exception comes
    out and halts the remaining instances. *)
Fixpoint isolated_run {W} (graceful : bool) (instances : list (Instance W))
         (w : W) : result unit * W :=
  match instances with
  | [] => (Ok tt, w)
  | i :: rest =>
      match attempt i w with
      | (Ok _, w1) => isolated_run graceful rest w1
      | (Raise e, w1) =>
          if tolerated graceful e then isolated_run graceful rest w1
          else (Raise e, w1)
      end
  end.

Section Loop.
Context {W : Type} (graceful : bool).

(** One round of the third loop: what it does to the world is the
    attempt on the instance, and what it logs are that attempt's
    calls. *)
Lemma run_instance_log (c : BackupInterfaceConfig) (i : Instance W)
      (st : St W call) :
  let '(r, st') := run_instance graceful (c, i) st in
  exists d,
    log st' = log st ++ d /\
    validated d = [c] /\
    backed_up d = validated_ok d /\
    match attempt i (world st) with
    | (Ok _, w') =>
        r = Ok tt /\ world st' = w' /\ raised d = [] /\ errors_logged d = []
    | (Raise e, w') =>
        world st' = w' /\ raised d = [(c, e)] /\
        if tolerated graceful e
        then r = Ok tt /\ errors_logged d = [(c, e)]
        else r = Raise e /\ errors_logged d = []
    end.
Proof.
  unfold run_instance, try_except, bind, invoke, note, invoke, raise,
    attempt, tolerated.
  destruct (instance_validate i (world st)) as [[[]|e] w1]; cbn [world log].
  - destruct (instance_backup i w1) as [[[]|e] w2]; cbn [world log outcome_of].
    + exists [(validate c, Returned); (backup c, Returned)].
      rewrite <- app_assoc. cbn. repeat split; reflexivity.
    + destruct graceful, (is_exception e); cbn [andb world log outcome_of];
        eexists; (split; [rewrite <- ?app_assoc; reflexivity|]); cbn;
        repeat split; reflexivity.
  - destruct graceful, (is_exception e); cbn [andb world log outcome_of];
      eexists; (split; [rewrite <- ?app_assoc; reflexivity|]); cbn;
      repeat split; reflexivity.
Qed.

End Loop.

(** What the specification asks for with graceful errors on: whatever a
    [validate] or a [backup] raises, the loop returns, having validated
    every instance. *)
Definition isolates_every_failure {W}
  (instances : list (BackupInterfaceConfig * Instance W)) (w : W) : Prop :=
  let '(r, st') := run_instances true instances (start w) in
  r = Ok tt /\ validated (log st') = map fst instances.

Definition source (identifier : pystr) : BackupInterfaceConfig :=
  {| interface := identifier; enabled := true; extra := [] |}.

(** An instance whose validation is interrupted from the keyboard, and
    one that is in order. *)
Definition interrupted_instance : Instance unit :=
  {| instance_validate := fun w => (Raise KeyboardInterrupt, w);
     instance_backup := fun w => (Ok tt, w) |}.

Definition sound_instance : Instance unit :=
  {| instance_validate := fun w => (Ok tt, w);
     instance_backup := fun w => (Ok tt, w) |}.

(** [KeyboardInterrupt] is no [Exception]: with graceful errors on it
    comes out of the loop all the same, and the second instance is not
    validated. *)
Lemma interrupt_ends_graceful_run :
  ~ isolates_every_failure
      [(source (s "sources.First"), interrupted_instance);
       (source (s "sources.Second"), sound_instance)] tt.
Proof.
  unfold isolates_every_failure. vm_compute. intros [H _]. discriminate H.
Qed.

(** C5, as the code has it.  The loop over the instances validates and,
    when that returned, backs up each instance in turn: its outcome and
    what it does to the world are those of the isolated run of the
    instances.  An exception raised by a [validate] or a [backup] is
    tolerated when graceful errors are on and it is an instance of
    [Exception]: it is then logged as an error, and the loop goes on
    with the next instance.  Any other exception, every one with
    graceful errors off and [KeyboardInterrupt] and [SystemExit] also
    with graceful errors on, is not logged and comes out of the loop:
    the instance that raised it is the last one validated, and no
    instance after it is validated or backed up.  A loop that returns
    has validated every instance. *)
Theorem failure_isolation {W} (graceful : bool)
  (instances : list (BackupInterfaceConfig * Instance W)) (st : St W call) :
  let '(r, st') := run_instances graceful instances st in
  (r, world st') = isolated_run graceful (map snd instances) (world st) /\
  exists d,
    log st' = log st ++ d /\
    backed_up d = validated_ok d /\
    errors_logged d
    = filter (fun ce => tolerated graceful (snd ce)) (raised d) /\
    match r with
    | Ok _ =>
        validated d = map fst instances /\
        Forall (fun ce => tolerated graceful (snd ce) = true) (raised d)
    | Raise e =>
        tolerated graceful e = false /\
        exists before c i after earlier,
          instances = before ++ (c, i) :: after /\
          validated d = map fst before ++ [c] /\
          raised d = earlier ++ [(c, e)] /\
          Forall (fun ce => tolerated graceful (snd ce) = true) earlier
    end.
Proof.
  unfold run_instances. revert st.
  induction instances as [|[c i] instances IH]; intros st.
  - cbn. split; [reflexivity|]. exists []. rewrite app_nil_r.
    repeat split; constructor.
  - cbn [for_each map snd isolated_run]. unfold bind.
    pose proof (run_instance_log graceful c i st) as H1.
    destruct (run_instance graceful (c, i) st) as [r1 st1].
    destruct H1 as (d1 & Hl1 & Hv1 & Hb1 & Ha).
    destruct (attempt i (world st)) as [[[]|e] w1].
    + destruct Ha as (-> & Hw & Hr1 & He1). specialize (IH st1).
      rewrite Hw in IH.
      destruct (for_each instances (run_instance graceful) st1) as [r st2].
      destruct IH as [Hrun (d2 & Hl2 & Hb2 & He2 & Hm)].
      split; [exact Hrun|]. exists (d1 ++ d2).
      rewrite backed_up_app, validated_ok_app, errors_logged_app, raised_app,
        validated_app, Hr1, He1, Hv1.
      split; [now rewrite Hl2, Hl1, app_assoc|].
      split; [congruence|]. split; [exact He2|].
      destruct r as [[]|e].
      * destruct Hm as [-> Hm]. auto.
      * destruct Hm as (Ht & before & c' & i' & after & earlier
                           & -> & -> & -> & Hearlier).
        split; [exact Ht|].
        exists ((c, i) :: before), c', i', after, earlier. auto.
    + destruct Ha as (Hw & Hr1 & Ht).
      destruct (tolerated graceful e) eqn:Et.
      * destruct Ht as [-> He1]. specialize (IH st1). rewrite Hw in IH.
        destruct (for_each instances (run_instance graceful) st1) as [r st2].
        destruct IH as [Hrun (d2 & Hl2 & Hb2 & He2 & Hm)].
        split; [exact Hrun|]. exists (d1 ++ d2).
        rewrite backed_up_app, validated_ok_app, errors_logged_app, raised_app,
          validated_app, Hr1, He1, Hv1.
        split; [now rewrite Hl2, Hl1, app_assoc|].
        split; [congruence|]. split.
        { cbn [app filter snd]. rewrite Et, He2. reflexivity. }
        destruct r as [[]|e'].
        -- destruct Hm as [-> Hm]. split; [reflexivity|].
           constructor; [exact Et|exact Hm].
        -- destruct Hm as (Ht & before & c' & i' & after & earlier
                             & -> & -> & -> & Hearlier).
           split; [exact Ht|].
           exists ((c, i) :: before), c', i', after, ((c, e) :: earlier).
           repeat split; trivial. constructor; [exact Et|exact Hearlier].
      * destruct Ht as [-> He1].
        split; [now rewrite Hw|]. exists d1.
        rewrite Hr1, He1, Hv1. cbn [filter snd]. rewrite Et.
        repeat split; trivial.
        exists [], c, i, instances, []. repeat split; constructor.
Qed.

(** *** Resolution, construction and the disabled interfaces *)

(** The log lines of the first loop. *)
Definition skip_notes (l : list BackupInterfaceConfig) : list (call * outcome) :=
  map (fun c => (log_disabled_interface c, Returned))
      (filter (fun c => negb (enabled c)) l).

(** A call that is no skip note and is about one of [configs], if about
    a backup interface at all. *)
Definition concerns (configs : list BackupInterfaceConfig)
           (e : call * outcome) : Prop :=
  is_skip_note (fst e) = false /\
  forall c, subject (fst e) = Some c -> In c configs.

Section Run.
Context {W SI : Type} (import_module : pystr -> result (PyModule W SI)).
Context (graceful : bool).

(** What [get_class] raises: its own [ImportError] for a module that
    cannot be imported or a class the module does not have, the
    [ValueError] of the unpacking for an identifier without a dot, or
    whatever else the import raised. *)
Lemma get_class_raises cls e :
  get_class import_module cls = Raise e ->
  (exists msg, e = ImportError msg) \/
  (rfind cls "." < 0 /\ exists msg, e = ValueError msg) \/
  (exists module_path, import_module module_path = Raise e).
Proof.
  unfold get_class, rsplit1.
  destruct (rfind cls "." <? 0) eqn:E.
  - intros [= <-]. right. left. apply Z.ltb_lt in E. eauto.
  - destruct (import_module _) as [module|e'] eqn:Hi.
    + destruct (module _); [discriminate|]. intros [= <-]. eauto.
    + destruct e'; intros [= <-]; eauto.
Qed.

Lemma select_enabled_run l : forall (w : W) L,
  select_enabled l (Build_St w L)
  = (Ok (filter enabled l), Build_St w (L ++ skip_notes l)).
Proof.
  induction l as [|c l IH]; intros w L; cbn [select_enabled].
  - unfold ret. now rewrite app_nil_r.
  - unfold bind at 1. unfold skip_notes. cbn [filter].
    destruct (enabled c); cbn [negb map].
    + unfold ret at 1. unfold bind. rewrite IH. reflexivity.
    + unfold note, invoke. cbn [world log outcome_of].
      unfold bind. rewrite IH. unfold ret, skip_notes.
      now rewrite <- app_assoc.
Qed.

Lemma make_instances_framed si configs :
  framed (fun e => concerns configs e /\ is_validate_or_backup (fst e) = false)
         (make_instances import_module si configs).
Proof.
  induction configs as [|c configs IH]; cbn [make_instances].
  - apply framed_ret.
  - apply framed_bind; [apply framed_lift|]. intros cls.
    apply framed_bind.
    { apply framed_invoke. intros o. repeat split.
      intros c' [= <-]. now left. }
    intros i. apply framed_bind; [|intros; apply framed_ret].
    eapply framed_weaken; [|exact IH].
    intros e [[Hs Hc] Hv]. repeat split; trivial.
    intros c' Hc'. right. now apply Hc.
Qed.

(** The second loop returns instances for all configurations, or raises
    what a resolution or a constructor raised. *)
Lemma make_instances_result si configs : forall st,
  let '(r, st') := make_instances import_module si configs st in
  match r with
  | Ok instances => map fst instances = configs
  | Raise e =>
      (exists c, In c configs /\
                 get_class import_module (interface c) = Raise e) \/
      (exists c, In (new_interface c, Raised e) (log st'))
  end /\
  ((exists c, In c configs /\
              is_ok (get_class import_module (interface c)) = false) ->
   is_ok r = false).
Proof.
  induction configs as [|c configs IH]; intros st; cbn [make_instances].
  - cbn. split; [reflexivity|]. now intros (c & [] & _).
  - unfold bind at 1. unfold lift at 1.
    destruct (get_class import_module (interface c)) as [cls|e] eqn:Hg.
    + unfold bind at 1. unfold invoke at 1.
      destruct (construct_interface cls c si (world st)) as [[i|e] w1].
      * cbn [outcome_of]. unfold bind at 1.
        match goal with
        | |- context [make_instances _ _ _ ?s] => specialize (IH s)
        end.
        destruct (make_instances import_module si configs _)
          as [[instances|e] st2]; destruct IH as [IH1 IH2].
        -- unfold ret. split; [cbn; now f_equal|].
           intros (c' & [<-|Hin] & Hc').
           ++ rewrite Hg in Hc'. discriminate.
           ++ apply IH2. eauto.
        -- split; [|reflexivity].
           destruct IH1 as [(c' & Hin & Hc')|(c' & Hin)]; [left|right]; eauto.
           exists c'. split; [now right|exact Hc'].
      * split; [|reflexivity]. right. exists c. cbn [log outcome_of].
        apply in_or_app. right. now left.
    + split; [|reflexivity]. left. exists c. split; [now left|exact Hg].
Qed.

Lemma run_instances_framed (instances : list (BackupInterfaceConfig * Instance W)) :
  framed (concerns (map fst instances)) (run_instances graceful instances).
Proof.
  unfold run_instances. apply framed_for_each. intros [c i] Hin.
  assert (In c (map fst instances)) as Hc
      by (change c with (fst (c, i)); now apply in_map).
  unfold run_instance. apply framed_try_except.
  - apply framed_bind; [|intros _];
      (apply framed_invoke; intros o; split; [reflexivity|];
       intros c' [= <-]; exact Hc).
  - intros e. destruct graceful; [|apply framed_raise].
    apply framed_note. intros o. split; [reflexivity|]. discriminate.
Qed.

(** A run of [run_backup]: its outcome and its calls, the skip notes
    apart, depend on the storage configuration and the enabled backup
    interfaces only. *)
Lemma run_backup_frame storage_config configs (w : W) :
  exists r w' pre d (reached : bool),
    Forall (concerns configs) (pre ++ d) /\
    forall config,
      storage config = storage_config ->
      filter enabled (interfaces config) = configs ->
      run_backup import_module graceful config (start w)
      = (r, Build_St w' (pre ++ (if reached
                                 then skip_notes (interfaces config)
                                 else []) ++ d)).
Proof.
  destruct (get_class import_module (storage_interface storage_config))
    as [cls|e] eqn:Hg.
  - destruct (construct_storage cls storage_config w) as [[si|e] w1] eqn:Hs.
    + destruct (make_instances_framed si configs w1)
        as (r2 & w2 & d2 & Hd2 & H2).
      assert (Forall (concerns configs) d2) as Hd2'
          by (eapply Forall_impl; [|exact Hd2]; now intros e []).
      pose proof (make_instances_result si configs
                    (Build_St w1 [(new_storage storage_config, Returned)]))
        as Hr.
      rewrite H2 in Hr. destruct Hr as [Hr _].
      destruct r2 as [instances|e].
      * destruct (run_instances_framed instances w2)
          as (r3 & w3 & d3 & Hd3 & H3).
        rewrite Hr in Hd3.
        exists r3, w3, [(new_storage storage_config, Returned)], (d2 ++ d3), true.
        split.
        { constructor; [split; [reflexivity|discriminate]|].
          now apply Forall_app. }
        intros config <- Hc. unfold run_backup, bind, lift, invoke, start.
        cbn [world log]. rewrite Hg, Hs. cbn [outcome_of app].
        rewrite select_enabled_run, Hc, H2, H3.
        cbn [app]. now rewrite <- ?app_assoc.
      * exists (Raise e), w2, [(new_storage storage_config, Returned)], d2, true.
        split; [constructor; [split; [reflexivity|discriminate]|exact Hd2']|].
        intros config <- Hc. unfold run_backup, bind, lift, invoke, start.
        cbn [world log]. rewrite Hg, Hs. cbn [outcome_of app].
        rewrite select_enabled_run, Hc, H2.
        cbn [app]. now rewrite <- ?app_assoc.
    + exists (Raise e), w1, [(new_storage storage_config, Raised e)], [], false.
      split; [repeat constructor; discriminate|].
      intros config <- Hc. unfold run_backup, bind, lift, invoke, start.
      cbn [world log]. now rewrite Hg, Hs.
  - exists (Raise e), w, [], [], false. split; [constructor|].
    intros config <- Hc. unfold run_backup, bind, lift.
    now rewrite Hg.
Qed.

(** When the storage and all enabled interfaces are resolved and
    constructed, [run_backup] comes to its third loop with one instance
    for each enabled interface, in the order of the configuration. *)
Lemma run_backup_reaches_loop config (w : W) cls si w1 :
  get_class import_module (storage_interface (storage config)) = Ok cls ->
  construct_storage cls (storage config) w = (Ok si, w1) ->
  forall instances st2,
    make_instances import_module si (filter enabled (interfaces config))
      (Build_St w1 ([(new_storage (storage config), Returned)]
                      ++ skip_notes (interfaces config)))
    = (Ok instances, st2) ->
    map fst instances = filter enabled (interfaces config) /\
    run_backup import_module graceful config (start w)
    = run_instances graceful instances st2.
Proof.
  intros Hg Hs instances st2 Hm. split.
  - pose proof (make_instances_result si (filter enabled (interfaces config))
                  (Build_St w1 ([(new_storage (storage config), Returned)]
                                  ++ skip_notes (interfaces config)))) as H.
    rewrite Hm in H. apply H.
  - unfold run_backup, bind, lift, invoke, start. cbn [world log].
    rewrite Hg, Hs. cbn [outcome_of app].
    rewrite select_enabled_run. cbn [app] in *. now rewrite Hm.
Qed.

End Run.

(** *** A test registry *)

Definition plain_instance : Instance unit :=
  {| instance_validate := fun w => (Ok tt, w);
     instance_backup := fun w => (Ok tt, w) |}.

Definition plain_class : PyClass unit unit :=
  {| construct_storage := fun _ w => (Ok tt, w);
     construct_interface := fun _ _ w => (Ok plain_instance, w) |}.

(** One module, [tests.fixtures.interfaces], with the two mock classes
    of the test-suite. *)
Definition test_modules (module_path : pystr) : result (PyModule unit unit) :=
  if str_eqb module_path (s "tests.fixtures.interfaces")
  then Ok (fun class_name =>
             if str_eqb class_name (s "MockBackupInterface")
                || str_eqb class_name (s "MockStorageInterface")
             then Some plain_class else None)
  else Raise (ImportError (s "No module named '" ++ module_path ++ s "'")).

Definition mock_storage_config : StorageInterfaceConfig :=
  {| storage_interface := s "tests.fixtures.interfaces.MockStorageInterface";
     storage_extra := [] |}.

Definition mock_backup (on : bool) : BackupInterfaceConfig :=
  {| interface := s "tests.fixtures.interfaces.MockBackupInterface";
     enabled := on; extra := [] |}.

Definition unknown_backup (on : bool) : BackupInterfaceConfig :=
  {| interface := s "tests.fixtures.interfaces.DoesNotExist";
     enabled := on; extra := [] |}.

Definition test_config (interfaces : list BackupInterfaceConfig) : Config :=
  {| name := s "test"; config_enabled := true;
     storage := mock_storage_config; interfaces := interfaces |}.

(** *** Unknown interfaces *)

(** What the specification asks of a job with an unresolvable backup
    interface: the run fails and nothing is validated or backed up. *)
Definition aborts_on_unresolvable {W SI}
  (import_module : pystr -> result (PyModule W SI)) (graceful : bool)
  (config : Config) (w : W) : Prop :=
  (exists c, In c (interfaces config) /\
             is_ok (get_class import_module (interface c)) = false) ->
  let '(r, st') := run_backup import_module graceful config (start w) in
  is_ok r = false /\
  Forall (fun e => is_validate_or_backup (fst e) = false) (log st').

(** A disabled interface is not resolved: with an unknown identifier in
    a disabled interface the job runs, and the enabled interface is
    validated and backed up. *)
Lemma unresolvable_but_disabled :
  ~ aborts_on_unresolvable test_modules true
      (test_config [unknown_backup false; mock_backup true]) tt.
Proof.
  intros H.
  assert (exists c,
            In c (interfaces (test_config [unknown_backup false;
                                           mock_backup true])) /\
            is_ok (get_class test_modules (interface c)) = false) as Hc.
  { exists (unknown_backup false). split; [now left|reflexivity]. }
  specialize (H Hc). vm_compute in H. destruct H as [H _]. discriminate H.
Qed.

(** C7, as the code has it.  When an enabled backup interface of the
    job has an identifier that [get_class] cannot resolve, [run_backup]
    raises, and no [validate] and no [backup] is called, on no interface.
    Unless the storage class could not be resolved or a constructor
    raised first, the exception is the one [get_class] raised for such an
    identifier: an [ImportError], or the [ValueError] of an identifier
    without a dot, or what the import itself raised. *)
Theorem unresolvable_interface_aborts {W SI}
  (import_module : pystr -> result (PyModule W SI)) (graceful : bool)
  (config : Config) (w : W) :
  (exists c, In c (interfaces config) /\ enabled c = true /\
             is_ok (get_class import_module (interface c)) = false) ->
  let '(r, st') := run_backup import_module graceful config (start w) in
  is_ok r = false /\
  Forall (fun e => is_validate_or_backup (fst e) = false) (log st') /\
  (is_ok (get_class import_module (storage_interface (storage config))) = true ->
   Forall (fun e => snd e = Returned) (log st') ->
   exists c e, In c (interfaces config) /\ enabled c = true /\
               get_class import_module (interface c) = Raise e /\
               r = Raise e /\
               ((exists msg, e = ImportError msg) \/
                (rfind (interface c) "." < 0 /\ exists msg, e = ValueError msg) \/
                (exists module_path, import_module module_path = Raise e))).
Proof.
  intros (c & Hin & Hen & Hbad).
  unfold run_backup, bind at 1, lift at 1.
  destruct (get_class import_module (storage_interface (storage config)))
    as [cls|e].
  2: { cbn. repeat split; [constructor|discriminate]. }
  unfold bind at 1, invoke at 1, start. cbn [world log app].
  destruct (construct_storage cls (storage config) w) as [[si|e] w1].
  2: { cbn [outcome_of]. repeat split; [repeat constructor|].
       intros _ Hret. inversion Hret as [|? ? Hr _]. discriminate Hr. }
  cbn [outcome_of]. unfold bind at 1. rewrite select_enabled_run.
  unfold bind at 1.
  set (configs := filter enabled (interfaces config)).
  set (L := [(new_storage (storage config), Returned)]
              ++ skip_notes (interfaces config)).
  assert (In c configs) as Hc by (apply filter_In; now split).
  destruct (make_instances_framed import_module si configs w1)
    as (r2 & w2 & d2 & Hd2 & H2).
  pose proof (make_instances_result import_module si configs (Build_St w1 L))
    as Hr.
  rewrite H2 in *. destruct Hr as [Hr1 Hr2].
  assert (is_ok r2 = false) as Hfail by (apply Hr2; eauto).
  destruct r2 as [instances|e]; [discriminate|].
  split; [reflexivity|]. split.
  - cbn [log]. apply Forall_app. split.
    + subst L. apply Forall_app. split; [repeat constructor|].
      unfold skip_notes. apply Forall_forall. intros x Hx.
      apply in_map_iff in Hx as (c' & <- & _). reflexivity.
    + eapply Forall_impl; [|exact Hd2]. now intros x [].
  - intros _ Hret. cbn [log] in *.
    destruct Hr1 as [(c' & Hin' & Hc')|(c' & Hin')].
    + apply filter_In in Hin' as [Hin' Hen']. exists c', e.
      pose proof (get_class_raises import_module _ _ Hc'). auto.
    + rewrite Forall_forall in Hret. specialize (Hret _ Hin').
      discriminate Hret.
Qed.

Lemma unresolvable_interface_aborts_witness :
  let config := test_config [mock_backup true; unknown_backup true] in
  let '(r, st') := run_backup test_modules true config (start tt) in
  is_ok r = false /\
  Forall (fun e => is_validate_or_backup (fst e) = false) (log st') /\
  (is_ok (get_class test_modules (storage_interface (storage config))) = true ->
   Forall (fun e => snd e = Returned) (log st') ->
   exists c e, In c (interfaces config) /\ enabled c = true /\
               get_class test_modules (interface c) = Raise e /\
               r = Raise e /\
               ((exists msg, e = ImportError msg) \/
                (rfind (interface c) "." < 0 /\ exists msg, e = ValueError msg) \/
                (exists module_path, test_modules module_path = Raise e))).
Proof.
  intros config.
  apply (unresolvable_interface_aborts test_modules true config tt).
  exists (unknown_backup true). split; [right; now left|]. split; reflexivity.
Defined.

(** *** Disabled jobs and disabled interfaces *)

Lemma filter_skip_notes l :
  filter (fun e => negb (is_skip_note (fst e))) (skip_notes l) = [].
Proof.
  unfold skip_notes. induction (filter _ l) as [|c l' IH]; [reflexivity|].
  exact IH.
Qed.

Lemma filter_concerns configs d :
  Forall (concerns configs) d ->
  filter (fun e => negb (is_skip_note (fst e))) d = d.
Proof.
  induction 1 as [|e d [He _] _ IH]; [reflexivity|].
  cbn [filter]. rewrite He. cbn [negb]. now rewrite IH.
Qed.

Lemma filter_enabled_twice l :
  filter enabled (filter enabled l) = filter enabled l.
Proof.
  induction l as [|c l IH]; [reflexivity|]. cbn [filter].
  destruct (enabled c) eqn:E; [|exact IH]. cbn [filter]. now rewrite E, IH.
Qed.

Lemma skip_notes_enabled l : skip_notes (filter enabled l) = [].
Proof.
  unfold skip_notes. induction l as [|c l IH]; [reflexivity|]. cbn [filter].
  destruct (enabled c) eqn:E; [|exact IH]. cbn [filter]. now rewrite E.
Qed.

(** C9.  A job whose configuration is disabled does nothing but log
    that.  In every run, every interface that is constructed, validated
    or backed up is an enabled one of the job; and the run ends as, and
    makes the calls of, the run of the same job without its disabled
    interfaces, apart from a log line for each of them. *)
Theorem disabled_is_skipped {W SI}
  (import_module : pystr -> result (PyModule W SI)) (graceful : bool)
  (config : Config) (w : W) :
  let '(r, st') := run_backups import_module graceful config (start w) in
  (config_enabled config = false ->
   r = Ok tt /\ world st' = w /\
   log st' = [(log_backup_disabled (name config), Returned)]) /\
  (forall call o c,
     In (call, o) (log st') -> subject call = Some c ->
     enabled c = true /\ In c (interfaces config)) /\
  run_backups import_module graceful
    (with_interfaces config (filter enabled (interfaces config))) (start w)
  = (r, Build_St (world st')
                 (filter (fun e => negb (is_skip_note (fst e))) (log st'))).
Proof.
  unfold run_backups. cbn [with_interfaces config_enabled name].
  destruct (config_enabled config); cbn [negb].
  - destruct (run_backup_frame import_module graceful (storage config)
                (filter enabled (interfaces config)) w)
      as (r & w' & pre & d & reached & HF & H).
    rewrite (H config eq_refl eq_refl).
    rewrite (H (with_interfaces config (filter enabled (interfaces config)))
               eq_refl (filter_enabled_twice _)).
    cbn [with_interfaces interfaces world log].
    apply Forall_app in HF as [Hpre Hd].
    split; [discriminate|]. split.
    + intros call o c Hin Hsub.
      assert (In c (filter enabled (interfaces config))) as Hc.
      { apply in_app_or in Hin as [Hin|Hin];
          [|apply in_app_or in Hin as [Hin|Hin]].
        - rewrite Forall_forall in Hpre. now apply (Hpre _ Hin).
        - destruct reached; [|destruct Hin].
          apply in_map_iff in Hin as (c' & [= <- _] & _). discriminate Hsub.
        - rewrite Forall_forall in Hd. now apply (Hd _ Hin). }
      apply filter_In in Hc. tauto.
    + rewrite !filter_app, (filter_concerns _ _ Hpre), (filter_concerns _ _ Hd).
      rewrite skip_notes_enabled.
      destruct reached; [rewrite filter_skip_notes|]; reflexivity.
  - cbn. split; [auto|]. split; [|reflexivity].
    intros call o c [[= <- _]|[]]. discriminate.
Qed.

Lemma disabled_is_skipped_witness :
  let config :=
    with_interfaces (test_config [])
                    [unknown_backup false; mock_backup true; mock_backup false] in
  let '(r, st') := run_backups test_modules true config (start tt) in
  (config_enabled config = false ->
   r = Ok tt /\ world st' = tt /\
   log st' = [(log_backup_disabled (name config), Returned)]) /\
  (forall call o c,
     In (call, o) (log st') -> subject call = Some c ->
     enabled c = true /\ In c (interfaces config)) /\
  run_backups test_modules true
    (with_interfaces config (filter enabled (interfaces config))) (start tt)
  = (r, Build_St (world st')
                 (filter (fun e => negb (is_skip_note (fst e))) (log st'))).
Proof.
  intros config. exact (disabled_is_skipped test_modules true config tt).
Defined.

End OrchestratorFacts.

(** ** Directory backups: the temporary archive *)

Module DirectoryFacts.
Import Storage Naming Directories EffFacts.

(** The calls of the retention handler are [list] and [delete] calls on
    the storage. *)
Definition retention_call (e : call * outcome) : Prop :=
  exists p, fst e = on_storage (storage_list p)
            \/ fst e = on_storage (storage_delete p).



Lemma not_retention_call_remove p o : ~ retention_call (os_remove p, o).
Proof. intros (q & [H|H]); discriminate H. Qed.

Lemma not_retention_call_exec c o : ~ retention_call (exec_command c, o).
Proof. intros (q & [H|H]); discriminate H. Qed.

Lemma not_retention_call_close o : ~ retention_call (sftp_close, o).
Proof. intros (q & [H|H]); discriminate H. Qed.


(** A storage that refuses every upload, and a local machine without
    surprises. *)
Definition refusing_storage : StorageInterface unit :=
  {| exists_ := fun _ w => (Ok true, w);
     create := fun _ w => (Ok tt, w);
     upload := fun _ _ _ w => (Raise (OtherError (s "ServiceRequestError")), w);
     delete := fun _ w => (Ok tt, w);
     list_ := fun _ w => (Ok [], w) |}.

Definition quiet_machine : LocalMachine unit :=
  {| shutil_make_archive := fun src w => (Ok (src ++ s ".tar.gz"), w);
     builtin_open := fun _ w => (Ok [], w);
     os_path_getsize := fun _ w => (Ok 0, w);
     os_remove_file := fun _ w => (Ok tt, w);
     clock := fun w => (NamingFacts.new_year, w) |}.









End DirectoryFacts.

(** ** The test-suite of the repository, on the embedding *)

Module TestSuite.
Import Upload Storage Naming Directories Orchestrator.
Import UploadFacts RetentionFacts OrchestratorFacts.

(** [test_upload] (azure): 100 bytes in chunks of 25 with 2 workers give
    4 [stage_block] calls and 1 [commit_block_list] call. *)
Example test_upload_azure :
  let st := snd (Upload.upload accepting_service test_settings [1; 1]%nat
                               (repeat Byte.x00 100) 100 (s "uploaded_file")
                               false (start tt)) in
  length (staged (log st)) = 4%nat /\ length (committed (log st)) = 1%nat /\
  committed (log st)
  = [[s "0000000000000000"; s "0000000000000025";
      s "0000000000000050"; s "0000000000000075"]].
Proof. vm_compute. auto. Qed.

(** [test_upload] (local): the uploaded file has the content of the
    source, here with chunks of 4 bytes completing out of order. *)
Example test_upload_local :
  let file_data := map byte_of_ascii (s "test data") in
  local_upload {| BACKUP_UPLOAD_CHUNK_SIZE := 4; BACKUP_UPLOAD_CONCURRENCY := 2 |}
               [2; 0; 0]%nat file_data 9 (map byte_of_ascii (s "old content"))
  = (Ok tt, file_data).
Proof. vm_compute. reflexivity. Qed.

(** [test_list] (azure). *)
Example test_list_azure :
  azure_list [s "path_to_list/blob1"; s "path_to_list/blob2";
              s "path_to_list/blob3"] (s "path_to_list")
  = [s "path_to_list/blob3"; s "path_to_list/blob2"; s "path_to_list/blob1"].
Proof. vm_compute. reflexivity. Qed.

(** [test_list] (local). *)
Example test_list_local :
  local_list [s "file2"; s "file1"; s "file3"] (s "/tmp/pytest")
  = [s "/tmp/pytest/file3"; s "/tmp/pytest/file2"; s "/tmp/pytest/file1"].
Proof. vm_compute. reflexivity. Qed.

(** [test_interface_storage_default_retention]: of five backups and a
    count of 3, [backup4] and [backup5] are deleted. *)
Example test_default_retention :
  deletes (log (snd (retention
                       (mock_storage [s "backup1"; s "backup2"; s "backup3";
                                      s "backup4"; s "backup5"])
                       (fun c => c) (s "/test/backup") {| count := 3 |}
                       (start tt))))
  = [s "backup4"; s "backup5"].
Proof. vm_compute. reflexivity. Qed.

(** [test_archive]. *)
Example test_archive_extension :
  extension_of (s "/path/to/archive.tar.gz") = s "tar.gz".
Proof. vm_compute. reflexivity. Qed.

(** [test_get_class_success], [test_get_class_invalid_module] and
    [test_get_class_invalid_class]. *)
Example test_get_class :
  is_ok (get_class test_modules (s "tests.fixtures.interfaces.MockBackupInterface"))
  = true /\
  get_class test_modules (s "tests.utils.module_does_not_exist.TestClass")
  = Raise (ImportError
             (s "unable to import module 'tests.utils.module_does_not_exist'")) /\
  get_class test_modules (s "tests.fixtures.interfaces.TestClassDoesNotExist")
  = Raise (ImportError
             (s "class 'TestClassDoesNotExist' not found in module 'tests.fixtures.interfaces'")).
Proof. vm_compute. auto. Qed.

(** The example of the docstring of [get_backup_name]. *)
Example test_get_backup_name :
  get_backup_name {| year := 2024; month := 10; day := 6;
                     hour := 9; minute := 24; second := 10 |} (s "backup")
  = s "backup_2024-10-06T09-24-10".
Proof. vm_compute. reflexivity. Qed.

(** A run of two interfaces of which the first fails validation: with
    graceful errors the second is validated and backed up, without them
    it is not. *)
Definition failing_instance : Instance unit :=
  {| instance_validate := fun w => (Raise (ValueError (s "directory")), w);
     instance_backup := fun w => (Ok tt, w) |}.

Example test_graceful_errors :
  let instances := [(unknown_backup true, failing_instance);
                    (mock_backup true, plain_instance)] in
  (let '(r, st) := run_instances true instances (start tt) in
   r = Ok tt /\ backed_up (log st) = [mock_backup true] /\
   errors_logged (log st)
   = [(unknown_backup true, ValueError (s "directory"))]) /\
  (let '(r, st) := run_instances false instances (start tt) in
   r = Raise (ValueError (s "directory")) /\
   validated (log st) = [unknown_backup true] /\ backed_up (log st) = []).
Proof. vm_compute. auto 10. Qed.

(** Two names that differ in the case of an accented letter, U+00C9
    and U+00E9, and in the extension have one sort key: they are listed
    in the order in which the directory gave them. *)
Example test_list_accents :
  let upper_e := ascii_of_N 201 :: s ".tar" in
  let lower_e := ascii_of_N 233 :: s ".zip" in
  sort_key upper_e = sort_key lower_e /\
  local_list [upper_e; lower_e] [] = [upper_e; lower_e] /\
  local_list [lower_e; upper_e] [] = [lower_e; upper_e].
Proof. vm_compute. auto. Qed.

End TestSuite.

(* ===================================================================== *)
(** * Part III. More of the code                                          *)
(* ===================================================================== *)

(** ** The upload: content, progress and the settings *)

Module UploadMore.
Import Upload ChunkPlan StrFacts UploadFacts.

(** The blocks of the [stage_block] calls in a call log, with their
    data. *)
Definition staged_blocks (l : list (call * outcome)) : list (pystr * bytes) :=
  flat_map (fun c => match fst c with
                     | stage_block id data => [(id, data)]
                     | _ => []
                     end) l.

(** The data passed to [stage_block] under a block identifier (the
    first such call, should there be several). *)
Definition block_data (blocks : list (pystr * bytes)) (id : pystr) : bytes :=
  match find (fun b => str_eqb (fst b) id) blocks with
  | Some b => snd b
  | None => []
  end.

(** The number of bytes reported to the progress bar. *)
Definition progress_total (l : list (call * outcome)) : Z :=
  sum (flat_map (fun c => match fst c with
                          | progress_update n => [n]
                          | _ => []
                          end) l).

(** The number of bytes handed to [stage_block] calls that raised. *)
Definition failed_bytes (l : list (call * outcome)) : Z :=
  sum (flat_map (fun c => match c with
                          | (stage_block _ data, Raised _) =>
                              [Z.of_nat (length data)]
                          | _ => []
                          end) l).

(** The number of bytes of a list of blocks. *)
Definition block_bytes (blocks : list (pystr * bytes)) : Z :=
  sum (map (fun b => Z.of_nat (length (snd b))) blocks).

(** A chunk lies within the first [S] bytes. *)
Definition within (S : Z) (c : Z * Z) : Prop :=
  0 <= fst c /\ 0 <= snd c /\ fst c + snd c <= S.

(** The destination agrees with the source on the chunks written, and
    is no longer than [S] bytes. *)
Definition written (file : bytes) (S : Z) (done : list (Z * Z)) (dst : bytes)
  : Prop :=
  (length dst <= Z.to_nat S)%nat /\
  forall c, In c done ->
    within S c /\
    forall i, (Z.to_nat (fst c) <= i < Z.to_nat (fst c) + Z.to_nat (snd c))%nat ->
      nth_error dst i = nth_error file i.

(** *** The pool, for any invariant *)

Lemma run_pool_invariant {S A} (task : A -> M S unit) (good : A -> Prop)
      (I : list A -> S -> Prop) :
  (forall done done' st, Permutation done done' -> I done st -> I done' st) ->
  (forall done c st, good c -> I done st -> I (c :: done) (snd (task c st))) ->
  forall n cs choices st done,
    length cs = n -> Forall good cs -> I done st ->
    I (cs ++ done) (snd (run_pool n choices (map task cs) st)).
Proof.
  intros Hperm Hstep.
  induction n as [|n IH]; intros cs choices st done Hn Hgood HI.
  - destruct cs; [exact HI|discriminate].
  - cbn [run_pool]. rewrite length_map.
    set (k := Nat.modulo (hd 0%nat choices) (length cs)).
    assert (k < length cs)%nat as Hk by (apply Nat.mod_upper_bound; lia).
    destruct (nth_error cs k) as [c|] eqn:Ec;
      [|apply nth_error_None in Ec; lia].
    rewrite nth_error_map, Ec. cbn [option_map].
    assert (good c) as Hc
        by (rewrite Forall_forall in Hgood; eapply Hgood, nth_error_In, Ec).
    pose proof (Hstep done c st Hc HI) as H1.
    destruct (task c st) as [r st1]. cbn [snd] in H1.
    rewrite remove_nth_map.
    pose proof (remove_nth_perm cs k c Ec) as Hp.
    assert (Forall good (remove_nth k cs)) as Hgood'.
    { eapply Permutation_Forall in Hgood; [|exact Hp].
      now inversion Hgood. }
    specialize (IH (remove_nth k cs) (tl choices) st1 (c :: done)
                   ltac:(rewrite length_remove_nth by exact Hk; lia)
                   Hgood' H1).
    destruct (run_pool n (tl choices) (map task (remove_nth k cs)) st1)
      as [rs st2]. cbn [snd] in *.
    eapply Hperm; [|exact IH].
    transitivity ((c :: remove_nth k cs) ++ done).
    + symmetry. apply Permutation_middle.
    + apply Permutation_app_tail. symmetry. exact Hp.
Qed.

(** *** Chunks and the bytes of the file *)

Lemma plan_within S C plan :
  0 <= S -> 0 < C -> chunk_plan S C = Ok plan -> Forall (within S) plan.
Proof.
  intros HS HC. rewrite chunk_plan_closed by assumption. intros [= <-].
  pose proof (ceil_div_bounds S C HC) as Bd.
  apply Forall_forall. intros c Hc.
  apply in_map_iff in Hc as (k & <- & Hk). apply in_seq in Hk.
  unfold within. cbn [fst snd]. nia.
Qed.

(** Every byte of the file lies in a chunk of the plan. *)
Lemma plan_covers S C plan i :
  0 < C -> chunk_plan S C = Ok plan -> 0 <= i < S ->
  exists c, In c plan /\ fst c <= i < fst c + snd c.
Proof.
  intros HC Hplan Hi. rewrite chunk_plan_closed in Hplan by lia.
  injection Hplan as <-.
  pose proof (ceil_div_bounds S C HC) as Bd.
  pose proof (Z.div_mod i C ltac:(lia)) as Hdm.
  pose proof (Z.mod_pos_bound i C HC) as Hm.
  assert (0 <= i / C) as Hq by (apply Z.div_pos; lia).
  exists (i / C * C, Z.min C (S - i / C * C)). split.
  - apply in_map_iff. exists (Z.to_nat (i / C)).
    rewrite Z2Nat.id by exact Hq. split; [reflexivity|].
    apply in_seq. nia.
  - cbn [fst snd]. nia.
Qed.

Lemma length_read_at file off len :
  0 <= off -> 0 <= len -> off + len <= Z.of_nat (length file) ->
  length (read_at file off len) = Z.to_nat len.
Proof.
  intros. unfold read_at. rewrite length_firstn, length_skipn. lia.
Qed.

Lemma nth_error_read_at file off len i :
  (i < Z.to_nat len)%nat ->
  nth_error (read_at file off len) i = nth_error file (Z.to_nat off + i).
Proof.
  intros Hi. unfold read_at. rewrite nth_error_firstn, nth_error_skipn.
  destruct (Nat.ltb_spec i (Z.to_nat len)); [reflexivity|lia].
Qed.

Lemma length_write_at dst off data :
  length (write_at dst off data)
  = Nat.max (length dst) (Z.to_nat off + length data).
Proof.
  unfold write_at.
  rewrite !length_app, length_firstn, length_app, repeat_length, length_skipn.
  lia.
Qed.

Lemma nth_error_write_at dst off data i :
  nth_error (write_at dst off data) i
  = if (i <? Z.to_nat off)%nat
    then nth_error (dst ++ repeat Byte.x00 (Z.to_nat off - length dst)) i
    else if (i <? Z.to_nat off + length data)%nat
         then nth_error data (i - Z.to_nat off)
         else nth_error dst i.
Proof.
  unfold write_at. set (o := Z.to_nat off).
  assert (length (firstn o (dst ++ repeat Byte.x00 (o - length dst))) = o) as Hl
      by (rewrite length_firstn, length_app, repeat_length; lia).
  rewrite nth_error_app, Hl.
  destruct (Nat.ltb_spec i o) as [Hlt|Hge].
  - rewrite nth_error_firstn.
    destruct (Nat.ltb_spec i o); [reflexivity|lia].
  - rewrite nth_error_app.
    destruct (Nat.ltb_spec (i - o) (length data)) as [H1|H1];
      destruct (Nat.ltb_spec i (o + length data)); try lia; [reflexivity|].
    rewrite nth_error_skipn. f_equal. lia.
Qed.

(** Writing a chunk keeps what was written and adds the chunk. *)
Lemma write_chunk_written file S done c dst :
  S <= Z.of_nat (length file) ->
  within S c ->
  written file S done dst ->
  written file S (c :: done)
          (write_at dst (fst c) (read_at file (fst c) (snd c))).
Proof.
  intros HS Hc [Hlen Hdone]. pose proof Hc as (H0 & H1 & H2).
  pose proof (length_read_at file (fst c) (snd c) H0 H1 ltac:(lia)) as Hr.
  split.
  - rewrite length_write_at, Hr. lia.
  - assert (forall i,
              (Z.to_nat (fst c) <= i < Z.to_nat (fst c) + Z.to_nat (snd c))%nat ->
              nth_error (write_at dst (fst c) (read_at file (fst c) (snd c))) i
              = nth_error file i) as Hnew.
    { intros i Hi. rewrite nth_error_write_at, Hr.
      destruct (Nat.ltb_spec i (Z.to_nat (fst c))); [lia|].
      destruct (Nat.ltb_spec i (Z.to_nat (fst c) + Z.to_nat (snd c))); [|lia].
      rewrite nth_error_read_at by lia. f_equal. lia. }
    intros c' [<-|Hc']; [split; [exact Hc|exact Hnew]|].
    destruct (Hdone c' Hc') as [Hw Hold]. split; [exact Hw|].
    intros i Hi.
    destruct (Nat.ltb_spec i (Z.to_nat (fst c))) as [Hlt|Hge].
    + specialize (Hold i Hi).
      rewrite nth_error_write_at.
      destruct (Nat.ltb_spec i (Z.to_nat (fst c))); [|lia].
      assert (i < length dst)%nat as Hin.
      { apply nth_error_Some. rewrite Hold. apply nth_error_Some.
        destruct Hw as (? & ? & ?). lia. }
      rewrite nth_error_app1 by exact Hin. exact Hold.
    + destruct (Nat.lt_ge_cases i (Z.to_nat (fst c) + Z.to_nat (snd c)))
        as [Hin|Hout]; [apply Hnew; lia|].
      rewrite nth_error_write_at, Hr.
      destruct (Nat.ltb_spec i (Z.to_nat (fst c))); [lia|].
      destruct (Nat.ltb_spec i (Z.to_nat (fst c) + Z.to_nat (snd c))); [lia|].
      now apply Hold.
Qed.

Lemma written_all file S C plan dst :
  0 <= S <= Z.of_nat (length file) -> 0 < C ->
  chunk_plan S C = Ok plan ->
  written file S plan dst -> dst = firstn (Z.to_nat S) file.
Proof.
  intros HS HC Hplan [Hlen Hdone].
  apply nth_error_ext. intros i. rewrite nth_error_firstn.
  destruct (Nat.ltb_spec i (Z.to_nat S)) as [Hi|Hi].
  - destruct (plan_covers S C plan (Z.of_nat i) HC Hplan ltac:(lia))
      as (c & Hc & Hr).
    destruct (Hdone c Hc) as [(? & ? & ?) Hold]. apply Hold. lia.
  - apply nth_error_None. lia.
Qed.

(** X1 (local upload): with a positive chunk size and worker count, the
    upload leaves in the destination exactly the first [file_size] bytes
    of the source, in whatever order the workers finish and whatever the
    destination held before. *)
Theorem local_upload_copies settings choices file S old :
  0 < BACKUP_UPLOAD_CHUNK_SIZE settings ->
  0 < BACKUP_UPLOAD_CONCURRENCY settings ->
  0 <= S <= Z.of_nat (length file) ->
  local_upload settings choices file S old
  = (Ok tt, firstn (Z.to_nat S) file).
Proof.
  intros HC HW HS.
  assert (exists plan, chunk_plan S (BACKUP_UPLOAD_CHUNK_SIZE settings) = Ok plan)
    as [plan Hplan] by (rewrite chunk_plan_closed by lia; eauto).
  unfold local_upload, bind at 1 2, check_workers.
  destruct (_ <=? 0) eqn:E; [lia|]. unfold ret at 1.
  rewrite Hplan. unfold lift at 1. unfold bind at 1, executor_run.
  rewrite length_map.
  pose proof (run_pool_invariant
                (fun c => local_upload_chunk file (fst c) (snd c))
                (within S) (written file S)) as Inv.
  specialize (Inv ltac:(intros done done' st Hp [Hl Hd]; split; [exact Hl|];
                        intros c Hc; apply Hd;
                        eapply Permutation_in; [symmetry; exact Hp|exact Hc])).
  specialize (Inv ltac:(intros done c st Hc Hw; cbn [local_upload_chunk snd];
                        apply write_chunk_written; [lia|exact Hc|exact Hw])).
  specialize (Inv (length plan) plan choices [] [] eq_refl
                  (plan_within S _ plan ltac:(lia) HC Hplan)).
  specialize (Inv ltac:(split; [cbn; lia|intros c []])).
  rewrite app_nil_r in Inv.
  destruct (run_pool _ _ _ _) as [rs dst]. cbn [snd] in Inv.
  unfold ret. f_equal.
  exact (written_all file S _ plan dst HS HC Hplan Inv).
Qed.

Definition small_settings : Settings :=
  {| BACKUP_UPLOAD_CHUNK_SIZE := 2; BACKUP_UPLOAD_CONCURRENCY := 3 |}.

Definition five_bytes : bytes :=
  [Byte.x01; Byte.x02; Byte.x03; Byte.x04; Byte.x05].

Lemma local_upload_copies_witness :
  local_upload small_settings [2; 0; 0]%nat five_bytes 5 [Byte.xff]
  = (Ok tt, five_bytes).
Proof.
  apply (local_upload_copies small_settings [2; 0; 0]%nat five_bytes 5
                             [Byte.xff]); cbn; lia.
Defined.

(** *** Block identifiers *)

(** A block identifier is the offset written with at least 16 digits. *)
Lemma chunk_id_shape n :
  0 <= n ->
  exists w, (16 <= w)%nat /\ n < 10 ^ Z.of_nat w /\ chunk_id n = fixed w n.
Proof.
  intros Hn. destruct (Z.lt_ge_cases n (10 ^ 16)) as [Hlt|Hge].
  - exists 16%nat. split; [lia|]. split; [exact Hlt|].
    apply chunk_id_fixed. lia.
  - unfold chunk_id, str_of_int. destruct (n <? 0) eqn:E; [lia|].
    destruct (digits_fixed (S (Z.to_nat (Z.log2 n))) n [] ltac:(lia)
                           (conj Hn (log2_fuel n Hn)))
      as (k & Hk & _ & Hlt & ->).
    rewrite app_nil_r.
    assert (16 < k)%nat as Hk16.
    { assert (10 ^ Z.of_nat 16 < 10 ^ Z.of_nat k) as Hp
          by (change (Z.of_nat 16) with 16; lia).
      apply Z.pow_lt_mono_r_iff in Hp; lia. }
    exists k. split; [lia|]. split; [exact Hlt|].
    unfold zfill. rewrite length_fixed.
    replace (16 - k)%nat with 0%nat by lia. cbn [repeat app].
    destruct (fixed k n) as [|c rest] eqn:Ef.
    + apply (f_equal (@length _)) in Ef. rewrite length_fixed in Ef.
      simpl in Ef. lia.
    + now rewrite (fixed_head_not_sign k n c rest Ef).
Qed.

Lemma chunk_id_inj a b :
  0 <= a -> 0 <= b -> chunk_id a = chunk_id b -> a = b.
Proof.
  intros Ha Hb E.
  destruct (chunk_id_shape a Ha) as (wa & _ & Hwa & Ea).
  destruct (chunk_id_shape b Hb) as (wb & _ & Hwb & Eb).
  rewrite Ea, Eb in E.
  assert (wa = wb) as <-
      by (apply (f_equal (@length _)) in E; now rewrite !length_fixed in E).
  apply Z.compare_eq.
  rewrite <- (str_compare_fixed wa a b) by lia.
  rewrite E. apply str_compare_refl.
Qed.

(** X2 (block identifiers): two different non-negative offsets never
    get the same block identifier, also past the 16 digits the
    identifier is padded to. *)
Theorem chunk_ids_distinct a b :
  0 <= a -> 0 <= b -> a <> b -> chunk_id a <> chunk_id b.
Proof.
  intros Ha Hb Hab E. apply Hab. now apply chunk_id_inj.
Qed.

Lemma chunk_ids_distinct_witness :
  chunk_id 1 <> chunk_id (10 ^ 16).
Proof.
  apply (chunk_ids_distinct 1 (10 ^ 16)); lia.
Defined.

(** *** The calls of an upload to the blob service *)

Lemma sum_app l1 l2 : sum (l1 ++ l2) = sum l1 + sum l2.
Proof.
  unfold sum. induction l1 as [|x l1 IH]; simpl; [reflexivity|].
  rewrite IH. lia.
Qed.

Lemma sum_perm l1 l2 : Permutation l1 l2 -> sum l1 = sum l2.
Proof.
  unfold sum. induction 1; simpl; lia.
Qed.

Lemma sum_of_nat {A} (f : A -> nat) (l : list A) :
  sum (map (fun x => Z.of_nat (f x)) l) = Z.of_nat (list_sum (map f l)).
Proof.
  unfold sum, list_sum.
  induction l as [|x l IH]; cbn [map fold_right]; [reflexivity|].
  rewrite IH. lia.
Qed.

Lemma staged_blocks_app l1 l2 :
  staged_blocks (l1 ++ l2) = staged_blocks l1 ++ staged_blocks l2.
Proof. apply flat_map_app. Qed.

Lemma progress_total_app l1 l2 :
  progress_total (l1 ++ l2) = progress_total l1 + progress_total l2.
Proof. unfold progress_total. now rewrite flat_map_app, sum_app. Qed.

Lemma failed_bytes_app l1 l2 :
  failed_bytes (l1 ++ l2) = failed_bytes l1 + failed_bytes l2.
Proof. unfold failed_bytes. now rewrite flat_map_app, sum_app. Qed.

Lemma block_bytes_app l1 l2 :
  block_bytes (l1 ++ l2) = block_bytes l1 + block_bytes l2.
Proof. unfold block_bytes. now rewrite map_app, sum_app. Qed.

Lemma block_bytes_perm l1 l2 :
  Permutation l1 l2 -> block_bytes l1 = block_bytes l2.
Proof. intros H. apply sum_perm. now apply Permutation_map. Qed.

Section Azure.
Context {B : Type} (service : BlobService B) (settings : Settings).
Context (file : bytes) (progress : bool).

(** The block a chunk is staged as. *)
Definition block_of (c : Z * Z) : pystr * bytes :=
  (chunk_id (fst c), read_at file (fst c) (snd c)).

(** What the workers have logged once the chunks [done] are through. *)
Definition pool_log (done : list (Z * Z)) (l : list (call * outcome)) : Prop :=
  committed l = [] /\
  Permutation (staged_blocks l) (map block_of done) /\
  progress_total l
  = if progress then block_bytes (staged_blocks l) - failed_bytes l else 0.

Lemma pool_log_nil : pool_log [] [].
Proof.
  unfold pool_log. cbn. split; [reflexivity|]. split; [constructor|].
  now destruct progress.
Qed.

Lemma pool_log_task c st :
  exists l, log (snd (task service file progress c st)) = log st ++ l /\
            pool_log [c] l.
Proof.
  unfold task, upload_chunk, bind, invoke, when, note, invoke, ret, pool_log.
  destruct (service_stage_block service _ _ (world st)) as [[[]|e] b];
    [destruct progress|]; cbn [snd log fst]; eexists;
    (split; [try rewrite <- app_assoc; reflexivity|]);
    cbn; (split; [reflexivity|]); (split; [reflexivity|]);
    try destruct progress; lia.
Qed.

Lemma pool_log_step done c l l' :
  pool_log done l -> pool_log [c] l' -> pool_log (c :: done) (l ++ l').
Proof.
  intros (Hc & Hs & Hp) (Hc' & Hs' & Hp'). unfold pool_log.
  rewrite committed_app, staged_blocks_app, progress_total_app,
    failed_bytes_app, block_bytes_app, Hc, Hc', Hp, Hp'.
  split; [reflexivity|]. split.
  - cbn [map]. rewrite Permutation_app_comm.
    change (block_of c :: map block_of done)
      with (map block_of [c] ++ map block_of done).
    now apply Permutation_app.
  - destruct progress; lia.
Qed.

Lemma pool_log_run cs choices st :
  exists l,
    log (snd (run_pool (length cs) choices
                       (map (task service file progress) cs) st))
    = log st ++ l /\
    pool_log cs l.
Proof.
  pose proof (run_pool_invariant
                (task service file progress) (fun _ => True)
                (fun done st' => exists l, log st' = log st ++ l /\
                                           pool_log done l)) as Inv.
  specialize (Inv ltac:(intros done done' st' Hp (l & Hl & Hc & Hs & Hpr);
                        exists l; split; [exact Hl|]; split; [exact Hc|];
                        split; [|exact Hpr];
                        rewrite Hs; now apply Permutation_map)).
  specialize (Inv ltac:(intros done c st' _ (l & Hl & Hpl);
                        destruct (pool_log_task c st') as (l' & Hl' & Hpl');
                        exists (l ++ l'); split;
                        [rewrite Hl', Hl, app_assoc; reflexivity
                        |now apply pool_log_step])).
  specialize (Inv (length cs) cs choices st [] eq_refl
                  ltac:(apply Forall_forall; trivial)
                  ltac:(exists []; split;
                        [now rewrite app_nil_r|apply pool_log_nil])).
  now rewrite app_nil_r in Inv.
Qed.

(** The call log of an upload with usable settings: the blob client is
    fetched, the workers stage the chunks, the identifiers are
    committed in plan order. *)
Lemma upload_log choices S dst st :
  0 <= S ->
  0 < BACKUP_UPLOAD_CHUNK_SIZE settings ->
  0 < BACKUP_UPLOAD_CONCURRENCY settings ->
  exists plan l r,
    chunk_plan S (BACKUP_UPLOAD_CHUNK_SIZE settings) = Ok plan /\
    pool_log plan l /\
    log (snd (upload service settings choices file S dst progress st))
    = log st ++ (get_blob_client dst, Returned) :: l
        ++ [(commit_block_list (map (fun c => chunk_id (fst c)) plan), r)].
Proof.
  intros HS HC HW.
  assert (exists plan, chunk_plan S (BACKUP_UPLOAD_CHUNK_SIZE settings) = Ok plan)
    as [plan Hplan] by (rewrite chunk_plan_closed by lia; eauto).
  unfold upload, bind at 1 2 3. unfold note at 1, invoke at 1. cbn [world log].
  unfold check_workers. destruct (_ <=? 0) eqn:E; [lia|]. unfold ret at 1.
  rewrite Hplan. unfold lift at 1. unfold bind at 1, executor_run.
  rewrite length_map.
  match goal with
  | |- context [run_pool _ _ _ ?s] =>
      destruct (pool_log_run plan choices s) as (l & Hl & Hpl)
  end.
  fold (task service file progress) in *.
  destruct (run_pool _ _ _ _) as [rs st2]. cbn [snd log] in Hl.
  unfold invoke.
  destruct (service_commit_block_list service _ (world st2)) as [r b].
  exists plan, l, (outcome_of r). split; [reflexivity|]. split; [exact Hpl|].
  cbn [log snd]. rewrite Hl, <- !app_assoc. reflexivity.
Qed.

End Azure.

(** *** The blocks put together *)

Lemma firstn_add {A} (l : list A) : forall a b,
  firstn a l ++ firstn b (skipn a l) = firstn (a + b) l.
Proof.
  induction l as [|x l IH]; intros [|a] b; cbn [firstn skipn app Nat.add];
    try reflexivity.
  - now rewrite firstn_nil.
  - now rewrite IH.
Qed.

(** The chunks of the plan, read in plan order, are the first [S]
    bytes. *)
Lemma concat_reads file S C n :
  0 < C -> 0 <= S <= Z.of_nat (length file) ->
  Z.of_nat n <= ceil_div S C ->
  concat (map (fun k => read_at file (Z.of_nat k * C)
                                (Z.min C (S - Z.of_nat k * C)))
              (seq 0 n))
  = firstn (Z.to_nat (Z.min (Z.of_nat n * C) S)) file.
Proof.
  intros HC HS. pose proof (ceil_div_bounds S C HC) as Bd.
  induction n as [|n IH]; intros Hn.
  - cbn. now replace (Z.to_nat (Z.min 0 S)) with 0%nat by lia.
  - rewrite seq_S, map_app, concat_app, IH by lia.
    cbn [map concat Nat.add]. rewrite app_nil_r. unfold read_at.
    replace (Z.to_nat (Z.min (Z.of_nat n * C) S))
      with (Z.to_nat (Z.of_nat n * C)) by nia.
    rewrite firstn_add. f_equal. nia.
Qed.

Lemma plan_reads file S C plan :
  0 < C -> 0 <= S <= Z.of_nat (length file) ->
  chunk_plan S C = Ok plan ->
  concat (map (fun c => snd (block_of file c)) plan) = firstn (Z.to_nat S) file.
Proof.
  intros HC HS. rewrite chunk_plan_closed by lia. intros [= <-].
  pose proof (ceil_div_bounds S C HC) as Bd.
  rewrite map_map. cbn [block_of fst snd].
  rewrite (concat_reads file S C) by lia.
  f_equal. rewrite Z2Nat.id by (pose proof (ceil_div_nonneg S C); nia). nia.
Qed.

Lemma distinct_nodup {A} (l : list A) :
  StronglySorted (fun x y => x <> y) l -> NoDup l.
Proof.
  induction 1 as [|x l Hs IH Hx]; constructor; [|exact IH].
  intros Hin. rewrite Forall_forall in Hx. now apply (Hx x Hin).
Qed.

Lemma plan_ids_nodup S C plan :
  0 <= S -> 0 < C -> chunk_plan S C = Ok plan ->
  NoDup (map (fun c => chunk_id (fst c)) plan).
Proof.
  intros HS HC Hplan. apply distinct_nodup.
  apply (plan_offsets S C plan HS HC Hplan).
  intros a b Hab Hb E. apply chunk_id_inj in E; lia.
Qed.

Lemma key_determines {A} (bs : list (pystr * A)) b1 b2 :
  NoDup (map fst bs) -> In b1 bs -> In b2 bs -> fst b1 = fst b2 -> b1 = b2.
Proof.
  induction bs as [|b bs IH]; intros Hnd H1 H2 E; [destruct H1|].
  inversion Hnd as [|? ? Hnot Hnd']; subst.
  destruct H1 as [<-|H1], H2 as [<-|H2]; trivial.
  - exfalso. apply Hnot. rewrite E. now apply in_map.
  - exfalso. apply Hnot. rewrite <- E. now apply in_map.
  - now apply IH.
Qed.

Lemma block_data_found bs bs' k v :
  NoDup (map fst bs) -> Permutation bs' bs -> In (k, v) bs ->
  block_data bs' k = v.
Proof.
  intros Hnd Hp Hin. unfold block_data.
  destruct (find _ bs') as [b|] eqn:Ef.
  - apply find_some in Ef as [Hb Hk]. unfold str_eqb in Hk.
    destruct (str_compare (fst b) k) eqn:Ec; try discriminate.
    apply str_compare_eq in Ec.
    assert (b = (k, v)) as ->; [|reflexivity].
    apply (key_determines bs); trivial.
    eapply Permutation_in; eauto.
  - eapply find_none in Ef;
      [|eapply Permutation_in; [symmetry; exact Hp|exact Hin]].
    cbn [fst] in Ef. unfold str_eqb in Ef.
    now rewrite str_compare_refl in Ef.
Qed.

(** X3 (azure upload): the upload commits one block list, and the data
    handed to [stage_block] under the committed identifiers, put
    together in the order committed, is the first [file_size] bytes of
    the file, in whatever order the workers ran. *)
Theorem committed_blocks_are_the_file {B} (service : BlobService B)
        settings choices file S dst progress (b : B) :
  0 < BACKUP_UPLOAD_CHUNK_SIZE settings ->
  0 < BACKUP_UPLOAD_CONCURRENCY settings ->
  0 <= S <= Z.of_nat (length file) ->
  let l := log (snd (upload service settings choices file S dst progress
                            (start b))) in
  exists ids,
    committed l = [ids] /\
    concat (map (block_data (staged_blocks l)) ids) = firstn (Z.to_nat S) file.
Proof.
  intros HC HW HS l.
  destruct (upload_log service settings file progress choices S dst (start b)
                       ltac:(lia) HC HW)
    as (plan & lp & r & Hplan & (Hc & Hs & _) & Hl).
  subst l. rewrite Hl. cbn [start log app].
  eexists. split.
  - unfold committed. cbn [flat_map fst app].
    fold (committed (lp ++ [(commit_block_list
                               (map (fun c => chunk_id (fst c)) plan), r)])).
    rewrite committed_app, Hc. reflexivity.
  - unfold staged_blocks at 1. cbn [flat_map fst app].
    fold (staged_blocks (lp ++ [(commit_block_list
                                   (map (fun c => chunk_id (fst c)) plan), r)])).
    rewrite staged_blocks_app. cbn [staged_blocks flat_map fst].
    rewrite app_nil_r, map_map.
    rewrite <- (plan_reads file S _ plan HC HS Hplan).
    f_equal. apply map_ext_in. intros c Hin.
    apply (block_data_found (map (block_of file) plan)).
    + rewrite map_map. cbn [block_of fst].
      apply (plan_ids_nodup S _ plan ltac:(lia) HC Hplan).
    + exact Hs.
    + apply (in_map (block_of file)) in Hin. exact Hin.
Qed.

Lemma committed_blocks_are_the_file_witness :
  let l := log (snd (upload accepting_service small_settings [1; 1; 0]%nat
                            five_bytes 5 (s "backup.zip") true (start tt))) in
  exists ids,
    committed l = [ids] /\
    concat (map (block_data (staged_blocks l)) ids) = firstn 5 five_bytes.
Proof.
  apply (committed_blocks_are_the_file accepting_service small_settings
           [1; 1; 0]%nat five_bytes 5 (s "backup.zip") true tt); cbn; lia.
Defined.

(** X4 (progress bar): when progress is asked for, the bytes reported
    to the progress bar are the file size less the bytes of the chunks
    whose staging raised; when it is not, nothing is reported. *)
Theorem progress_counts_staged_bytes {B} (service : BlobService B)
        settings choices file S dst progress (b : B) :
  0 < BACKUP_UPLOAD_CHUNK_SIZE settings ->
  0 < BACKUP_UPLOAD_CONCURRENCY settings ->
  0 <= S <= Z.of_nat (length file) ->
  let l := log (snd (upload service settings choices file S dst progress
                            (start b))) in
  progress_total l = if progress then S - failed_bytes l else 0.
Proof.
  intros HC HW HS l.
  destruct (upload_log service settings file progress choices S dst (start b)
                       ltac:(lia) HC HW)
    as (plan & lp & r & Hplan & (Hc & Hs & Hp) & Hl).
  subst l. rewrite Hl. cbn [start log app].
  change ((get_blob_client dst, Returned) :: lp ++ ?t)
    with ([(get_blob_client dst, Returned)] ++ lp ++ t).
  rewrite !progress_total_app, !failed_bytes_app, Hp.
  assert (block_bytes (staged_blocks lp) = S) as ->.
  { rewrite (block_bytes_perm _ _ Hs). unfold block_bytes.
    rewrite map_map.
    pose proof (plan_reads file S _ plan HC HS Hplan) as Hr.
    apply (f_equal (@length _)) in Hr.
    rewrite length_concat, length_firstn, map_map in Hr.
    rewrite (sum_of_nat (fun x => length (snd (block_of file x)))), Hr. lia. }
  cbn. destruct progress; lia.
Qed.

Lemma progress_counts_staged_bytes_witness :
  let l := log (snd (upload unreachable_service small_settings [0; 1]%nat
                            five_bytes 5 (s "backup.zip") true (start tt))) in
  progress_total l = 5 - failed_bytes l.
Proof.
  apply (progress_counts_staged_bytes unreachable_service small_settings
           [0; 1]%nat five_bytes 5 (s "backup.zip") true tt); cbn; lia.
Defined.

(** *** Settings the loop cannot use *)

(** X5 (azure upload, settings): a worker count of zero or less, or a
    chunk size of zero, makes the upload raise [ValueError] once the
    blob client is fetched: nothing is staged and nothing committed. *)
Theorem upload_rejects_settings {B} (service : BlobService B)
        settings choices file S dst progress (b : B) :
  BACKUP_UPLOAD_CONCURRENCY settings <= 0 \/
  BACKUP_UPLOAD_CHUNK_SIZE settings = 0 ->
  exists msg,
    upload service settings choices file S dst progress (start b)
    = (Raise (ValueError msg),
       {| world := b; log := [(get_blob_client dst, Returned)] |}).
Proof.
  intros H. unfold upload, bind at 1 2. unfold note at 1, invoke at 1.
  cbn [start world log app outcome_of]. unfold check_workers.
  destruct (BACKUP_UPLOAD_CONCURRENCY settings <=? 0) eqn:E.
  - eexists. reflexivity.
  - destruct H as [H|H]; [lia|].
    unfold ret at 1, bind at 1, chunk_plan, range. rewrite H.
    cbn [Z.eqb lift raise]. eexists. reflexivity.
Qed.

Lemma upload_rejects_settings_witness :
  exists msg,
    upload accepting_service
           {| BACKUP_UPLOAD_CHUNK_SIZE := 0; BACKUP_UPLOAD_CONCURRENCY := 4 |}
           [] five_bytes 5 (s "backup.zip") false (start tt)
    = (Raise (ValueError msg),
       {| world := tt; log := [(get_blob_client (s "backup.zip"), Returned)] |}).
Proof.
  apply (upload_rejects_settings accepting_service
           {| BACKUP_UPLOAD_CHUNK_SIZE := 0; BACKUP_UPLOAD_CONCURRENCY := 4 |}).
  right. reflexivity.
Defined.

(** X6 (local upload, settings): with such settings the local upload
    raises [ValueError] as well, after the destination was opened for
    writing: what the destination held before is gone. *)
Theorem local_upload_rejects_settings settings choices file S old :
  BACKUP_UPLOAD_CONCURRENCY settings <= 0 \/
  BACKUP_UPLOAD_CHUNK_SIZE settings = 0 ->
  exists msg,
    local_upload settings choices file S old = (Raise (ValueError msg), []).
Proof.
  intros H. unfold local_upload, bind at 1. unfold check_workers.
  destruct (BACKUP_UPLOAD_CONCURRENCY settings <=? 0) eqn:E.
  - eexists. reflexivity.
  - destruct H as [H|H]; [lia|].
    unfold ret at 1, bind at 1, chunk_plan, range. rewrite H.
    cbn [Z.eqb lift raise]. eexists. reflexivity.
Qed.

Lemma local_upload_rejects_settings_witness :
  exists msg,
    local_upload
      {| BACKUP_UPLOAD_CHUNK_SIZE := 4; BACKUP_UPLOAD_CONCURRENCY := 0 |}
      [] five_bytes 5 five_bytes
    = (Raise (ValueError msg), []).
Proof.
  apply (local_upload_rejects_settings
           {| BACKUP_UPLOAD_CHUNK_SIZE := 4; BACKUP_UPLOAD_CONCURRENCY := 0 |}).
  left. cbn. lia.
Defined.

(** The loop has no iteration when the size is not positive, and none
    when the chunk size is negative. *)
Lemma chunk_plan_empty S C :
  (0 < C /\ S <= 0) \/ (C < 0 /\ 0 <= S) -> chunk_plan S C = Ok [].
Proof.
  intros H. unfold chunk_plan, range.
  destruct (C =? 0) eqn:E0; [lia|].
  destruct (0 <? C) eqn:E1.
  - destruct (Z.to_nat _) as [|fuel]; cbn [range_up map]; [reflexivity|].
    destruct (0 <? S) eqn:E2; [lia|reflexivity].
  - destruct (Z.to_nat _) as [|fuel]; cbn [range_down map]; [reflexivity|].
    destruct (S <? 0) eqn:E2; [lia|reflexivity].
Qed.

(** X7 (negative chunk size): with a negative chunk size, as with an
    empty file, the azure upload stages nothing and commits the empty
    block list, and the local upload leaves an empty destination; no
    error is raised by the upload itself. *)
Theorem upload_without_chunks {B} (service : BlobService B)
        settings choices file S dst progress (b : B) old :
  0 < BACKUP_UPLOAD_CONCURRENCY settings ->
  (0 < BACKUP_UPLOAD_CHUNK_SIZE settings /\ S <= 0) \/
  (BACKUP_UPLOAD_CHUNK_SIZE settings < 0 /\ 0 <= S) ->
  (exists r,
     log (snd (upload service settings choices file S dst progress (start b)))
     = [(get_blob_client dst, Returned); (commit_block_list [], r)]) /\
  local_upload settings choices file S old = (Ok tt, []).
Proof.
  intros HW H. pose proof (chunk_plan_empty S _ H) as Hplan. split.
  - unfold upload, bind at 1 2 3. unfold note at 1, invoke at 1.
    cbn [start world log app outcome_of]. unfold check_workers.
    destruct (_ <=? 0) eqn:E; [lia|]. unfold ret at 1.
    rewrite Hplan. unfold lift at 1. unfold bind at 1, executor_run.
    cbn [map length run_pool]. unfold invoke. cbn [world log].
    destruct (service_commit_block_list service [] b) as [r b'].
    cbn [snd log app]. eexists. reflexivity.
  - unfold local_upload, bind at 1 2, check_workers.
    destruct (_ <=? 0) eqn:E; [lia|]. unfold ret at 1.
    rewrite Hplan. reflexivity.
Qed.

Lemma upload_without_chunks_witness :
  (exists r,
     log (snd (upload accepting_service
                 {| BACKUP_UPLOAD_CHUNK_SIZE := -4;
                    BACKUP_UPLOAD_CONCURRENCY := 2 |}
                 [] five_bytes 5 (s "backup.zip") false (start tt)))
     = [(get_blob_client (s "backup.zip"), Returned);
        (commit_block_list [], r)]) /\
  local_upload {| BACKUP_UPLOAD_CHUNK_SIZE := -4;
                  BACKUP_UPLOAD_CONCURRENCY := 2 |}
               [] five_bytes 5 five_bytes
  = (Ok tt, []).
Proof.
  apply (upload_without_chunks accepting_service
           {| BACKUP_UPLOAD_CHUNK_SIZE := -4; BACKUP_UPLOAD_CONCURRENCY := 2 |}
           [] five_bytes 5 (s "backup.zip") false tt five_bytes).
  - cbn. lia.
  - right. cbn. lia.
Defined.

End UploadMore.

(** ** Retention when the storage fails *)

Module RetentionMore.
Import Storage RetentionFacts.



Section Handler.
Context {W : Type} (storage : StorageInterface W) (config : RetentionConfig).


End Handler.


End RetentionMore.

(** ** Directory interfaces: validation and the archive extension
       ([directories/local.py], [directories/ssh.py]) *)

Module DirectoriesMore.
Import Storage Directories.

(** [LocalDirectoryBackupInterface._validate_directories] (and
    [validate], which only calls it), over what [os.path.exists] and
    [os.access(_, os.R_OK)] answer. *)
Fixpoint validate_directories (path_exists access_r : pystr -> bool)
         (directories : list DirectoryConfig) : result unit :=
  match directories with
  | [] => Ok tt
  | directory :: rest =>
      if negb (path_exists (src directory))
      then Raise (ValueError (s "directory: " ++ src directory
                                ++ s " does not exist on the local machine"))
      else if negb (access_r (src directory))
      then Raise (ValueError
                    (s "application does not have read access to directory: "
                       ++ src directory))
      else validate_directories path_exists access_r rest
  end.

(** A directory passes the local validation. *)
Definition usable (path_exists access_r : pystr -> bool)
           (directory : DirectoryConfig) : Prop :=
  path_exists (src directory) = true /\ access_r (src directory) = true.

Section SSH.
Context {W : Type} (client : SSHClient W).

(** One iteration of the loop of
    [SSHDirectoryBackupInterface._validate_directories]. *)
Definition ssh_validate_directory (directory : DirectoryConfig)
  : M (St W call) unit :=
  let ls_cmd := s "ls " ++ src directory in
  let test_cmd := s "test -r " ++ src directory in
  status <- invoke (exec_command ls_cmd) (client_exec_command client ls_cmd) ;;
  if negb (status =? 0)
  then raise (ValueError (s "directory: '" ++ src directory
                            ++ s "' does not exist on the remote machine"))
  else
    status <- invoke (exec_command test_cmd)
                     (client_exec_command client test_cmd) ;;
    if negb (status =? 0)
    then raise (ValueError
                  (s "application does not have read access to directory: '"
                     ++ src directory ++ s "'"))
    else ret tt.

(** [SSHDirectoryBackupInterface._validate_directories] (and
    [validate]). *)
Definition ssh_validate_directories (directories : list DirectoryConfig)
  : M (St W call) unit :=
  for_each directories ssh_validate_directory.
End SSH.

(** The commands the ssh validation has for a list of directories, in
    the order it runs them. *)
Definition validation_commands (directories : list DirectoryConfig)
  : list call :=
  flat_map (fun d => [exec_command (s "ls " ++ src d);
                      exec_command (s "test -r " ++ src d)]) directories.

(** X9 (local validation): the validation returns exactly when every
    configured source exists and can be read. *)
Theorem validate_accepts_usable path_exists access_r directories :
  validate_directories path_exists access_r directories = Ok tt
  <-> Forall (usable path_exists access_r) directories.
Proof.
  unfold usable. induction directories as [|d ds IH]; cbn [validate_directories].
  - split; auto.
  - destruct (path_exists (src d)) eqn:E1; cbn [negb].
    + destruct (access_r (src d)) eqn:E2; cbn [negb].
      * rewrite IH. split; [intros H; constructor; auto|].
        intros H. now inversion H.
      * split; [discriminate|]. intros H. inversion H as [|? ? [_ H1] _].
        congruence.
    + split; [discriminate|]. intros H. inversion H as [|? ? [H1 _] _].
      congruence.
Qed.

(** X10 (local validation, the error): the [ValueError] names the first
    configured source that fails, and a source that is missing is
    reported as missing whatever its access rights. *)
Theorem validate_reports_first_failure path_exists access_r good d rest :
  Forall (usable path_exists access_r) good ->
  ~ usable path_exists access_r d ->
  validate_directories path_exists access_r (good ++ d :: rest)
  = Raise (ValueError
             (if path_exists (src d)
              then s "application does not have read access to directory: "
                     ++ src d
              else s "directory: " ++ src d
                     ++ s " does not exist on the local machine")).
Proof.
  unfold usable. intros Hgood Hd.
  induction Hgood as [|g good [H1 H2] _ IH]; cbn [app validate_directories].
  - destruct (path_exists (src d)); cbn [negb]; [|reflexivity].
    destruct (access_r (src d)); cbn [negb]; [|reflexivity].
    exfalso. auto.
  - rewrite H1, H2. exact IH.
Qed.

Definition directory_at (path : pystr) : DirectoryConfig :=
  {| src := path; dest := s "backups"; name := s "site";
     exclude := []; retention_config := None |}.

Lemma validate_reports_first_failure_witness :
  validate_directories (fun p => negb (str_eqb p (s "/gone")))
                       (fun _ => false)
                       ([] ++ directory_at (s "/gone")
                           :: [directory_at (s "/srv")])
  = Raise (ValueError
             (s "directory: /gone does not exist on the local machine")).
Proof.
  apply (validate_reports_first_failure
           (fun p => negb (str_eqb p (s "/gone"))) (fun _ => false)
           [] (directory_at (s "/gone")) [directory_at (s "/srv")]).
  - constructor.
  - unfold usable. cbn. intros [H _]. discriminate.
Defined.

Section SSHFacts.
Context {W : Type} (client : SSHClient W).

Lemma ssh_validate_directory_log d st :
  let '(r, st') := ssh_validate_directory client d st in
  exists l rest,
    log st' = log st ++ l /\
    validation_commands [d] = map fst l ++ rest /\
    (r = Ok tt -> rest = []).
Proof.
  unfold ssh_validate_directory, bind, invoke.
  cbn [validation_commands flat_map app].
  destruct (client_exec_command client (s "ls " ++ src d) (world st))
    as [[status|e] w]; cbn [world log].
  - destruct (status =? 0); cbn [negb].
    + match goal with
      | |- context [client_exec_command client ?c ?x] =>
          destruct (client_exec_command client c x) as [[status'|e] w']
      end;
        cbn [world log]; [destruct (status' =? 0); cbn [negb]|];
        unfold raise, ret; cbn [log];
        (eexists; exists []; split;
         [rewrite <- app_assoc; reflexivity|split; [reflexivity|trivial]]).
    + unfold raise. cbn [log].
      eexists. eexists. split; [reflexivity|]. split; [reflexivity|].
      discriminate.
  - eexists. eexists. split; [reflexivity|]. split; [reflexivity|].
    discriminate.
Qed.

Lemma ssh_validate_log ds : forall st,
  let '(r, st') := ssh_validate_directories client ds st in
  exists l rest,
    log st' = log st ++ l /\
    validation_commands ds = map fst l ++ rest /\
    (r = Ok tt -> rest = []).
Proof.
  unfold ssh_validate_directories.
  induction ds as [|d ds IH]; intros st; cbn [for_each].
  - exists [], []. rewrite app_nil_r. auto.
  - unfold bind.
    pose proof (ssh_validate_directory_log d st) as H.
    destruct (ssh_validate_directory client d st) as [[[]|e] st1].
    + destruct H as (l & rest & Hl & Hc & Hr).
      specialize (Hr eq_refl). subst rest. rewrite app_nil_r in Hc.
      specialize (IH st1).
      destruct (for_each ds _ st1) as [r st2].
      destruct IH as (l' & rest' & Hl' & Hc' & Hr').
      exists (l ++ l'), rest'. split; [now rewrite Hl', Hl, app_assoc|].
      split; [|exact Hr'].
      change (d :: ds) with ([d] ++ ds).
      unfold validation_commands in *.
      rewrite flat_map_app, Hc, Hc', map_app, app_assoc. reflexivity.
    + destruct H as (l & rest & Hl & Hc & _).
      exists l, (rest ++ validation_commands ds). split; [exact Hl|].
      split; [|discriminate].
      change (d :: ds) with ([d] ++ ds).
      unfold validation_commands in *.
      rewrite flat_map_app, Hc, app_assoc. reflexivity.
Qed.

(** A remote side that answers each command with a fixed exit
    status. *)
Definition answers (status : pystr -> Z) : Prop :=
  forall cmd w, client_exec_command client cmd w = (Ok (status cmd), w).

Lemma ssh_validate_status status ds :
  answers status -> forall st,
  fst (ssh_validate_directories client ds st) = Ok tt
  <-> Forall (fun d => status (s "ls " ++ src d) = 0 /\
                       status (s "test -r " ++ src d) = 0) ds.
Proof.
  intros Hans. unfold ssh_validate_directories.
  induction ds as [|d ds IH]; intros st; cbn [for_each].
  - cbn. split; auto.
  - unfold bind at 1, ssh_validate_directory, bind, invoke.
    rewrite Hans. cbn [world log].
    destruct (Z.eqb_spec (status (s "ls " ++ src d)) 0) as [E1|E1]; cbn [negb].
    + rewrite Hans.
      destruct (Z.eqb_spec (status (s "test -r " ++ src d)) 0) as [E2|E2];
        cbn [negb].
      * unfold ret. rewrite IH.
        split; [intros H; constructor; auto|]. intros H. now inversion H.
      * unfold raise. cbn [fst]. split; [discriminate|].
        intros H. inversion H as [|? ? [_ H2] _]. contradiction.
    + unfold raise. cbn [fst]. split; [discriminate|].
      intros H. inversion H as [|? ? [H1 _] _]. contradiction.
Qed.

End SSHFacts.

(** X11 (ssh validation, commands): whatever the remote side does, the
    validation runs only [ls] and [test -r] on the configured sources,
    in configuration order and [ls] first, stops where it raises, and
    has run both on every source when it returns. *)
Theorem ssh_validate_runs_checks_in_order {W} (client : SSHClient W)
        directories (w : W) :
  let '(r, st') := ssh_validate_directories client directories (start w) in
  exists rest,
    validation_commands directories = map fst (log st') ++ rest /\
    (r = Ok tt -> rest = []).
Proof.
  pose proof (ssh_validate_log client directories (start w)) as H.
  destruct (ssh_validate_directories client directories (start w)) as [r st'].
  destruct H as (l & rest & Hl & Hc & Hr). cbn [start log app] in Hl.
  exists rest. rewrite Hl. auto.
Qed.

(** X12 (ssh validation, result): on a remote side that answers each
    command with an exit status and never fails, the validation returns
    exactly when [ls] and [test -r] exit with status 0 for every
    configured source. *)
Theorem ssh_validate_accepts_zero_status {W} (client : SSHClient W)
        status directories (w : W) :
  answers client status ->
  fst (ssh_validate_directories client directories (start w)) = Ok tt
  <-> Forall (fun d => status (s "ls " ++ src d) = 0 /\
                       status (s "test -r " ++ src d) = 0) directories.
Proof.
  intros H. now apply ssh_validate_status.
Qed.

(** A remote side on which every command exits with status 0, but for
    [test -r /root], which exits with 1. *)
Definition root_unreadable (cmd : pystr) : Z :=
  if str_eqb cmd (s "test -r /root") then 1 else 0.

Definition remote : SSHClient unit :=
  {| client_exec_command := fun cmd w => (Ok (root_unreadable cmd), w);
     client_open_sftp := fun w => (Ok tt, w);
     sftp_open_file := fun _ w => (Ok [], w);
     sftp_file_stat_size := fun _ w => (Ok 0, w);
     sftp_close_channel := fun w => (Ok tt, w);
     remote_clock := fun w => (Naming.Build_datetime 2024 1 1 0 0 0, w) |}.

Lemma ssh_validate_accepts_zero_status_witness :
  fst (ssh_validate_directories remote [directory_at (s "/srv")] (start tt))
  = Ok tt
  <-> Forall (fun d => root_unreadable (s "ls " ++ src d) = 0 /\
                       root_unreadable (s "test -r " ++ src d) = 0)
             [directory_at (s "/srv")].
Proof.
  apply (ssh_validate_accepts_zero_status remote root_unreadable
           [directory_at (s "/srv")] tt).
  intros cmd w. reflexivity.
Defined.

(** *** The extension of an archive *)

Lemma split_on_absent c a : ~ In c a -> split_on c a = [a].
Proof.
  induction a as [|x a IH]; intros H; cbn [split_on]; [reflexivity|].
  destruct (Ascii.eqb_spec x c) as [->|_]; [exfalso; apply H; now left|].
  rewrite IH by (intros Hin; apply H; now right). reflexivity.
Qed.

Lemma split_on_first c stem rest :
  ~ In c stem -> split_on c (stem ++ c :: rest) = stem :: split_on c rest.
Proof.
  induction stem as [|x stem IH]; intros H; cbn [app split_on].
  - now rewrite Ascii.eqb_refl.
  - destruct (Ascii.eqb_spec x c) as [->|_]; [exfalso; apply H; now left|].
    rewrite IH by (intros Hin; apply H; now right). reflexivity.
Qed.

Lemma split_on_nonempty c a : split_on c a <> [].
Proof.
  destruct a as [|x a]; cbn [split_on]; [discriminate|].
  destruct (Ascii.eqb x c); [discriminate|].
  destruct (split_on c a); discriminate.
Qed.

(** Joining what a split gave with the separator gives the string
    back. *)
Lemma join_split_on c a : join [c] (split_on c a) = a.
Proof.
  induction a as [|x a IH]; cbn [split_on]; [reflexivity|].
  destruct (Ascii.eqb_spec x c) as [->|_].
  - destruct (split_on c a) as [|p ps] eqn:E;
      [now apply split_on_nonempty in E|].
    cbn [join app] in *. now rewrite IH.
  - destruct (split_on c a) as [|p ps] eqn:E;
      [now apply split_on_nonempty in E|].
    destruct ps; cbn [join app] in *; now rewrite <- IH.
Qed.

Lemma first_dot (a : pystr) :
  In "."%char a ->
  exists stem rest, a = stem ++ "."%char :: rest /\ ~ In "."%char stem.
Proof.
  induction a as [|x a IH]; intros H; [destruct H|].
  destruct (Ascii.eqb_spec x ".") as [->|Hx].
  - exists [], a. auto.
  - destruct H as [H|H]; [congruence|].
    destruct (IH H) as (stem & rest & -> & Hs).
    exists (x :: stem), rest. split; [reflexivity|].
    intros [E|Hin]; [congruence|auto].
Qed.

Lemma extension_after_dot stem rest :
  ~ In "."%char stem -> extension_of (stem ++ "."%char :: rest) = rest.
Proof.
  intros H. unfold extension_of. rewrite split_on_first by exact H.
  cbn [tl]. apply (join_split_on ".").
Qed.

(** X13 (archive extension): what the archive methods return as the
    extension is all that follows the first dot of the archive path,
    directories included, and is empty for a path without a dot. *)
Theorem extension_starts_at_first_dot file :
  (forall stem rest,
     file = stem ++ "."%char :: rest -> ~ In "."%char stem ->
     extension_of file = rest) /\
  (~ In "."%char file -> extension_of file = []).
Proof.
  split.
  - intros stem rest -> H. now apply extension_after_dot.
  - intros H. unfold extension_of. now rewrite split_on_absent.
Qed.

(** X14 (ssh archive): the extension the ssh interface gives the
    backup is [tar.gz] exactly when the configured name has no dot;
    with a dot in the name, the part of the name behind its first dot
    becomes part of the extension. *)
Theorem ssh_archive_extension {W} (client : SSHClient W) directory source st
        path extension :
  fst (ssh_archive client directory source st) = Ok (path, extension) ->
  path = s "/tmp/" ++ name directory ++ s ".tar.gz" /\
  (extension = s "tar.gz" <-> ~ In "."%char (name directory)) /\
  (forall stem rest,
     name directory = stem ++ "."%char :: rest -> ~ In "."%char stem ->
     extension = rest ++ s ".tar.gz").
Proof.
  unfold ssh_archive, bind, invoke.
  destruct (client_exec_command client _ (world st)) as [[status|e] w];
    [|discriminate].
  unfold ret. cbn [fst]. intros H. injection H as Hp He.
  change (s "/tmp/" ++ name directory ++ s ".tar.gz" = path) in Hp.
  change (extension_of (s "/tmp/" ++ name directory ++ s ".tar.gz")
          = extension) in He.
  subst path extension. split; [reflexivity|].
  assert (forall stem rest,
            name directory = stem ++ "."%char :: rest -> ~ In "."%char stem ->
            extension_of (s "/tmp/" ++ name directory ++ s ".tar.gz")
            = rest ++ s ".tar.gz") as Hdot.
  { intros stem rest E H. rewrite E.
    replace (s "/tmp/" ++ (stem ++ "."%char :: rest) ++ s ".tar.gz")
      with ((s "/tmp/" ++ stem) ++ "."%char :: (rest ++ s ".tar.gz"))
      by (rewrite <- !app_assoc; reflexivity).
    apply extension_after_dot.
    intros Hin. apply in_app_or in Hin as [Hin|Hin]; [|auto].
    cbn in Hin. repeat destruct Hin as [Hin|Hin]; try discriminate; auto. }
  split; [|exact Hdot].
  split.
  - intros E Hin. destruct (first_dot _ Hin) as (stem & rest & En & Hs).
    rewrite (Hdot stem rest En Hs) in E.
    apply (f_equal (@length _)) in E. rewrite length_app in E.
    cbn in E. lia.
  - intros H.
    replace (s "/tmp/" ++ name directory ++ s ".tar.gz")
      with ((s "/tmp/" ++ name directory) ++ "."%char :: s "tar.gz")
      by (rewrite <- !app_assoc; reflexivity).
    apply extension_after_dot.
    intros Hin. apply in_app_or in Hin as [Hin|Hin]; [|auto].
    cbn in Hin. repeat destruct Hin as [Hin|Hin]; try discriminate; auto.
Qed.

Lemma ssh_archive_extension_witness :
  s "/tmp/my.site.tar.gz" = s "/tmp/" ++ s "my.site" ++ s ".tar.gz" /\
  (s "site.tar.gz" = s "tar.gz" <-> ~ In "."%char (s "my.site")) /\
  (forall stem rest,
     s "my.site" = stem ++ "."%char :: rest -> ~ In "."%char stem ->
     s "site.tar.gz" = rest ++ s ".tar.gz").
Proof.
  apply (ssh_archive_extension remote
           {| src := s "/srv/my.site"; dest := s "backups";
              name := s "my.site"; exclude := [];
              retention_config := None |}
           (s "/srv/my.site") (start tt)
           (s "/tmp/my.site.tar.gz") (s "site.tar.gz")).
  reflexivity.
Defined.

End DirectoriesMore.

(** ** The orchestrator: construction and the order of a run
       ([run.py], [utils.get_class]) *)

Module OrchestratorMore.
Import Orchestrator EffFacts OrchestratorFacts ListingOrder.

(** The calls of the third loop of [run_backup]. *)
Definition is_run_call (c : call) : bool :=
  match c with
  | validate _ | backup _ | log_error _ _ => true
  | _ => false
  end.

(** The log entry of a constructor of a backup interface that
    returned. *)
Definition built (c : BackupInterfaceConfig) : call * outcome :=
  (new_interface c, Returned).

(** The log of a run that came to its third loop: the storage is
    constructed, the disabled interfaces are noted, every enabled
    interface is constructed, in the order of the configuration, and
    calls of the third loop follow. *)
Definition ran (config : Config) (l : list (call * outcome)) : Prop :=
  exists d,
    l = (new_storage (storage config), Returned)
          :: skip_notes (interfaces config)
          ++ map built (filter enabled (interfaces config)) ++ d /\
    Forall (fun e => is_run_call (fst e) = true) d.

(** The log of a run that a resolution or a constructor ended: the
    constructors that returned, followed by the one that raised if it
    was a constructor that ended the run. *)
Definition stopped (config : Config) (r : result unit)
           (l : list (call * outcome)) : Prop :=
  exists e, r = Raise e /\
    (l = [] \/
     l = [(new_storage (storage config), Raised e)] \/
     exists done c rest tail,
       filter enabled (interfaces config) = done ++ c :: rest /\
       l = (new_storage (storage config), Returned)
             :: skip_notes (interfaces config) ++ map built done ++ tail /\
       (tail = [] \/ tail = [(new_interface c, Raised e)])).

Section Run.
Context {W SI : Type} (import_module : pystr -> result (PyModule W SI)).
Context (graceful : bool).

Lemma rsplit1_last_dot module_path class_name :
  ~ In "."%char class_name ->
  rsplit1 "." (module_path ++ "."%char :: class_name)
  = [module_path; class_name].
Proof.
  intros H. unfold rsplit1.
  assert (rfind (module_path ++ "."%char :: class_name) "."
          = Z.of_nat (length module_path)) as ->.
  { change ("."%char :: class_name) with (["."%char] ++ class_name).
    rewrite app_assoc, rfind_app_absent by now apply rfind_absent.
    apply rfind_snoc. }
  destruct (Z.ltb_spec (Z.of_nat (length module_path)) 0); [lia|].
  unfold slice_to, slice_from.
  rewrite Nat2Z.id.
  replace (Z.to_nat (Z.of_nat (length module_path) + 1))
    with (length module_path + 1)%nat by lia.
  rewrite firstn_app, firstn_all, Nat.sub_diag. cbn [firstn].
  rewrite app_nil_r, skipn_app, skipn_all2 by lia.
  replace (length module_path + 1 - length module_path)%nat with 1%nat by lia.
  reflexivity.
Qed.

(** The second loop: the constructors that returned, then what ended
    the loop. *)
Lemma make_instances_log si configs : forall st,
  let '(r, st') := make_instances import_module si configs st in
  match r with
  | Ok instances =>
      map fst instances = configs /\
      log st' = log st ++ map built configs
  | Raise e =>
      exists done c rest tail,
        configs = done ++ c :: rest /\
        log st' = log st ++ map built done ++ tail /\
        (tail = [] \/ tail = [(new_interface c, Raised e)])
  end.
Proof.
  induction configs as [|c configs IH]; intros st; cbn [make_instances].
  - unfold ret. cbn. now rewrite app_nil_r.
  - unfold bind at 1, lift.
    destruct (get_class import_module (interface c)) as [cls|e].
    + unfold bind at 1, invoke.
      destruct (construct_interface cls c si (world st)) as [[i|e] w1].
      * unfold bind at 1.
        match goal with
        | |- context [make_instances _ _ _ ?s] => specialize (IH s)
        end.
        destruct (make_instances import_module si configs _) as [[insts|e] st2].
        -- destruct IH as [Hm Hl]. unfold ret. cbn [map fst log] in *.
           split; [now rewrite Hm|].
           rewrite Hl, <- app_assoc. reflexivity.
        -- destruct IH as (done & c' & rest & tail & -> & Hl & Ht).
           exists (c :: done), c', rest, tail. cbn [log outcome_of] in *.
           split; [reflexivity|]. split; [|exact Ht].
           rewrite Hl, <- app_assoc. reflexivity.
      * exists [], c, configs, [(new_interface c, Raised e)].
        cbn [log outcome_of map app]. auto.
    + exists [], c, configs, []. cbn [map app]. rewrite app_nil_r. auto.
Qed.

Lemma run_instances_calls (instances : list (BackupInterfaceConfig * Instance W)) :
  framed (fun e => is_run_call (fst e) = true) (run_instances graceful instances).
Proof.
  unfold run_instances. apply framed_for_each. intros [c i] _.
  unfold run_instance. apply framed_try_except.
  - apply framed_bind; [|intros _]; apply framed_invoke; reflexivity.
  - intros e. destruct graceful; [apply framed_note; reflexivity|].
    apply framed_raise.
Qed.

(** A run either comes to its third loop or is ended by a resolution
    or a constructor. *)
Lemma run_backup_shape config (w : W) :
  let '(r, st') := run_backup import_module graceful config (start w) in
  ran config (log st') \/ stopped config r (log st').
Proof.
  unfold run_backup, bind at 1, lift.
  destruct (get_class import_module (storage_interface (storage config)))
    as [cls|e]; [|right; exists e; cbn; auto].
  unfold bind at 1, invoke at 1. cbn [start world log app].
  destruct (construct_storage cls (storage config) w) as [[si|e] w1];
    [|right; exists e; cbn; auto].
  unfold bind at 1. rewrite select_enabled_run. cbn [app outcome_of].
  unfold bind at 1.
  match goal with
  | |- context [make_instances _ _ _ ?s] =>
      pose proof (make_instances_log si (filter enabled (interfaces config)) s)
        as H
  end.
  destruct (make_instances import_module si _ _) as [[instances|e] st2].
  - destruct H as [_ Hl]. cbn [log] in Hl. destruct st2 as [w2 L2].
    cbn [log] in Hl. subst L2.
    destruct (run_instances_calls instances w2) as (r & w3 & d & Hd & Hrun).
    rewrite Hrun. left. exists d. cbn [log]. split; [|exact Hd].
    cbn [app]. now rewrite <- app_assoc.
  - destruct H as (done & c & rest & tail & Hc & Hl & Ht). cbn [log] in Hl.
    right. exists e. split; [reflexivity|]. right. right.
    exists done, c, rest, tail. split; [exact Hc|]. split; [|exact Ht].
    rewrite Hl. cbn [app]. now rewrite <- ?app_assoc.
Qed.

End Run.

Lemma run_call_not_built (d : list (call * outcome)) c o :
  Forall (fun e => is_run_call (fst e) = true) d -> ~ In (new_interface c, o) d.
Proof.
  intros Hd Hin. rewrite Forall_forall in Hd. now apply Hd in Hin.
Qed.

Lemma skip_note_cases l (e : call * outcome) :
  In e (skip_notes l) -> exists c, e = (log_disabled_interface c, Returned).
Proof.
  unfold skip_notes. intros H. apply in_map_iff in H as (c & <- & _). eauto.
Qed.

Lemma built_cases l (e : call * outcome) :
  In e (map built l) -> exists c, In c l /\ e = (new_interface c, Returned).
Proof.
  intros H. apply in_map_iff in H as (c & <- & Hc). eauto.
Qed.

(** X15 ([get_class]): the identifier is cut at its last dot: what
    stands before it, dots included, is imported as the module, and
    the rest is looked up in it. *)
Theorem get_class_cuts_at_last_dot {W SI}
        (import_module : pystr -> result (PyModule W SI))
        module_path class_name module :
  ~ In "."%char class_name ->
  import_module module_path = Ok module ->
  get_class import_module (module_path ++ "."%char :: class_name)
  = match module class_name with
    | Some c => Ok c
    | None => Raise (ImportError (s "class '" ++ class_name
                                    ++ s "' not found in module '"
                                    ++ module_path ++ s "'"))
    end.
Proof.
  intros Hdot Hm. unfold get_class.
  rewrite rsplit1_last_dot by exact Hdot. now rewrite Hm.
Qed.

Lemma get_class_cuts_at_last_dot_witness :
  get_class test_modules
            (s "tests.fixtures.interfaces" ++ "."%char :: s "Missing")
  = match (fun class_name =>
             if str_eqb class_name (s "MockBackupInterface")
                || str_eqb class_name (s "MockStorageInterface")
             then Some plain_class else None) (s "Missing") with
    | Some c => Ok c
    | None => Raise (ImportError (s "class '" ++ s "Missing"
                                    ++ s "' not found in module '"
                                    ++ s "tests.fixtures.interfaces" ++ s "'"))
    end.
Proof.
  apply (get_class_cuts_at_last_dot test_modules
           (s "tests.fixtures.interfaces") (s "Missing")).
  - cbn. intros H. repeat destruct H as [H|H]; try discriminate; auto.
  - reflexivity.
Defined.

(** X16 (constructors): an exception of the constructor of a backup
    interface ends the run, with graceful errors on as well: the run
    raises that exception, and no interface is validated or backed up,
    those constructed before included. *)
Theorem constructor_failure_is_fatal {W SI}
        (import_module : pystr -> result (PyModule W SI)) (graceful : bool)
        (config : Config) (w : W) c e :
  In (new_interface c, Raised e)
     (log (snd (run_backup import_module graceful config (start w)))) ->
  fst (run_backup import_module graceful config (start w)) = Raise e /\
  enabled c = true /\
  Forall (fun e => is_validate_or_backup (fst e) = false)
         (log (snd (run_backup import_module graceful config (start w)))).
Proof.
  pose proof (run_backup_shape import_module graceful config w) as H.
  destruct (run_backup import_module graceful config (start w)) as [r st'].
  cbn [fst snd]. intros Hin.
  destruct H as [(d & Hl & Hd)|(e' & -> & H)].
  - exfalso. rewrite Hl in Hin.
    destruct Hin as [Hin|Hin]; [discriminate|].
    apply in_app_or in Hin as [Hin|Hin];
      [apply skip_note_cases in Hin as (? & ?); discriminate|].
    apply in_app_or in Hin as [Hin|Hin];
      [apply built_cases in Hin as (? & _ & ?); discriminate|].
    now apply run_call_not_built in Hin.
  - destruct H as [Hl|[Hl|(done & c' & rest & tail & Hc & Hl & Ht)]];
      rewrite Hl in Hin |- *.
    + destruct Hin.
    + destruct Hin as [Hin|[]]. discriminate.
    + assert (tail = [(new_interface c, Raised e)] /\ c' = c /\ e' = e)
        as (-> & -> & ->).
      { destruct Hin as [Hin|Hin]; [discriminate|].
        apply in_app_or in Hin as [Hin|Hin];
          [apply skip_note_cases in Hin as (? & ?); discriminate|].
        apply in_app_or in Hin as [Hin|Hin];
          [apply built_cases in Hin as (? & _ & ?); discriminate|].
        destruct Ht as [->| ->]; [destruct Hin|].
        destruct Hin as [[= -> ->]|[]]. auto. }
      split; [reflexivity|]. split.
      * assert (In c (filter enabled (interfaces config))) as Hc'
            by (rewrite Hc; apply in_or_app; right; now left).
        now apply filter_In in Hc'.
      * constructor; [reflexivity|].
        apply Forall_app. split.
        { apply Forall_forall. intros x Hx.
          apply skip_note_cases in Hx as (? & ->). reflexivity. }
        apply Forall_app. split.
        { apply Forall_forall. intros x Hx.
          apply built_cases in Hx as (? & _ & ->). reflexivity. }
        repeat constructor.
Qed.

(** A class whose constructor of a backup interface raises. *)
Definition broken_class : PyClass unit unit :=
  {| construct_storage := fun _ w => (Ok tt, w);
     construct_interface :=
       fun _ _ w => (Raise (OtherError (s "connection refused")), w) |}.

Definition broken_modules (module_path : pystr)
  : result (PyModule unit unit) :=
  Ok (fun class_name =>
        if str_eqb class_name (s "Broken") then Some broken_class
        else Some plain_class).

Definition broken_backup : BackupInterfaceConfig :=
  {| interface := s "interfaces.Broken"; enabled := true; extra := [] |}.

Definition job : Config :=
  {| name := s "job"; config_enabled := true;
     storage := mock_storage_config;
     interfaces := [mock_backup true; broken_backup] |}.

Lemma constructor_failure_is_fatal_witness :
  fst (run_backup broken_modules true job (start tt))
  = Raise (OtherError (s "connection refused")) /\
  enabled broken_backup = true /\
  Forall (fun e => is_validate_or_backup (fst e) = false)
         (log (snd (run_backup broken_modules true job (start tt)))).
Proof.
  apply (constructor_failure_is_fatal broken_modules true job tt
           broken_backup (OtherError (s "connection refused"))).
  vm_compute. right. right. left. reflexivity.
Defined.

(** X17 (order of a run): when a run validates or backs up any
    interface, the storage and every enabled interface of the job were
    constructed before, each once and in the order of the
    configuration, all constructors returned, and after them only
    [validate], [backup] and error log calls follow. *)
Theorem instances_built_before_any_runs {W SI}
        (import_module : pystr -> result (PyModule W SI)) (graceful : bool)
        (config : Config) (w : W) c o :
  let l := log (snd (run_backup import_module graceful config (start w))) in
  In (c, o) l -> is_validate_or_backup c = true ->
  exists d,
    l = (new_storage (storage config), Returned)
          :: skip_notes (interfaces config)
          ++ map built (filter enabled (interfaces config)) ++ d /\
    Forall (fun e => is_run_call (fst e) = true) d.
Proof.
  pose proof (run_backup_shape import_module graceful config w) as H.
  destruct (run_backup import_module graceful config (start w)) as [r st'].
  cbn [snd]. intros Hin Hc.
  destruct H as [H|(e & _ & H)]; [exact H|]. exfalso.
  destruct H as [Hl|[Hl|(done & c' & rest & tail & _ & Hl & Ht)]];
    rewrite Hl in Hin.
  - destruct Hin.
  - destruct Hin as [[= <- _]|[]]. discriminate.
  - destruct Hin as [[= <- _]|Hin]; [discriminate|].
    apply in_app_or in Hin as [Hin|Hin];
      [apply skip_note_cases in Hin as (? & [= -> _]); discriminate|].
    apply in_app_or in Hin as [Hin|Hin];
      [apply built_cases in Hin as (? & _ & [= -> _]); discriminate|].
    destruct Ht as [->| ->]; [destruct Hin|].
    destruct Hin as [[= <- _]|[]]. discriminate.
Qed.

Lemma instances_built_before_any_runs_witness :
  let config := test_config [mock_backup false; mock_backup true] in
  let l := log (snd (run_backup test_modules true config (start tt))) in
  exists d,
    l = (new_storage (storage config), Returned)
          :: skip_notes (interfaces config)
          ++ map built (filter enabled (interfaces config)) ++ d /\
    Forall (fun e => is_run_call (fst e) = true) d.
Proof.
  intros config.
  apply (instances_built_before_any_runs test_modules true config tt
           (validate (mock_backup true)) Returned).
  - vm_compute. right. right. right. left. reflexivity.
  - reflexivity.
Defined.

End OrchestratorMore.

(** ** Settings helpers and the masking of logged objects
       ([utils.py], [settings.py], [backup/utils.py]) *)

Module Utils.

(** The Python values that reach these functions: what [os.getenv], the
    defaults of [settings.py] and a dumped configuration hold.  A dict
    keeps its entries in insertion order.  The induction principle that
    goes into items and entries is [UtilsFacts.value_induction]. *)
Unset Elimination Schemes.
Inductive value : Type :=
| VNone
| VBool (b : bool)
| VInt (n : Z)
| VStr (v : pystr)
| VList (items : list value)
| VDict (entries : list (pystr * value)).
Set Elimination Schemes.

(** [type(value).__name__]. *)
Definition type_name (v : value) : pystr :=
  match v with
  | VNone => s "NoneType"
  | VBool _ => s "bool"
  | VInt _ => s "int"
  | VStr _ => s "str"
  | VList _ => s "list"
  | VDict _ => s "dict"
  end.

(** The [AttributeError] of [value.attr] for a missing attribute. *)
Definition no_attribute {A} (v : value) (attr : pystr) : result A :=
  Raise (AttributeError (s "'" ++ type_name v ++ s "' object has no attribute '"
                           ++ attr ++ s "'")).

(** [c.upper()] on the ASCII range. *)
Definition upper_char (c : ascii) : ascii :=
  let n := code c in
  if (97 <=? n)%N && (n <=? 122)%N then ascii_of_N (n - 32) else c.

Definition upper (a : pystr) : pystr := map upper_char a.

(** [sub in a] on [str]. *)
Fixpoint contains (sub a : pystr) : bool :=
  startswith sub a ||
  match a with
  | [] => false
  | _ :: a' => contains sub a'
  end.

(** The scan of [a.split(sep)] for a non-empty [sep], left to right;
    [skip] counts the characters of a separator found that are still
    to pass. *)
Fixpoint split_scan (sep a : pystr) (skip : nat) : list pystr :=
  match a with
  | [] => [[]]
  | x :: a' =>
      match skip with
      | S k => split_scan sep a' k
      | O =>
          if startswith sep a
          then [] :: split_scan sep a' (length sep - 1)
          else match split_scan sep a' 0 with
               | part :: parts => (x :: part) :: parts
               | [] => [[x]]
               end
      end
  end.

(** [a.split(sep)]. *)
Definition split (sep a : pystr) : result (list pystr) :=
  match sep with
  | [] => Raise (ValueError (s "empty separator"))
  | _ :: _ => Ok (split_scan sep a 0)
  end.

(** [for x in l: ... f(x) ...] collecting the results, as a loop or a
    list comprehension does: the first exception ends it. *)
Fixpoint traverse {A B} (f : A -> result B) (l : list A) : result (list B) :=
  match l with
  | [] => Ok []
  | x :: l' =>
      match f x with
      | Ok y =>
          match traverse f l' with
          | Ok ys => Ok (y :: ys)
          | Raise e => Raise e
          end
      | Raise e => Raise e
      end
  end.

(** [to_list(value, separator)]. *)
Definition to_list (v : value) (separator : pystr) : result value :=
  match v with
  | VList _ => Ok v
  | VStr a =>
      match split separator a with
      | Ok parts => Ok (VList (map VStr parts))
      | Raise e => Raise e
      end
  | _ => no_attribute v (s "split")
  end.

(** [str(value)] for the values that have a fixed short form. *)
Definition str_of (v : value) : option pystr :=
  match v with
  | VNone => Some (s "None")
  | VBool true => Some (s "True")
  | VBool false => Some (s "False")
  | VInt n => Some (str_of_int n)
  | VStr a => Some a
  | VList _ | VDict _ => None
  end.

Definition truthy : list pystr :=
  [s "true"; s "yes"; s "on"; s "1"; s "t"].

(** [to_bool(value)]; the [str] of a list or of a dict starts with a
    bracket or a brace and is none of the five words. *)
Definition to_bool (v : value) : bool :=
  match v with
  | VBool b => b
  | _ =>
      match str_of v with
      | Some a => existsb (str_eqb (lower a)) truthy
      | None => false
      end
  end.

(** [to_upper(value)]. *)
Definition to_upper (v : value) : result value :=
  match v with
  | VStr a => Ok (VStr (upper a))
  | _ => no_attribute v (s "upper")
  end.

(** [getenv(name, default, cast)] over the environment [environ]. *)
Definition getenv (environ : pystr -> option pystr) (name : pystr)
           (default : value) (cast : option (value -> result value))
  : result value :=
  let v := match environ name with
           | Some a => VStr a
           | None => default
           end in
  match cast with
  | Some f => f v
  | None => Ok v
  end.

(** [settings.LOG_SENSITIVE_KEYS]. *)
Definition LOG_SENSITIVE_KEYS (environ : pystr -> option pystr)
  : result value :=
  getenv environ (s "LOG_SENSITIVE_KEYS")
         (VList [VStr (s "PASSWORD"); VStr (s "SECRET"); VStr (s "TOKEN");
                 VStr (s "KEY"); VStr (s "DSN")])
         (Some (fun v => to_list v (s ","))).

(** [settings.BACKUP_GRACEFUL_ERRORS]. *)
Definition BACKUP_GRACEFUL_ERRORS (environ : pystr -> option pystr)
  : result value :=
  getenv environ (s "BACKUP_INTERFACE_GRACEFUL_ERRORS") (VBool true)
         (Some (fun v => Ok (VBool (to_bool v)))).

(** *** [mask_sensitive_data] *)

Definition stars : value := VStr (s "********").

(** [any(s in key.upper() for s in sensitive)]. *)
Definition is_sensitive (sensitive : list pystr) (key : pystr) : bool :=
  existsb (fun k => contains k (upper key)) sensitive.

(** [mask_sensitive_data(data)] with [settings.LOG_SENSITIVE_KEYS =
    sensitive].  Of the three assignments to [masked[key]] the last one
    made stands: a dict or a list under a sensitive key is processed,
    not replaced. *)
Fixpoint mask_sensitive_data (sensitive : list pystr) (data : value)
  : result value :=
  match data with
  | VStr _ => Ok data
  | VDict entries =>
      match traverse
              (fun '(key, v) =>
                 match v with
                 | VDict _ =>
                     match mask_sensitive_data sensitive v with
                     | Ok m => Ok (key, m)
                     | Raise e => Raise e
                     end
                 | VList items =>
                     match traverse (mask_sensitive_data sensitive) items with
                     | Ok ms => Ok (key, VList ms)
                     | Raise e => Raise e
                     end
                 | _ =>
                     Ok (key, if is_sensitive sensitive key then stars else v)
                 end)
              entries with
      | Ok masked => Ok (VDict masked)
      | Raise e => Raise e
      end
  | VList _ => no_attribute data (s "items")
  | _ => no_attribute data (s "copy")
  end.

(** Can [mask_sensitive_data] handle the value: a [str], or a dict in
    which every list, at any depth, holds strings and such dicts
    only. *)
Fixpoint maskable (data : value) : bool :=
  match data with
  | VStr _ => true
  | VDict entries =>
      forallb (fun '(_, v) =>
                 match v with
                 | VDict _ => maskable v
                 | VList items => forallb maskable items
                 | _ => true
                 end) entries
  | _ => false
  end.

(** No number, truth value, [None] or string is left in the open under
    a sensitive key of a dict, at any depth; strings in lists do not
    count. *)
Fixpoint secrets_hidden (sensitive : list pystr) (data : value) : bool :=
  match data with
  | VDict entries =>
      forallb (fun '(key, v) =>
                 match v with
                 | VDict _ => secrets_hidden sensitive v
                 | VList items => forallb (secrets_hidden sensitive) items
                 | _ => if is_sensitive sensitive key
                        then match v with
                             | VStr a => str_eqb a (s "********")
                             | _ => false
                             end
                        else true
                 end) entries
  | VList items => forallb (secrets_hidden sensitive) items
  | _ => true
  end.

End Utils.

Module UtilsFacts.
Import Utils.

(** *** Splitting and joining *)

Lemma split_scan_nonempty sep a : forall skip, split_scan sep a skip <> [].
Proof.
  induction a as [|x a IH]; intros skip; cbn [split_scan]; [discriminate|].
  destruct skip as [|k]; [|apply IH].
  destruct (startswith sep (x :: a)); [discriminate|].
  destruct (split_scan sep a 0); discriminate.
Qed.

Lemma join_cons sep p ps :
  ps <> [] -> join sep (p :: ps) = p ++ sep ++ join sep ps.
Proof. destruct ps; [contradiction|reflexivity]. Qed.

Lemma startswith_app p : forall a,
  startswith p a = true -> a = p ++ skipn (length p) a.
Proof.
  induction p as [|x p IH]; intros a H; [reflexivity|].
  destruct a as [|y a]; [discriminate|]. cbn [startswith] in H.
  apply andb_prop in H as [Hx Hp]. apply Ascii.eqb_eq in Hx. subst y.
  cbn [length skipn app]. f_equal. now apply IH.
Qed.

(** With [skip] characters of a separator still to pass, the joined
    parts are what follows them. *)
Lemma join_split_scan c sep a : forall skip,
  (skip <= length a)%nat ->
  join (c :: sep) (split_scan (c :: sep) a skip) = skipn skip a.
Proof.
  induction a as [|x a IH]; intros skip Hs.
  - cbn in Hs. assert (skip = 0)%nat as -> by lia. reflexivity.
  - cbn [split_scan]. destruct skip as [|k].
    + cbn [skipn]. destruct (startswith (c :: sep) (x :: a)) eqn:E.
      * rewrite join_cons by apply split_scan_nonempty.
        apply startswith_app in E.
        cbn [length skipn app] in E. injection E as -> E.
        cbn [length Nat.sub app]. rewrite Nat.sub_0_r.
        assert (length sep <= length a)%nat
          by (rewrite E, length_app; lia).
        rewrite IH by assumption. f_equal. now symmetry.
      * specialize (IH 0%nat ltac:(lia)). cbn [skipn] in IH.
        destruct (split_scan (c :: sep) a 0) as [|part parts] eqn:Es;
          [now apply split_scan_nonempty in Es|].
        rewrite <- IH. destruct parts; reflexivity.
    + cbn [skipn]. apply IH. cbn in Hs. lia.
Qed.

Lemma split_scan_char c a : split_scan [c] a 0 = split_on c a.
Proof.
  induction a as [|x a IH]; [reflexivity|].
  cbn [split_scan split_on startswith length Nat.sub].
  rewrite andb_true_r, IH, Ascii.eqb_sym. reflexivity.
Qed.

Lemma split_on_free c a : Forall (fun p => ~ In c p) (split_on c a).
Proof.
  induction a as [|x a IH]; cbn [split_on]; [repeat constructor; auto|].
  destruct (Ascii.eqb_spec x c) as [->|Hx]; [constructor; auto|].
  destruct (split_on c a) as [|p ps]; [repeat constructor; intros [|[]]; auto|].
  inversion IH as [|? ? Hp Hps]; subst. constructor; [|exact Hps].
  intros [E|Hin]; auto.
Qed.

(** After a trailing separator comes an empty part. *)
Lemma split_on_snoc c b :
  exists front, front <> [] /\ split_on c (b ++ [c]) = front ++ [[]].
Proof.
  induction b as [|x b (front & Hf & IH)]; cbn [app split_on].
  - rewrite Ascii.eqb_refl. exists [[]]. split; [discriminate|reflexivity].
  - rewrite IH. destruct (Ascii.eqb x c).
    + exists ([] :: front). split; [discriminate|reflexivity].
    + destruct front as [|f fs]; [contradiction|]. cbn [app].
      exists ((x :: f) :: fs). split; [discriminate|reflexivity].
Qed.

(** X18 ([to_list]): a string and a non-empty separator give a list
    that is not empty and that, joined with the separator, is the
    string again; with a separator of one character no item holds that
    character. *)
Theorem to_list_splits a separator :
  separator <> [] ->
  exists parts,
    to_list (VStr a) separator = Ok (VList (map VStr parts)) /\
    parts <> [] /\
    join separator parts = a /\
    (forall c, separator = [c] -> Forall (fun p => ~ In c p) parts).
Proof.
  intros Hs. destruct separator as [|c sep]; [contradiction|].
  exists (split_scan (c :: sep) a 0). cbn [to_list split].
  split; [reflexivity|]. split; [apply split_scan_nonempty|]. split.
  - now rewrite join_split_scan by lia.
  - intros c' [= -> ->]. rewrite split_scan_char. apply split_on_free.
Qed.

Lemma to_list_splits_witness :
  exists parts,
    to_list (VStr (s "PASSWORD,,TOKEN")) (s ",") = Ok (VList (map VStr parts)) /\
    parts <> [] /\
    join (s ",") parts = s "PASSWORD,,TOKEN" /\
    (forall c, s "," = [c] -> Forall (fun p => ~ In c p) parts).
Proof.
  apply (to_list_splits (s "PASSWORD,,TOKEN") (s ",")). discriminate.
Defined.

(** *** Truth values *)

Lemma lower_upper_char c : lower_char (upper_char c) = lower_char c.
Proof.
  destruct c as [[] [] [] [] [] [] [] []]; reflexivity.
Qed.

Lemma lower_lower_char c : lower_char (lower_char c) = lower_char c.
Proof.
  destruct c as [[] [] [] [] [] [] [] []]; reflexivity.
Qed.

(** X19 ([to_bool]): the case of a string does not matter:
    [to_bool(value.upper())] and [to_bool(value.lower())] are
    [to_bool(value)]. *)
Theorem to_bool_ignores_case a :
  to_bool (VStr (upper a)) = to_bool (VStr a) /\
  to_bool (VStr (lower a)) = to_bool (VStr a).
Proof.
  unfold to_bool. cbn [str_of].
  assert (lower (upper a) = lower a) as ->.
  { unfold lower, upper. rewrite map_map. apply map_ext.
    apply lower_upper_char. }
  assert (lower (lower a) = lower a) as ->.
  { unfold lower. rewrite map_map. apply map_ext. apply lower_lower_char. }
  split; reflexivity.
Qed.

(** *** Masking *)

(** Induction on values, items and entries included. *)
Section ValueInduction.
Variable P : value -> Prop.
Hypothesis PNone : P VNone.
Hypothesis PBool : forall b, P (VBool b).
Hypothesis PInt : forall n, P (VInt n).
Hypothesis PStr : forall a, P (VStr a).
Hypothesis PList : forall items, Forall P items -> P (VList items).
Hypothesis PDict :
  forall entries, Forall (fun e => P (snd e)) entries -> P (VDict entries).

Fixpoint value_induction (v : value) : P v :=
  match v with
  | VNone => PNone
  | VBool b => PBool b
  | VInt n => PInt n
  | VStr a => PStr a
  | VList items =>
      PList items
            ((fix go (l : list value) : Forall P l :=
                match l with
                | [] => Forall_nil P
                | x :: l' => Forall_cons x (value_induction x) (go l')
                end) items)
  | VDict entries =>
      PDict entries
            ((fix go (l : list (pystr * value))
                : Forall (fun e => P (snd e)) l :=
                match l with
                | [] => Forall_nil _
                | e :: l' =>
                    Forall_cons e (value_induction (snd e)) (go l')
                end) entries)
  end.
End ValueInduction.

(** What the loop of [mask_sensitive_data] does with one entry. *)
Definition mask_entry (sensitive : list pystr) (e : pystr * value)
  : result (pystr * value) :=
  let '(key, v) := e in
  match v with
  | VDict _ =>
      match mask_sensitive_data sensitive v with
      | Ok m => Ok (key, m)
      | Raise e => Raise e
      end
  | VList items =>
      match traverse (mask_sensitive_data sensitive) items with
      | Ok ms => Ok (key, VList ms)
      | Raise e => Raise e
      end
  | _ => Ok (key, if is_sensitive sensitive key then stars else v)
  end.

Lemma mask_dict sensitive entries :
  mask_sensitive_data sensitive (VDict entries)
  = match traverse (mask_entry sensitive) entries with
    | Ok masked => Ok (VDict masked)
    | Raise e => Raise e
    end.
Proof. reflexivity. Qed.

Lemma traverse_forall {A B} (f : A -> result B) (Q : A -> B -> Prop) l :
  Forall (fun x => forall y, f x = Ok y -> Q x y) l ->
  forall l', traverse f l = Ok l' -> Forall2 Q l l'.
Proof.
  induction 1 as [|x l Hx _ IH]; cbn [traverse]; intros l'.
  - intros [= <-]. constructor.
  - destruct (f x) as [y|e] eqn:Ef; [|discriminate].
    destruct (traverse f l) as [ys|e]; [|discriminate].
    intros [= <-]. constructor; auto.
Qed.

Lemma traverse_fixed {A} (f : A -> result A) l :
  Forall (fun x => f x = Ok x) l -> traverse f l = Ok l.
Proof.
  induction 1 as [|x l Hx _ IH]; cbn [traverse]; [reflexivity|].
  now rewrite Hx, IH.
Qed.

Lemma traverse_in {A B} (f : A -> result B) l : forall l' x,
  traverse f l = Ok l' -> In x l -> exists y, f x = Ok y /\ In y l'.
Proof.
  induction l as [|a l IH]; cbn [traverse]; intros l' x H Hin; [destruct Hin|].
  destruct (f a) as [y|e] eqn:Ef; [|discriminate].
  destruct (traverse f l) as [ys|e]; [|discriminate].
  injection H as <-. destruct Hin as [->|Hin].
  - exists y. split; [exact Ef|now left].
  - destruct (IH ys x eq_refl Hin) as (y' & Hy & Hin'). 
    exists y'. split; [exact Hy|now right].
Qed.

Lemma traverse_out {A B} (f : A -> result B) l : forall l' y,
  traverse f l = Ok l' -> In y l' -> exists x, f x = Ok y /\ In x l.
Proof.
  induction l as [|a l IH]; cbn [traverse]; intros l' y H Hin.
  - injection H as <-. destruct Hin.
  - destruct (f a) as [b|e] eqn:Ef; [|discriminate].
    destruct (traverse f l) as [ys|e]; [|discriminate].
    injection H as <-. destruct Hin as [->|Hin].
    + exists a. split; [exact Ef|now left].
    + destruct (IH ys y eq_refl Hin) as (x & Hx & Hin').
      exists x. split; [exact Hx|now right].
Qed.

Lemma traverse_is_ok {A B} (f : A -> result B) l :
  is_ok (traverse f l) = forallb (fun x => is_ok (f x)) l.
Proof.
  induction l as [|x l IH]; cbn [traverse forallb]; [reflexivity|].
  destruct (f x); cbn [is_ok andb]; [|reflexivity].
  rewrite <- IH. now destruct (traverse f l).
Qed.

Lemma forallb_ext_in {A} (f g : A -> bool) l :
  Forall (fun x => f x = g x) l -> forallb f l = forallb g l.
Proof.
  induction 1 as [|x l Hx _ IH]; cbn [forallb]; [reflexivity|].
  now rewrite Hx, IH.
Qed.

Lemma forall2_right {A B} (Q : B -> Prop) (l : list A) (l' : list B) :
  Forall2 (fun _ y => Q y) l l' -> Forall Q l'.
Proof. induction 1; constructor; auto. Qed.

Lemma traverse_raise {A B} (f : A -> result B) l e :
  traverse f l = Raise e -> exists x, In x l /\ f x = Raise e.
Proof.
  induction l as [|a l IH]; cbn [traverse]; [discriminate|].
  destruct (f a) as [y|e'] eqn:Ef.
  - destruct (traverse f l) as [ys|e']; [discriminate|].
    intros [= ->]. destruct (IH eq_refl) as (x & Hin & Hx).
    exists x. split; [now right|exact Hx].
  - intros [= ->]. exists a. split; [now left|exact Ef].
Qed.

Section Mask.
Variable sensitive : list pystr.

(** [mask_sensitive_data] with these sensitive keys. *)
Definition mask : value -> result value := mask_sensitive_data sensitive.

(** A masked dict is a dict. *)
Lemma mask_dict_is_dict entries m :
  mask_sensitive_data sensitive (VDict entries) = Ok m ->
  exists masked, m = VDict masked.
Proof.
  rewrite mask_dict. destruct (traverse _ entries); [|discriminate].
  intros [= <-]. eauto.
Qed.

(** The facts proved together by induction on the value: for the value
    itself and, for a list, for its items. *)
Definition facts (Q : value -> value -> Prop) (v : value) : Prop :=
  (forall m, mask v = Ok m -> Q v m) /\
  match v with
  | VList items =>
      forall ms, traverse mask items = Ok ms -> Forall2 Q items ms
  | _ => True
  end.

Lemma mask_facts (Q : value -> value -> Prop) :
  (forall a, Q (VStr a) (VStr a)) ->
  (forall entries masked,
     Forall2 (fun e e' =>
                fst e' = fst e /\
                match snd e with
                | VDict _ => Q (snd e) (snd e') /\ mask (snd e) = Ok (snd e')
                | VList items =>
                    exists ms, snd e' = VList ms /\ Forall2 Q items ms
                | v => snd e' = if is_sensitive sensitive (fst e)
                                then stars else v
                end) entries masked ->
     Q (VDict entries) (VDict masked)) ->
  forall v, facts Q v.
Proof.
  intros HStr HDict. unfold facts, mask in *.
  induction v as [| | | |items IH|entries IH] using value_induction;
    try (split; [discriminate|exact I]).
  - split; [|exact I]. intros m [= <-]. apply HStr.
  - split; [discriminate|].
    apply traverse_forall. eapply Forall_impl; [|exact IH].
    intros x [Hx _]. exact Hx.
  - split; [|exact I]. intros m. rewrite mask_dict.
    destruct (traverse (mask_entry sensitive) entries) as [masked|e] eqn:Et;
      [|discriminate].
    intros [= <-]. apply HDict.
    revert Et. apply traverse_forall.
    eapply Forall_impl; [|exact IH].
    intros [key v] [Hv Hl] [key' v']. cbn [fst snd mask_entry] in *.
    destruct v as [| | | |items|es];
      try (intros [= <- <-]; split; reflexivity).
    + destruct (traverse (mask_sensitive_data sensitive) items) as [ms|e] eqn:Ei;
        [|discriminate].
      intros [= <- <-]. split; [reflexivity|]. exists ms. auto.
    + destruct (mask_sensitive_data sensitive (VDict es)) as [m|e] eqn:Em;
        [|discriminate].
      intros [= <- <-]. split; [reflexivity|]. auto.
Qed.

End Mask.

(** The entry-wise readings of [maskable] and [secrets_hidden]. *)
Definition maskable_entry (e : pystr * value) : bool :=
  match snd e with
  | VDict _ => maskable (snd e)
  | VList items => forallb maskable items
  | _ => true
  end.

Definition hidden_entry (sensitive : list pystr) (e : pystr * value) : bool :=
  match snd e with
  | VDict _ => secrets_hidden sensitive (snd e)
  | VList items => forallb (secrets_hidden sensitive) items
  | v => if is_sensitive sensitive (fst e)
         then match v with
              | VStr a => str_eqb a (s "********")
              | _ => false
              end
         else true
  end.

Lemma maskable_dict entries :
  maskable (VDict entries) = forallb maskable_entry entries.
Proof.
  cbn [maskable]. apply forallb_ext_in, Forall_forall.
  intros [key v] _. reflexivity.
Qed.

Lemma secrets_hidden_dict sensitive entries :
  secrets_hidden sensitive (VDict entries)
  = forallb (hidden_entry sensitive) entries.
Proof.
  cbn [secrets_hidden]. apply forallb_ext_in, Forall_forall.
  intros [key v] _. destruct v; reflexivity.
Qed.

Lemma is_ok_map {A B} (r : result A) (g : A -> B) :
  is_ok (match r with Ok a => Ok (g a) | Raise e => Raise e end) = is_ok r.
Proof. now destruct r. Qed.

(** A scalar or a string is an entry value that the loop replaces or
    keeps, but does not go into. *)
Definition plain (v : value) : Prop :=
  match v with
  | VList _ | VDict _ => False
  | _ => True
  end.

Lemma mask_entry_plain sensitive key v :
  plain v ->
  mask_entry sensitive (key, v)
  = Ok (key, if is_sensitive sensitive key then stars else v).
Proof. destruct v; cbn; intros H; try reflexivity; destruct H. Qed.

(** X20 (masking twice): masking what [mask_sensitive_data] returned
    gives the same value again. *)
Theorem mask_is_idempotent sensitive data m :
  mask_sensitive_data sensitive data = Ok m ->
  mask_sensitive_data sensitive m = Ok m.
Proof.
  revert m.
  apply (mask_facts sensitive
           (fun _ m => mask_sensitive_data sensitive m = Ok m)).
  - reflexivity.
  - intros entries masked H. rewrite mask_dict.
    rewrite (traverse_fixed (mask_entry sensitive) masked); [reflexivity|].
    apply (forall2_right (fun e' => mask_entry sensitive e' = Ok e')
                         entries masked).
    eapply Forall2_impl; [|exact H].
    intros [key v] [key' v'] [Hk Hv]. cbn [fst snd] in *. subst key'.
    destruct v as [| | | |items|es].
    + subst v'. destruct (is_sensitive sensitive key) eqn:E; cbn; now rewrite E.
    + subst v'. destruct (is_sensitive sensitive key) eqn:E; cbn; now rewrite E.
    + subst v'. destruct (is_sensitive sensitive key) eqn:E; cbn; now rewrite E.
    + subst v'. destruct (is_sensitive sensitive key) eqn:E; cbn; now rewrite E.
    + destruct Hv as (ms & -> & Hms). cbn [mask_entry].
      rewrite (traverse_fixed (mask_sensitive_data sensitive) ms);
        [reflexivity|].
      apply (forall2_right
               (fun m => mask_sensitive_data sensitive m = Ok m) items ms).
      exact Hms.
    + destruct Hv as [Hq Hm].
      destruct (mask_dict_is_dict sensitive es v' Hm) as (masked' & ->).
      cbn [mask_entry]. now rewrite Hq.
Qed.

(** The default of [settings.LOG_SENSITIVE_KEYS]. *)
Definition default_keys : list pystr :=
  [s "PASSWORD"; s "SECRET"; s "TOKEN"; s "KEY"; s "DSN"].

(** A dumped configuration: a storage section with an account key, and
    a list of passwords. *)
Definition dumped : value :=
  VDict [(s "name", VStr (s "nightly"));
         (s "storage", VDict [(s "account_key", VStr (s "c2VjcmV0"));
                              (s "container", VStr (s "backups"))]);
         (s "retries", VInt 3);
         (s "passwords", VList [VStr (s "hunter2")])].

Definition dumped_masked : value :=
  VDict [(s "name", VStr (s "nightly"));
         (s "storage", VDict [(s "account_key", stars);
                              (s "container", VStr (s "backups"))]);
         (s "retries", VInt 3);
         (s "passwords", VList [VStr (s "hunter2")])].

Lemma mask_is_idempotent_witness :
  mask_sensitive_data default_keys dumped_masked = Ok dumped_masked.
Proof.
  apply (mask_is_idempotent default_keys dumped dumped_masked).
  reflexivity.
Defined.

(** X21 (what masking hides): in what [mask_sensitive_data] returns, no
    number, truth value, [None] or string other than the mask stands
    under a sensitive key of a dict, at any depth of dicts and lists. *)
Theorem mask_hides_secrets sensitive data m :
  mask_sensitive_data sensitive data = Ok m ->
  secrets_hidden sensitive m = true.
Proof.
  revert m.
  apply (mask_facts sensitive (fun _ m => secrets_hidden sensitive m = true)).
  - reflexivity.
  - intros entries masked H. rewrite secrets_hidden_dict.
    apply forallb_forall. apply Forall_forall.
    apply (forall2_right (fun e' => hidden_entry sensitive e' = true)
                         entries masked).
    eapply Forall2_impl; [|exact H].
    intros [key v] [key' v'] [Hk Hv]. cbn [fst snd] in *. subst key'.
    unfold hidden_entry. cbn [fst snd].
    destruct v as [| | | |items|es].
    + subst v'. now destruct (is_sensitive sensitive key) eqn:E; cbn; rewrite ?E.
    + subst v'. now destruct (is_sensitive sensitive key) eqn:E; cbn; rewrite ?E.
    + subst v'. now destruct (is_sensitive sensitive key) eqn:E; cbn; rewrite ?E.
    + subst v'. now destruct (is_sensitive sensitive key) eqn:E; cbn; rewrite ?E.
    + destruct Hv as (ms & -> & Hms).
      apply forallb_forall. apply Forall_forall.
      apply (forall2_right (fun m => secrets_hidden sensitive m = true)
                           items ms).
      exact Hms.
    + destruct Hv as [Hq Hm].
      destruct (mask_dict_is_dict sensitive es v' Hm) as (masked' & ->).
      exact Hq.
Qed.

Lemma mask_hides_secrets_witness :
  secrets_hidden default_keys dumped_masked = true.
Proof.
  apply (mask_hides_secrets default_keys dumped dumped_masked).
  reflexivity.
Defined.

(** An [AttributeError]. *)
Definition is_attribute_error (e : exn) : Prop :=
  exists msg, e = AttributeError msg.

(** X22 (what masking accepts): [mask_sensitive_data] returns exactly
    for a string and for a dict in which every list, at any depth,
    holds only strings and such dicts; for anything else, a list, a
    number or [None] at the top or in a list, it raises, and what it
    raises is an [AttributeError]. *)
Theorem mask_returns_iff_maskable sensitive data :
  is_ok (mask_sensitive_data sensitive data) = maskable data /\
  forall e, mask_sensitive_data sensitive data = Raise e ->
            is_attribute_error e.
Proof.
  assert (forall v,
            (is_ok (mask_sensitive_data sensitive v) = maskable v /\
             forall e, mask_sensitive_data sensitive v = Raise e ->
                       is_attribute_error e) /\
            match v with
            | VList items =>
                is_ok (traverse (mask_sensitive_data sensitive) items)
                = forallb maskable items /\
                forall e, traverse (mask_sensitive_data sensitive) items
                          = Raise e -> is_attribute_error e
            | _ => True
            end) as H; [|apply H].
  induction v as [| | | |items IH|entries IH] using value_induction.
  - split; [split; [reflexivity|intros e [= <-]; eexists; reflexivity]|exact I].
  - split; [split; [reflexivity|intros e [= <-]; eexists; reflexivity]|exact I].
  - split; [split; [reflexivity|intros e [= <-]; eexists; reflexivity]|exact I].
  - split; [split; [reflexivity|discriminate]|exact I].
  - split; [split; [reflexivity|intros e [= <-]; eexists; reflexivity]|].
    split.
    + rewrite traverse_is_ok. apply forallb_ext_in.
      eapply Forall_impl; [|exact IH]. intros x [[Hx _] _]. exact Hx.
    + intros e He. apply traverse_raise in He as (x & Hin & Hx).
      rewrite Forall_forall in IH. now apply (IH x Hin).
  - split; [|exact I]. rewrite mask_dict, maskable_dict. split.
    + rewrite is_ok_map, traverse_is_ok. apply forallb_ext_in.
      eapply Forall_impl; [|exact IH].
      intros [key v] [[Hv _] Hl]. unfold maskable_entry.
      cbn [fst snd mask_entry] in *.
      destruct v; try reflexivity.
      * rewrite is_ok_map. apply Hl.
      * rewrite is_ok_map. exact Hv.
    + intros e He.
      destruct (traverse (mask_entry sensitive) entries) as [masked|e'] eqn:Et;
        [discriminate|].
      injection He as ->.
      apply traverse_raise in Et as ([key v] & Hin & Hx).
      rewrite Forall_forall in IH. specialize (IH (key, v) Hin).
      cbn [snd mask_entry] in *. destruct IH as [[_ Hv] Hl].
      destruct v; try discriminate.
      * destruct (traverse (mask_sensitive_data sensitive) items) eqn:Ei;
          [discriminate|].
        injection Hx as ->. now apply Hl.
      * destruct (mask_sensitive_data sensitive (VDict entries0)) eqn:Em;
          [discriminate|].
        injection Hx as ->. now apply Hv.
Qed.

(** X23 (strings in lists): a list of strings in a dict comes out of
    [mask_sensitive_data] as it went in, whatever its key: the strings
    under a sensitive key that holds a list are not masked. *)
Theorem strings_in_lists_stay_visible sensitive entries masked key items :
  mask_sensitive_data sensitive (VDict entries) = Ok (VDict masked) ->
  In (key, VList (map VStr items)) entries ->
  In (key, VList (map VStr items)) masked.
Proof.
  rewrite mask_dict.
  destruct (traverse (mask_entry sensitive) entries) as [masked'|e] eqn:Et;
    [|discriminate].
  intros [= <-] Hin.
  destruct (traverse_in _ _ _ _ Et Hin) as (y & Hy & Hin').
  cbn [mask_entry] in Hy.
  rewrite (traverse_fixed (mask_sensitive_data sensitive) (map VStr items))
    in Hy.
  - injection Hy as <-. exact Hin'.
  - apply Forall_forall. intros x Hx.
    apply in_map_iff in Hx as (a & <- & _). reflexivity.
Qed.

Lemma strings_in_lists_stay_visible_witness :
  In (s "passwords", VList (map VStr [s "hunter2"]))
     [(s "name", VStr (s "nightly"));
      (s "storage", VDict [(s "account_key", stars);
                           (s "container", VStr (s "backups"))]);
      (s "retries", VInt 3);
      (s "passwords", VList [VStr (s "hunter2")])].
Proof.
  apply (strings_in_lists_stay_visible default_keys
           [(s "name", VStr (s "nightly"));
            (s "storage", VDict [(s "account_key", VStr (s "c2VjcmV0"));
                                 (s "container", VStr (s "backups"))]);
            (s "retries", VInt 3);
            (s "passwords", VList [VStr (s "hunter2")])]).
  - reflexivity.
  - right. right. right. left. reflexivity.
Defined.

Lemma empty_key_is_sensitive sensitive key :
  In [] sensitive -> is_sensitive sensitive key = true.
Proof.
  intros H. unfold is_sensitive. apply existsb_exists.
  exists []. split; [exact H|]. now destruct (upper key).
Qed.

(** X24 (an empty sensitive key): when [LOG_SENSITIVE_KEYS] is set to
    the empty string, or to a value that ends with a comma, the setting
    holds an empty key, which is part of every key: every number, truth
    value, [None] and string that is the value of a dict entry is then
    masked, whatever the key. *)
Theorem empty_sensitive_key_masks_all environ a :
  environ (s "LOG_SENSITIVE_KEYS") = Some a ->
  a = [] \/ (exists b, a = b ++ s ",") ->
  exists sensitive,
    LOG_SENSITIVE_KEYS environ = Ok (VList (map VStr sensitive)) /\
    forall entries masked key v,
      mask_sensitive_data sensitive (VDict entries) = Ok (VDict masked) ->
      In (key, v) masked -> plain v -> v = stars.
Proof.
  intros Henv Ha. exists (split_on "," a). split.
  - unfold LOG_SENSITIVE_KEYS, getenv. rewrite Henv.
    cbn [to_list split s String.list_ascii_of_string].
    now rewrite split_scan_char.
  - assert (In [] (split_on "," a)) as Hempty.
    { destruct Ha as [->|(b & ->)]; [now left|].
      change (s ",") with [","%char].
      destruct (split_on_snoc "," b) as (front & _ & ->).
      apply in_or_app. right. now left. }
    intros entries masked key v. rewrite mask_dict.
    destruct (traverse _ entries) as [masked'|e] eqn:Et; [|discriminate].
    intros [= <-] Hin Hplain.
    destruct (traverse_out _ _ _ _ Et Hin) as ([key0 v0] & Hx & _).
    cbn [mask_entry] in Hx.
    destruct v0 as [| | | |items|es].
    + injection Hx as <- <-. now rewrite empty_key_is_sensitive.
    + injection Hx as <- <-. now rewrite empty_key_is_sensitive.
    + injection Hx as <- <-. now rewrite empty_key_is_sensitive.
    + injection Hx as <- <-. now rewrite empty_key_is_sensitive.
    + destruct (traverse _ items); [|discriminate].
      injection Hx as <- <-. destruct Hplain.
    + destruct (mask_sensitive_data (split_on "," a) (VDict es)) as [m|e] eqn:Em;
        [|discriminate].
      injection Hx as <- <-.
      destruct (mask_dict_is_dict _ es m Em) as (? & ->). destruct Hplain.
Qed.

(** An environment in which [LOG_SENSITIVE_KEYS] ends with a comma. *)
Definition trailing_comma (name : pystr) : option pystr :=
  if str_eqb name (s "LOG_SENSITIVE_KEYS") then Some (s "PASSWORD,") else None.

Lemma empty_sensitive_key_masks_all_witness :
  exists sensitive,
    LOG_SENSITIVE_KEYS trailing_comma = Ok (VList (map VStr sensitive)) /\
    forall entries masked key v,
      mask_sensitive_data sensitive (VDict entries) = Ok (VDict masked) ->
      In (key, v) masked -> plain v -> v = stars.
Proof.
  apply (empty_sensitive_key_masks_all trailing_comma (s "PASSWORD,")).
  - reflexivity.
  - right. exists (s "PASSWORD"). reflexivity.
Defined.

End UtilsFacts.

(** ** Placeholders in the configuration ([config/loader.py]) *)

Module Loader.
Import Utils.

(** [\w] on the ASCII range: a letter, a digit or the underscore. *)
Definition is_word (c : ascii) : bool :=
  let n := code c in
  ((48 <=? n) && (n <=? 57) || (65 <=? n) && (n <=? 90)
   || (97 <=? n) && (n <=? 122) || (n =? 95))%N.

(** The longest run of word characters at the head of [a], and what
    follows it: what the greedy [\w+] takes. *)
Fixpoint word_run (a : pystr) : pystr * pystr :=
  match a with
  | c :: a' =>
      if is_word c
      then let '(w, r) := word_run a' in (c :: w, r)
      else ([], a)
  | [] => ([], [])
  end.

(** Does [RE_SUBSTITUTION], that is [\${(\w+)}], match at the head of
    [a], and with which group 1: a dollar, a brace, word characters, of
    which there is at least one, and the closing brace. *)
Definition placeholder (a : pystr) : option pystr :=
  match a with
  | "$"%char :: "{"%char :: rest =>
      match word_run rest with
      | ((_ :: _) as name, "}"%char :: _) => Some name
      | _ => None
      end
  | _ => None
  end.

(** [replace(match)]: the value of the variable, and nothing for a
    variable that is not set ([None] is put in as the empty string). *)
Definition replace (environ : pystr -> option pystr) (env_var : pystr)
  : pystr :=
  match environ env_var with
  | Some env_val => env_val
  | None => []
  end.

(** The scan of [RE_SUBSTITUTION.sub(replace, value)], left to right:
    a match is replaced and passed over ([skip] counts its characters
    still to pass), any other character is kept. *)
Fixpoint sub_scan (environ : pystr -> option pystr) (a : pystr) (skip : nat)
  : pystr :=
  match a with
  | [] => []
  | c :: a' =>
      match skip with
      | S k => sub_scan environ a' k
      | O =>
          match placeholder a with
          | Some name =>
              replace environ name ++ sub_scan environ a' (length name + 2)
          | None => c :: sub_scan environ a' 0
          end
      end
  end.

(** [sub_env_vars(value)]. *)
Definition sub_env_vars (environ : pystr -> option pystr) (value : pystr)
  : pystr :=
  sub_scan environ value 0.

(** [process(data)] of [sub_yaml], on a configuration without shared
    parts: the strings that are values of a dict are substituted, dicts
    and lists are gone into, and whatever else there is, the strings
    that are items of a list among it, is left alone. *)
Fixpoint process (environ : pystr -> option pystr) (data : value) : value :=
  match data with
  | VDict entries =>
      VDict (map (fun '(key, v) =>
                    (key, match v with
                          | VStr a => VStr (sub_env_vars environ a)
                          | _ => process environ v
                          end)) entries)
  | VList items => VList (map (process environ) items)
  | _ => data
  end.

(** [sub_yaml(config)]. *)
Definition sub_yaml (environ : pystr -> option pystr) (config : value)
  : value :=
  process environ config.

(** No string that [process] substitutes holds a dollar. *)
Fixpoint dollar_free (data : value) : bool :=
  match data with
  | VDict entries =>
      forallb (fun '(_, v) =>
                 match v with
                 | VStr a => negb (existsb (Ascii.eqb "$") a)
                 | _ => dollar_free v
                 end) entries
  | VList items => forallb dollar_free items
  | _ => true
  end.

End Loader.

Module LoaderFacts.
Import Utils UtilsFacts Loader.

Lemma placeholder_head c a :
  c <> "$"%char -> placeholder (c :: a) = None.
Proof.
  intros H. cbn [placeholder].
  destruct c as [[] [] [] [] [] [] [] []]; try reflexivity.
  now contradiction H.
Qed.

(** Text without a dollar is kept as it is. *)
Lemma sub_scan_text environ a b :
  ~ In "$"%char a -> sub_scan environ (a ++ b) 0 = a ++ sub_scan environ b 0.
Proof.
  induction a as [|c a IH]; intros H; [reflexivity|].
  cbn [app sub_scan].
  rewrite placeholder_head by (intros ->; apply H; now left).
  rewrite IH by (intros Hin; apply H; now right). reflexivity.
Qed.

Lemma sub_scan_here environ c a :
  sub_scan environ (c :: a) 0
  = match placeholder (c :: a) with
    | Some name => replace environ name ++ sub_scan environ a (length name + 2)
    | None => c :: sub_scan environ a 0
    end.
Proof. reflexivity. Qed.

(** The characters of a match are passed over. *)
Lemma sub_scan_skip environ pre b :
  sub_scan environ (pre ++ b) (length pre) = sub_scan environ b 0.
Proof.
  induction pre as [|c pre IH]; [reflexivity|].
  cbn [app length sub_scan]. exact IH.
Qed.

Lemma word_run_name name b :
  Forall (fun c => is_word c = true) name ->
  word_run (name ++ "}"%char :: b) = (name, "}"%char :: b).
Proof.
  induction 1 as [|c name Hc _ IH]; [reflexivity|].
  cbn [app word_run]. now rewrite Hc, IH.
Qed.

(** X25 ([sub_env_vars]): text before the first dollar is kept; a
    placeholder [${NAME}] with a name of word characters is replaced by
    the value of the variable, put in as it is and not scanned again,
    or by nothing when the variable is not set; the scan goes on behind
    the placeholder. *)
Theorem sub_env_vars_replaces_placeholder environ a name b :
  ~ In "$"%char a ->
  name <> [] -> Forall (fun c => is_word c = true) name ->
  sub_env_vars environ (a ++ s "${" ++ name ++ s "}" ++ b)
  = a ++ replace environ name ++ sub_env_vars environ b.
Proof.
  intros Ha Hn Hw. unfold sub_env_vars.
  rewrite sub_scan_text by exact Ha. f_equal.
  change (s "${" ++ name ++ s "}" ++ b)
    with ("$"%char :: "{"%char :: name ++ "}"%char :: b).
  rewrite sub_scan_here.
  assert (placeholder ("$"%char :: "{"%char :: name ++ "}"%char :: b)
          = Some name) as ->.
  { cbn [placeholder]. rewrite word_run_name by exact Hw.
    destruct name; [contradiction|reflexivity]. }
  f_equal.
  rewrite <- (sub_scan_skip environ ("{"%char :: name ++ ["}"%char]) b).
  f_equal.
  - cbn [app]. rewrite <- app_assoc. reflexivity.
  - cbn [length]. rewrite length_app. cbn [length]. lia.
Qed.

(** An environment with one variable, whose value looks like a
    placeholder. *)
Definition one_variable (name : pystr) : option pystr :=
  if str_eqb name (s "HOME") then Some (s "${USER}") else None.

Lemma sub_env_vars_replaces_placeholder_witness :
  sub_env_vars one_variable
               (s "dir: " ++ s "${" ++ s "HOME" ++ s "}" ++ s "/${TMP}/x")
  = s "dir: " ++ replace one_variable (s "HOME")
      ++ sub_env_vars one_variable (s "/${TMP}/x").
Proof.
  apply (sub_env_vars_replaces_placeholder one_variable (s "dir: ")
           (s "HOME") (s "/${TMP}/x")).
  - cbn. intros H. repeat destruct H as [H|H]; try discriminate; auto.
  - discriminate.
  - repeat constructor.
Defined.

(** What [process] does with one entry of a dict. *)
Definition process_entry (environ : pystr -> option pystr)
           (e : pystr * value) : pystr * value :=
  (fst e, match snd e with
          | VStr a => VStr (sub_env_vars environ a)
          | v => process environ v
          end).

Lemma process_dict environ entries :
  process environ (VDict entries)
  = VDict (map (process_entry environ) entries).
Proof.
  cbn [process]. f_equal. apply map_ext. intros [key v].
  destruct v; reflexivity.
Qed.

Lemma process_strings environ items :
  process environ (VList (map VStr items)) = VList (map VStr items).
Proof.
  cbn [process]. f_equal. rewrite map_map. now apply map_ext.
Qed.

(** X26 ([sub_yaml], lists): a list of strings in the configuration
    comes out of [sub_yaml] as it went in: placeholders in strings that
    are items of a list are not replaced. *)
Theorem placeholders_in_lists_stay environ entries key items :
  In (key, VList (map VStr items)) entries ->
  exists entries',
    sub_yaml environ (VDict entries) = VDict entries' /\
    In (key, VList (map VStr items)) entries'.
Proof.
  intros Hin. unfold sub_yaml. rewrite process_dict.
  eexists. split; [reflexivity|].
  apply in_map_iff. exists (key, VList (map VStr items)).
  split; [|exact Hin].
  unfold process_entry. cbn [fst snd]. now rewrite process_strings.
Qed.

Lemma placeholders_in_lists_stay_witness :
  exists entries',
    sub_yaml one_variable
             (VDict [(s "src", VStr (s "${HOME}/data"));
                     (s "exclude", VList (map VStr [s "${HOME}/cache"]))])
    = VDict entries' /\
    In (s "exclude", VList (map VStr [s "${HOME}/cache"])) entries'.
Proof.
  apply (placeholders_in_lists_stay one_variable
           [(s "src", VStr (s "${HOME}/data"));
            (s "exclude", VList (map VStr [s "${HOME}/cache"]))]).
  right. left. reflexivity.
Defined.

Lemma no_dollar a :
  existsb (Ascii.eqb "$") a = false -> ~ In "$"%char a.
Proof.
  intros H Hin. assert (existsb (Ascii.eqb "$") a = true) as Ht.
  { apply existsb_exists. exists "$"%char. split; [exact Hin|].
    apply Ascii.eqb_refl. }
  congruence.
Qed.

Lemma map_fixed {A} (f : A -> A) l :
  Forall (fun x => f x = x) l -> map f l = l.
Proof. induction 1 as [|x l Hx _ IH]; cbn [map]; congruence. Qed.

(** X27 ([sub_yaml], no placeholders): a configuration in which no
    string that is the value of a dict holds a dollar comes out of
    [sub_yaml] unchanged, whatever the environment. *)
Theorem sub_yaml_keeps_plain_config environ config :
  dollar_free config = true -> sub_yaml environ config = config.
Proof.
  unfold sub_yaml.
  induction config as [| | | |items IH|entries IH] using value_induction;
    try reflexivity.
  - cbn [dollar_free process]. intros H. f_equal. apply map_fixed.
    rewrite forallb_forall in H. rewrite Forall_forall in IH |- *.
    intros x Hx. apply IH; auto.
  - rewrite process_dict. cbn [dollar_free]. intros H. f_equal.
    apply map_fixed. rewrite forallb_forall in H.
    rewrite Forall_forall in IH |- *.
    intros [key v] Hx. specialize (H _ Hx). specialize (IH _ Hx).
    unfold process_entry. cbn [fst snd] in *. f_equal.
    destruct v; try (now apply IH); try reflexivity.
    f_equal. unfold sub_env_vars.
    apply negb_true_iff, no_dollar in H.
    rewrite <- (app_nil_r v) at 1. rewrite sub_scan_text by exact H.
    cbn [sub_scan]. apply app_nil_r.
Qed.

Lemma sub_yaml_keeps_plain_config_witness :
  sub_yaml one_variable
           (VDict [(s "name", VStr (s "nightly"));
                   (s "exclude", VList [VStr (s "${HOME}/cache")]);
                   (s "retention", VDict [(s "count", VInt 3)])])
  = VDict [(s "name", VStr (s "nightly"));
           (s "exclude", VList [VStr (s "${HOME}/cache")]);
           (s "retention", VDict [(s "count", VInt 3)])].
Proof.
  apply (sub_yaml_keeps_plain_config one_variable). reflexivity.
Defined.

End LoaderFacts.

(** ** The loop over the directories
       ([directories/local.py], [directories/ssh.py]) *)

Module BackupLoop.
Import Storage Naming Directories EffFacts DirectoryFacts.

Lemma framed_try_finally {W C A} (P : C * outcome -> Prop)
      (body : M (St W C) A) (final : M (St W C) unit) :
  framed P body -> framed P final -> framed P (try_finally body final).
Proof.
  intros Hb Hf w. destruct (Hb w) as (r & w1 & d1 & Hd1 & H1).
  destruct (Hf w1) as (r2 & w2 & d2 & Hd2 & H2).
  exists (match r2 with Ok _ => r | Raise e => Raise e end), w2, (d1 ++ d2).
  split; [now apply Forall_app|].
  intros L. unfold try_finally. rewrite H1, H2, app_assoc.
  now destruct r2.
Qed.

Lemma framed_when {W C} (P : C * outcome -> Prop) (b : bool)
      (m : M (St W C) unit) :
  framed P m -> framed P (when b m).
Proof. intros H. destruct b; [exact H|apply framed_ret]. Qed.

Lemma for_each_app {S A} (body : A -> M S unit) (l1 l2 : list A) (st : S) :
  for_each (l1 ++ l2) body st
  = match for_each l1 body st with
    | (Ok _, st1) => for_each l2 body st1
    | (Raise e, st1) => (Raise e, st1)
    end.
Proof.
  revert st. induction l1 as [|x l1 IH]; intros st; cbn [app for_each].
  - reflexivity.
  - unfold bind. destruct (body x st) as [[[]|e] st1]; [apply IH|reflexivity].
Qed.

(** A call that reads or prunes what the storage holds. *)
Definition prunes (e : call * outcome) : Prop := retention_call e.

(** A call that is neither a [list] nor a [delete] on the storage. *)
Definition keeps (e : call * outcome) : Prop := ~ retention_call e.

Ltac keeps_call :=
  intros o (p & [H|H]); discriminate H.

Lemma backup_directory_keeps {W} (storage : StorageInterface W)
      (machine : LocalMachine W) directory :
  retention_config directory = None ->
  framed keeps (backup_directory storage machine directory).
Proof.
  intros Hr. unfold backup_directory, archive, now. rewrite Hr.
  apply framed_bind.
  { apply framed_bind; [apply framed_invoke; keeps_call|].
    intros file. apply framed_ret. }
  intros [a ext]. apply framed_bind; [apply framed_invoke; keeps_call|].
  intros t. apply framed_bind; [apply framed_invoke; keeps_call|].
  intros present. apply framed_bind.
  { apply framed_when, framed_invoke. keeps_call. }
  intros _. apply framed_bind; [apply framed_invoke; keeps_call|].
  intros file_obj. apply framed_bind.
  { apply framed_try_finally; [|apply framed_note; keeps_call].
    apply framed_bind; [apply framed_invoke; keeps_call|].
    intros size. apply framed_invoke. keeps_call. }
  intros _. apply framed_bind; [apply framed_invoke; keeps_call|].
  intros _. apply framed_ret.
Qed.

Lemma ssh_backup_directory_keeps {W} (storage : StorageInterface W)
      (client : SSHClient W) directory :
  retention_config directory = None ->
  framed keeps (ssh_backup_directory storage client directory).
Proof.
  intros Hr. unfold ssh_backup_directory, ssh_archive, ssh_now. rewrite Hr.
  apply framed_bind.
  { apply framed_bind; [apply framed_invoke; keeps_call|].
    intros status. apply framed_ret. }
  intros [a ext]. apply framed_bind; [apply framed_invoke; keeps_call|].
  intros t. apply framed_bind; [apply framed_invoke; keeps_call|].
  intros _. apply framed_bind; [apply framed_invoke; keeps_call|].
  intros present. apply framed_bind.
  { apply framed_when, framed_invoke. keeps_call. }
  intros _. apply framed_bind.
  { apply framed_try_finally; [|apply framed_invoke; keeps_call].
    apply framed_bind; [apply framed_invoke; keeps_call|].
    intros remote_file.
    apply framed_try_finally; [|apply framed_note; keeps_call].
    apply framed_bind; [apply framed_invoke; keeps_call|].
    intros size. apply framed_invoke. keeps_call. }
  intros _. apply framed_bind; [apply framed_invoke; keeps_call|].
  intros _. apply framed_ret.
Qed.

Lemma framed_log {W C A} (P : C * outcome -> Prop) (m : M (St W C) A) w :
  framed P m -> Forall P (log (snd (m (start w)))).
Proof.
  intros H. destruct (H w) as (r & w' & d & Hd & Hrun).
  unfold start. rewrite (Hrun []). exact Hd.
Qed.

(** X28 (no retention configured): when no directory of the interface
    has a retention configuration, a backup, local or over ssh, never
    lists and never deletes anything in the storage, however it
    ends. *)
Theorem backup_without_retention_keeps_storage {W}
        (storage : StorageInterface W) (machine : LocalMachine W)
        (client : SSHClient W) directories (w : W) :
  Forall (fun d => retention_config d = None) directories ->
  Forall keeps (log (snd (backup storage machine directories (start w)))) /\
  Forall keeps (log (snd (ssh_backup storage client directories (start w)))).
Proof.
  intros H. rewrite Forall_forall in H. split; apply framed_log.
  - unfold backup. apply framed_for_each. intros d Hd.
    apply backup_directory_keeps. now apply H.
  - unfold ssh_backup. apply framed_for_each. intros d Hd.
    apply ssh_backup_directory_keeps. now apply H.
Qed.

Lemma backup_without_retention_keeps_storage_witness :
  Forall keeps
         (log (snd (backup refusing_storage quiet_machine
                           [DirectoriesMore.directory_at (s "/srv")]
                           (start tt)))) /\
  Forall keeps
         (log (snd (ssh_backup refusing_storage DirectoriesMore.remote
                               [DirectoriesMore.directory_at (s "/srv")]
                               (start tt)))).
Proof.
  apply (backup_without_retention_keeps_storage refusing_storage quiet_machine
           DirectoriesMore.remote [DirectoriesMore.directory_at (s "/srv")] tt).
  repeat constructor.
Defined.

(** X29 (a directory that fails): when the directories before it were
    backed up and the backup of a directory raises, the backup of the
    interface raises the same exception there and then: the directories
    after it are not archived, nor is anything else done for them. *)
Theorem backup_stops_at_failed_directory {W}
        (storage : StorageInterface W) (machine : LocalMachine W)
        before directory after (w : W) st1 st2 e :
  backup storage machine before (start w) = (Ok tt, st1) ->
  backup_directory storage machine directory st1 = (Raise e, st2) ->
  backup storage machine (before ++ directory :: after) (start w)
  = (Raise e, st2).
Proof.
  unfold backup. intros Hb Hd. rewrite for_each_app, Hb.
  cbn [for_each]. unfold bind. now rewrite Hd.
Qed.

Lemma backup_stops_at_failed_directory_witness :
  backup refusing_storage quiet_machine
         ([] ++ DirectoriesMore.directory_at (s "/srv")
             :: [DirectoriesMore.directory_at (s "/home")])
         (start tt)
  = backup_directory refusing_storage quiet_machine
                     (DirectoriesMore.directory_at (s "/srv")) (start tt).
Proof.
  destruct (backup_directory refusing_storage quiet_machine
              (DirectoriesMore.directory_at (s "/srv")) (start tt))
    as [[[]|e] st2] eqn:E; [discriminate E|].
  apply (backup_stops_at_failed_directory refusing_storage quiet_machine
           [] (DirectoriesMore.directory_at (s "/srv"))
           [DirectoriesMore.directory_at (s "/home")] tt (start tt) st2 e).
  - reflexivity.
  - exact E.
Defined.

End BackupLoop.
